(** * Z80PostSelectCombiner: a shallow embedding and its properties

    The development follows llvm/lib/Target/Z80/Z80PostSelectCombiner.cpp:
    the [ValLoc] tracker first, then the instruction stream the pass
    mutates, then [runOnMachineFunction] itself, and finally the
    properties of the pass. *)

From Stdlib Require Import ZArith Bool Lia.
From stdpp Require Import base option list.

Local Open Scope Z_scope.

(** ** Registers

    A [Register] is LLVM's 32-bit unsigned register id: 0 is the invalid
    register, ids below 2^30 are physical, ids from 2^30 are stack slots
    and ids from 2^31 are virtual registers. *)

Definition Register := Z.

Definition NoRegister : Register := 0.
Definition FirstStackSlot : Z := 2 ^ 30.
Definition VirtualRegFlag : Z := 2 ^ 31.

Definition isValid (R : Register) : bool := negb (R =? NoRegister).

Definition isPhysical (R : Register) : bool :=
  (1 <=? R) && (R <? FirstStackSlot).

Definition isVirtual (R : Register) : bool :=
  (VirtualRegFlag <=? R) && (R <? 2 ^ 32).

(** [Register::index2StackSlot]: the sum is taken in 32 bits; the
    caller guarantees [0 <= FI]. *)
Definition index2StackSlot (FI : Z) : Register :=
  (FI + FirstStackSlot) mod 2 ^ 32.

(** [Register::index2VirtReg]: [Index | VirtualRegFlag]. *)
Definition index2VirtReg (Index : nat) : Register :=
  Z.lor (Z.of_nat Index) VirtualRegFlag.

(** Conversion of a 64-bit immediate to [int8_t]: the low eight bits,
    read as a signed value. *)
Definition to_int8 (z : Z) : Z := (z + 128) mod 256 - 128.

(** ** Failures of the embedded code *)

Inductive Fault :=
  | AssertionFailure   (* an operand accessor used on the wrong kind *)
  | OutOfRange         (* an operand index past the operand list *)
  | DanglingIterator.  (* the block iterator points at an erased instruction *)

Inductive res (A : Type) :=
  | Ok (a : A)
  | Err (f : Fault).
Arguments Ok {A} a.
Arguments Err {A} f.

Definition bind {A B} (m : res A) (k : A -> res B) : res B :=
  match m with
  | Ok a => k a
  | Err f => Err f
  end.

Declare Scope res_scope.
Delimit Scope res_scope with res.
Notation "x <- m ;; k" := (bind m (fun x => k))
  (at level 100, m at next level, right associativity) : res_scope.
Local Open Scope res_scope.

(** ** Operands and instructions *)

Inductive MachineOperand :=
  | MO_Register (Reg : Register) (IsDef : bool) (IsImp : bool)
  | MO_Immediate (Imm : Z)
  | MO_FrameIndex (Index : Z).

Definition isReg (MO : MachineOperand) : bool :=
  match MO with MO_Register _ _ _ => true | _ => false end.

Definition getReg (MO : MachineOperand) : res Register :=
  match MO with
  | MO_Register R _ _ => Ok R
  | _ => Err AssertionFailure
  end.

Definition getImm (MO : MachineOperand) : res Z :=
  match MO with
  | MO_Immediate i => Ok i
  | _ => Err AssertionFailure
  end.

Definition getIndex (MO : MachineOperand) : res Z :=
  match MO with
  | MO_FrameIndex i => Ok i
  | _ => Err AssertionFailure
  end.

(** [MachineOperand::setReg] keeps the flags of the operand. *)
Definition MO_setReg (MO : MachineOperand) (R : Register) : res MachineOperand :=
  match MO with
  | MO_Register _ d i => Ok (MO_Register R d i)
  | _ => Err AssertionFailure
  end.

Inductive Opcode :=
  | COPY
  | PUSH16r | PUSH24r | LEA16ro | LEA24ro | PEA16o | PEA24o
  | LD16sa | LD24sa
  | LD8rp | LD8gp | LD8ro | LD8go | LD8pr | LD8pg | LD8or | LD8og
  | OR8ar
  | ADD8ar | ADD8ai | ADC8ar | ADC8ai | SUB8ar | SUB8ai | SBC8ar | SBC8ai
  | AND8ar | AND8ai | XOR8ar | XOR8ai | OR8ai
  | RLC8r | RRC8r | RL8r | RR8r | SLA8r | SRA8r | SRL8r | INC8r | DEC8r
  | ADD8ap | ADC8ap | SUB8ap | SBC8ap | AND8ap | XOR8ap | OR8ap
  | RLC8p | RRC8p | RL8p | RR8p | SLA8p | SRA8p | SRL8p | INC8p | DEC8p
  | ADD8ao | ADC8ao | SUB8ao | SBC8ao | AND8ao | XOR8ao | OR8ao
  | RLC8o | RRC8o | RL8o | RR8o | SLA8o | SRA8o | SRL8o | INC8o | DEC8o
  | OtherOpcode (n : nat).

(** The part of an [MCInstrDesc] the pass depends on: the opcode and the
    number of leading operands that are explicit definitions. *)
Record MCInstrDesc := mkDesc {
  DescOpcode : Opcode;
  NumDefs : nat
}.

Record MachineInstr := mkMI {
  Desc : MCInstrDesc;
  Operands : list MachineOperand;
  DebugLoc : nat
}.

Definition getOpcode (MI : MachineInstr) : Opcode := DescOpcode (Desc MI).

Definition getOperand (MI : MachineInstr) (OpNo : nat) : res MachineOperand :=
  match Operands MI !! OpNo with
  | Some MO => Ok MO
  | None => Err OutOfRange
  end.

Definition getOperandReg (MI : MachineInstr) (OpNo : nat) : res Register :=
  MO <- getOperand MI OpNo ;; getReg MO.

(** [MachineInstr::defs]: the explicit definitions are the first
    [NumDefs] operands. *)
Definition defs (MI : MachineInstr) : res (list MachineOperand) :=
  if (NumDefs (Desc MI) <=? length (Operands MI))%nat
  then Ok (take (NumDefs (Desc MI)) (Operands MI))
  else Err OutOfRange.

(** ** The location tracker *)

Record ValLoc := mkValLoc {
  Reg : Register;
  Base : Register;
  Off : Z
}.

(** [ValLoc()] *)
Definition ValLoc_init : ValLoc := mkValLoc NoRegister NoRegister 0.

Definition getBaseReg (MI : MachineInstr) (OpNo : nat) : res Register :=
  BaseMO <- getOperand MI OpNo ;;
  if isReg BaseMO then getReg BaseMO
  else
    Index <- getIndex BaseMO ;;
    if 0 <=? Index then Ok (index2StackSlot Index) else Ok NoRegister.

Definition setReg (L : ValLoc) (R : Register) : ValLoc :=
  mkValLoc R (Base L) (Off L).

Definition setRegMI (L : ValLoc) (MI : MachineInstr) (OpNo : nat) : res ValLoc :=
  R <- getOperandReg MI OpNo ;; Ok (setReg L R).

Definition setMem (L : ValLoc) (B : Register) (O : Z) : ValLoc :=
  mkValLoc (Reg L) B (to_int8 O).

Definition setPtr (L : ValLoc) (MI : MachineInstr) (OpNo : nat) : res ValLoc :=
  B <- getOperandReg MI OpNo ;; Ok (setMem L B 0).

Definition setOff (L : ValLoc) (MI : MachineInstr) (OpNo : nat) : res ValLoc :=
  B <- getBaseReg MI OpNo ;;
  MO <- getOperand MI (OpNo + 1) ;;
  O <- getImm MO ;;
  Ok (setMem L B O).

Definition matchesReg (L : ValLoc) (R : Register) : bool :=
  isValid R && (Reg L =? R).

Definition matchesRegMI (L : ValLoc) (MI : MachineInstr) (OpNo : nat) : res bool :=
  R <- getOperandReg MI OpNo ;; Ok (matchesReg L R).

Definition matchesMem (L : ValLoc) (B : Register) (O : Z) : bool :=
  isValid B && (Base L =? B) && (Off L =? to_int8 O).

Definition matchesPtr (L : ValLoc) (MI : MachineInstr) (OpNo : nat) : res bool :=
  B <- getOperandReg MI OpNo ;; Ok (matchesMem L B 0).

Definition matchesOff (L : ValLoc) (MI : MachineInstr) (OpNo : nat) : res bool :=
  B <- getBaseReg MI OpNo ;;
  MO <- getOperand MI (OpNo + 1) ;;
  O <- getImm MO ;;
  Ok (matchesMem L B O).

Definition clear (L : ValLoc) : ValLoc := ValLoc_init.

(** ** The subtarget

    What the pass reads from the subtarget and the generated target
    description: the eZ80 capability, the register overlap oracle
    [TargetRegisterInfo::regsOverlap], the descriptor table [TII.get]
    and the ids of the physical registers the pass names. *)

Record Z80Subtarget := mkSTI {
  hasEZ80Ops : bool;
  regsOverlap : Register -> Register -> bool;
  TII_get : Opcode -> MCInstrDesc;
  Z80_A : Register;
  Z80_F : Register;
  Z80_SPS : Register;
  Z80_SPL : Register
}.

(** The inner loop of [clobberDefs] over [{Reg, Base}]: [true] when the
    definition [DefMO] hits one of the two.  [DefMO.getReg()] is only
    evaluated for a valid [LocReg]. *)
Fixpoint clobbersAny (STI : Z80Subtarget) (DefMO : MachineOperand)
  (LocRegs : list Register) : res bool :=
  match LocRegs with
  | [] => Ok false
  | LocReg :: rest =>
      if isValid LocReg then
        D <- getReg DefMO ;;
        if regsOverlap STI D LocReg then Ok true
        else clobbersAny STI DefMO rest
      else clobbersAny STI DefMO rest
  end.

Fixpoint clobberLoop (STI : Z80Subtarget) (Defs : list MachineOperand)
  (L : ValLoc) : res ValLoc :=
  match Defs with
  | [] => Ok L
  | DefMO :: rest =>
      hit <- clobbersAny STI DefMO [Reg L; Base L] ;;
      if hit then Ok (clear L) else clobberLoop STI rest L
  end.

Definition clobberDefs (STI : Z80Subtarget) (L : ValLoc) (MI : MachineInstr)
  : res ValLoc :=
  Ds <- defs MI ;; clobberLoop STI Ds L.

(** ** The machine function

    Instructions live in a store indexed by their identity ([InstrId],
    the address of the [MachineInstr]); a block is the ordered list of
    the ids linked into it.  Erasing an instruction unlinks it from its
    block and records the id in [Erased]; the store keeps the old
    contents, which is what a read through a stale reference finds. *)

Definition InstrId := nat.

Inductive RegClass := A16RegClass | A24RegClass | OtherRegClass.

Record MachineFunction := mkMF {
  Blocks : list (list InstrId);
  Instrs : list MachineInstr;
  Erased : list InstrId;
  VRegs : list RegClass
}.

Definition getInstr (MF : MachineFunction) (id : InstrId) : res MachineInstr :=
  match Instrs MF !! id with
  | Some MI => Ok MI
  | None => Err OutOfRange
  end.

Definition setInstr (MF : MachineFunction) (id : InstrId) (MI : MachineInstr)
  : MachineFunction :=
  mkMF (Blocks MF) (<[id := MI]> (Instrs MF)) (Erased MF) (VRegs MF).

Definition isErased (MF : MachineFunction) (id : InstrId) : bool :=
  bool_decide (id ∈ Erased MF).

(** [MachineInstr::eraseFromParent] *)
Definition eraseFromParent (MF : MachineFunction) (id : InstrId)
  : MachineFunction :=
  mkMF (filter (fun j => j ≠ id) <$> Blocks MF) (Instrs MF)
       (id :: Erased MF) (VRegs MF).

Fixpoint insertBefore (pos new : InstrId) (l : list InstrId) : list InstrId :=
  match l with
  | [] => []
  | j :: rest =>
      if Nat.eqb j pos then new :: j :: rest
      else j :: insertBefore pos new rest
  end.

(** [BuildMI(MBB, MI, DL, MCID, ...)]: a new instruction linked into
    block [b] right before [pos]; its id is the next free store slot. *)
Definition insertInstr (MF : MachineFunction) (b : nat) (pos : InstrId)
  (MI : MachineInstr) : MachineFunction :=
  let new := length (Instrs MF) in
  mkMF (alter (insertBefore pos new) b (Blocks MF))
       (Instrs MF ++ [MI]) (Erased MF) (VRegs MF).

(** [MachineRegisterInfo::createVirtualRegister] *)
Definition createVirtualRegister (MF : MachineFunction) (RC : RegClass)
  : Register * MachineFunction :=
  (index2VirtReg (length (VRegs MF)),
   mkMF (Blocks MF) (Instrs MF) (Erased MF) (VRegs MF ++ [RC])).

Definition isUseOf (R : Register) (MO : MachineOperand) : bool :=
  match MO with
  | MO_Register R' false _ => R' =? R
  | _ => false
  end.

Definition isDefOf (R : Register) (MO : MachineOperand) : bool :=
  match MO with
  | MO_Register R' true _ => R' =? R
  | _ => false
  end.

(** The instructions linked into the function, in layout order. *)
Definition linkedInstrs (MF : MachineFunction) : list (InstrId * MachineInstr) :=
  omap (fun id => (fun MI => (id, MI)) <$> (Instrs MF !! id))
       (concat (Blocks MF)).

Definition countUses (MF : MachineFunction) (R : Register) : nat :=
  sum_list ((fun p => length (filter (fun MO => isUseOf R MO = true)
                                     (Operands (snd p))))
            <$> linkedInstrs MF).

(** [MachineRegisterInfo::hasOneUse] *)
Definition hasOneUse (MF : MachineFunction) (R : Register) : bool :=
  Nat.eqb (countUses MF R) 1.

(** [MachineRegisterInfo::getVRegDef]: null without a definition, the
    defining instruction when there is one, an assertion otherwise. *)
Definition getVRegDef (MF : MachineFunction) (R : Register)
  : res (option InstrId) :=
  match filter (fun p => existsb (isDefOf R) (Operands (snd p)) = true)
               (linkedInstrs MF) with
  | [] => Ok None
  | [p] => Ok (Some (fst p))
  | _ => Err AssertionFailure
  end.

(** [MachineInstr::modifiesRegister]: some operand defines the register,
    or a physical register overlapping it. *)
Definition modifiesRegister (STI : Z80Subtarget) (MI : MachineInstr)
  (R : Register) : bool :=
  existsb (fun MO =>
             match MO with
             | MO_Register R' true _ =>
                 (R' =? R) ||
                 (isPhysical R && isPhysical R' && regsOverlap STI R' R)
             | _ => false
             end) (Operands MI).

Definition setDesc (MI : MachineInstr) (D : MCInstrDesc) : MachineInstr :=
  mkMI D (Operands MI) (DebugLoc MI).

(** [MachineInstr::removeOperand] *)
Definition removeOperand (MI : MachineInstr) (OpNo : nat) : res MachineInstr :=
  if (OpNo <? length (Operands MI))%nat
  then Ok (mkMI (Desc MI) (delete OpNo (Operands MI)) (DebugLoc MI))
  else Err OutOfRange.

Definition isImpReg (MO : MachineOperand) : bool :=
  match MO with MO_Register _ _ true => true | _ => false end.

(** [MachineInstr::addOperand]: an implicit register goes to the end, any
    other operand goes before the trailing implicit registers. *)
Fixpoint addExplicit (Ops : list MachineOperand) (MO : MachineOperand)
  : list MachineOperand :=
  match Ops with
  | [] => [MO]
  | Op :: rest =>
      if forallb isImpReg Ops then MO :: Ops else Op :: addExplicit rest MO
  end.

Definition addOperand (MI : MachineInstr) (MO : MachineOperand) : MachineInstr :=
  mkMI (Desc MI)
       (if isImpReg MO then Operands MI ++ [MO] else addExplicit (Operands MI) MO)
       (DebugLoc MI).

(** [MI.getOperand(OpNo).setReg(R)] *)
Definition setOperandReg (MI : MachineInstr) (OpNo : nat) (R : Register)
  : res MachineInstr :=
  MO <- getOperand MI OpNo ;;
  MO' <- MO_setReg MO R ;;
  Ok (mkMI (Desc MI) (<[OpNo := MO']> (Operands MI)) (DebugLoc MI)).

#[global] Instance Opcode_eq_dec : EqDecision Opcode.
Proof. solve_decision. Defined.

(** ** The pass

    [PassState] is what [runOnMachineFunction] threads through the walk:
    the function being mutated, the [Changed] flag, and the log of reads
    made through a reference to an instruction that was already erased. *)

Record PassState := mkPS {
  Fn : MachineFunction;
  Changed : bool;
  StaleReads : list InstrId
}.

Definition markChanged (st : PassState) (MF : MachineFunction) : PassState :=
  mkPS MF true (StaleReads st).

Definition withFn (st : PassState) (MF : MachineFunction) : PassState :=
  mkPS MF (Changed st) (StaleReads st).

(** [case TargetOpcode::COPY] *)
Definition combineCopy (STI : Z80Subtarget) (b : nat) (id : InstrId)
  (MI : MachineInstr) (L : ValLoc) (st : PassState)
  : res (ValLoc * PassState) :=
  m <- matchesRegMI L MI 1 ;;
  L1 <- (if m : bool then setRegMI L MI 0 else Ok L) ;;
  DstReg <- getOperandReg MI 0 ;;
  if negb (DstReg =? Z80_SPS STI) && negb (DstReg =? Z80_SPL STI)
  then Ok (L1, st)
  else
    let IsSPL := DstReg =? Z80_SPL STI in
    let (TmpReg, MF1) :=
      createVirtualRegister (Fn st)
        (if IsSPL then A24RegClass else A16RegClass) in
    Src <- getOperand MI 1 ;;
    let New :=
      addOperand (mkMI (TII_get STI COPY) [MO_Register TmpReg true false]
                       (DebugLoc MI)) Src in
    let MF2 := insertInstr MF1 b id New in
    let MI1 := setDesc MI (TII_get STI (if IsSPL then LD24sa else LD16sa)) in
    MI2 <- removeOperand MI1 0 ;;
    MI3 <- setOperandReg MI2 0 TmpReg ;;
    Ok (L1, markChanged st (setInstr MF2 id MI3)).

(** [case Z80::PUSH16r: case Z80::PUSH24r] *)
Definition combinePush (STI : Z80Subtarget) (IsPush24 : bool) (id : InstrId)
  (MI : MachineInstr) (L : ValLoc) (st : PassState)
  : res (ValLoc * PassState) :=
  if negb (hasEZ80Ops STI) then Ok (L, st)
  else
    SrcReg <- getOperandReg MI 0 ;;
    if negb (hasOneUse (Fn st) SrcReg) then Ok (L, st)
    else
      d <- getVRegDef (Fn st) SrcReg ;;
      match d with
      | None => Ok (L, st)
      | Some sid =>
          SrcMI <- getInstr (Fn st) sid ;;
          if negb (bool_decide
                     (getOpcode SrcMI = if IsPush24 then LEA24ro else LEA16ro))
          then Ok (L, st)
          else
            BaseMO <- getOperand SrcMI 1 ;;
            OffMO <- getOperand SrcMI 2 ;;
            NewOff <- getImm OffMO ;;
            MI' <- (if negb (isReg BaseMO) || negb (NewOff =? 0) then
                      MI1 <- removeOperand MI 0 ;;
                      let MI2 :=
                        setDesc MI1
                          (TII_get STI (if IsPush24 then PEA24o else PEA16o)) in
                      Ok (addOperand (addOperand MI2 BaseMO)
                                     (MO_Immediate NewOff))
                    else
                      B <- getReg BaseMO ;; setOperandReg MI 0 B) ;;
            Ok (L, markChanged st
                     (eraseFromParent (setInstr (Fn st) id MI') sid))
      end.

(** The opcode switch of the walk. *)
Definition combine (STI : Z80Subtarget) (b : nat) (id : InstrId)
  (MI : MachineInstr) (L : ValLoc) (st : PassState)
  : res (ValLoc * PassState) :=
  match getOpcode MI with
  | COPY => combineCopy STI b id MI L st
  | PUSH16r => combinePush STI false id MI L st
  | PUSH24r => combinePush STI true id MI L st
  | LD8rp | LD8gp =>
      m <- matchesPtr L MI 1 ;;
      L1 <- (if m : bool then setRegMI L MI 0 else Ok L) ;;
      Ok (L1, st)
  | LD8ro | LD8go =>
      m <- matchesOff L MI 1 ;;
      L1 <- (if m : bool then setRegMI L MI 0 else Ok L) ;;
      Ok (L1, st)
  | LD8pr | LD8pg =>
      m <- matchesRegMI L MI 1 ;;
      L1 <- (if m : bool then setPtr L MI 0 else Ok L) ;;
      Ok (L1, st)
  | LD8or | LD8og =>
      m <- matchesRegMI L MI 2 ;;
      L1 <- (if m : bool then setOff L MI 0 else Ok L) ;;
      Ok (L1, st)
  | OR8ar =>
      R <- getOperandReg MI 0 ;;
      if (R =? Z80_A STI) && matchesReg L R
      then Ok (L, withFn st (eraseFromParent (Fn st) id))
      else Ok (setReg L (Z80_A STI), st)
  | ADD8ar | ADD8ai | ADC8ar | ADC8ai | SUB8ar | SUB8ai | SBC8ar | SBC8ai
  | AND8ar | AND8ai | XOR8ar | XOR8ai | OR8ai =>
      Ok (setReg L (Z80_A STI), st)
  | RLC8r | RRC8r | RL8r | RR8r | SLA8r | SRA8r | SRL8r | INC8r | DEC8r =>
      L1 <- setRegMI L MI 0 ;; Ok (L1, st)
  | ADD8ap | ADC8ap | SUB8ap | SBC8ap | AND8ap | XOR8ap | OR8ap
  | RLC8p | RRC8p | RL8p | RR8p | SLA8p | SRA8p | SRL8p | INC8p | DEC8p =>
      L1 <- setPtr L MI 0 ;; Ok (L1, st)
  | ADD8ao | ADC8ao | SUB8ao | SBC8ao | AND8ao | XOR8ao | OR8ao
  | RLC8o | RRC8o | RL8o | RR8o | SLA8o | SRA8o | SRL8o | INC8o | DEC8o =>
      L1 <- setOff L MI 0 ;; Ok (L1, st)
  | _ =>
      if modifiesRegister STI MI (Z80_F STI)
      then Ok (clear L, st)
      else Ok (L, st)
  end.

(** One iteration of the [while] loop after [++I]: the switch, then
    [clobberDefs(MI, TRI)] through the same reference [MI]. *)
Definition processInstr (STI : Z80Subtarget) (b : nat) (id : InstrId)
  (L : ValLoc) (st : PassState) : res (ValLoc * PassState) :=
  MI <- getInstr (Fn st) id ;;
  r <- combine STI b id MI L st ;;
  let (L1, st1) := r : ValLoc * PassState in
  MI' <- getInstr (Fn st1) id ;;
  L2 <- clobberDefs STI L1 MI' ;;
  Ok (L2, if isErased (Fn st1) id
          then mkPS (Fn st1) (Changed st1) (id :: StaleReads st1)
          else st1).

(** The instruction the iterator reaches next: the first one of the
    remaining instructions that is still linked. *)
Definition nextLinked (MF : MachineFunction) (rest : list InstrId)
  : option InstrId :=
  head (filter (fun j => isErased MF j = false) rest).

(** The walk of one block.  [pending] is the block from the current
    position on, as it was when the walk of the block started: an
    instruction unlinked meanwhile is no longer reached, and instructions
    are only inserted behind the iterator. *)
Fixpoint walkBlock (STI : Z80Subtarget) (b : nat) (pending : list InstrId)
  (L : ValLoc) (st : PassState) : res PassState :=
  match pending with
  | [] => Ok st
  | id :: rest =>
      if isErased (Fn st) id then walkBlock STI b rest L st
      else
        let I := nextLinked (Fn st) rest in
        r <- processInstr STI b id L st ;;
        let (L', st') := r : ValLoc * PassState in
        match I with
        | Some j =>
            if isErased (Fn st') j then Err DanglingIterator
            else walkBlock STI b rest L' st'
        | None => walkBlock STI b rest L' st'
        end
  end.

Fixpoint walkBlocks (STI : Z80Subtarget) (b n : nat) (st : PassState)
  : res PassState :=
  match n with
  | O => Ok st
  | S n' =>
      st' <- walkBlock STI b (default [] (Blocks (Fn st) !! b)) ValLoc_init st ;;
      walkBlocks STI (S b) n' st'
  end.

Definition runOnMachineFunction (STI : Z80Subtarget) (MF : MachineFunction)
  : res PassState :=
  walkBlocks STI 0 (length (Blocks MF)) (mkPS MF false []).

(** ** A sample subtarget and sample blocks

    A synthetic target description for running the pass on concrete
    blocks: [A], [F] and their pair [AF], the two stack-pointer
    registers, [HL] and its low half [L].  A register overlaps itself,
    [AF] overlaps [A] and [F], and [HL] overlaps [L]. *)

Definition rA : Register := 1.
Definition rF : Register := 2.
Definition rAF : Register := 3.
Definition rSPS : Register := 4.
Definition rSPL : Register := 5.
Definition rHL : Register := 6.
Definition rL : Register := 7.

Definition sampleAlias (a b : Register) : bool :=
  ((a =? rAF) && ((b =? rA) || (b =? rF))) ||
  ((a =? rHL) && (b =? rL)).

Definition sampleOverlap (a b : Register) : bool :=
  (a =? b) || sampleAlias a b || sampleAlias b a.

Definition sampleNumDefs (o : Opcode) : nat :=
  match o with
  | COPY | LEA16ro | LEA24ro
  | LD8rp | LD8gp | LD8ro | LD8go
  | RLC8r | RRC8r | RL8r | RR8r | SLA8r | SRA8r | SRL8r | INC8r | DEC8r => 1
  | _ => 0
  end.

Definition sampleSTI (ez80 : bool) : Z80Subtarget :=
  mkSTI ez80 sampleOverlap (fun o => mkDesc o (sampleNumDefs o))
        rA rF rSPS rSPL.

Definition v (n : nat) : Register := index2VirtReg n.

Definition use (R : Register) : MachineOperand := MO_Register R false false.
Definition def (R : Register) : MachineOperand := MO_Register R true false.
Definition impUse (R : Register) : MachineOperand := MO_Register R false true.
Definition impDef (R : Register) : MachineOperand := MO_Register R true true.

Definition mk (o : Opcode) (ops : list MachineOperand) (dl : nat) : MachineInstr :=
  mkMI (mkDesc o (sampleNumDefs o)) ops dl.

(** [A := A + r] and [A := A | A], with their implicit operands. *)
Definition iADD8ar (R : Register) : MachineInstr :=
  mk ADD8ar [use R; impDef rA; impDef rF; impUse rA] 10.
Definition iOR8ar (R : Register) : MachineInstr :=
  mk OR8ar [use R; impDef rA; impDef rF; impUse rA] 11.
Definition iCOPY (D S : Register) : MachineInstr :=
  mk COPY [def D; use S] 12.
Definition iINC8r (D S : Register) : MachineInstr :=
  mk INC8r [def D; use S; impDef rF] 13.
Definition iLEA24ro (D : Register) (B : MachineOperand) (O : Z) : MachineInstr :=
  mk LEA24ro [def D; B; MO_Immediate O] 14.
Definition iPUSH24r (R : Register) : MachineInstr :=
  mk PUSH24r [use R; impDef rSPL; impUse rSPL] 15.

(** A function whose blocks hold the given instructions, in order. *)
Fixpoint numberBlocks (next : nat) (bs : list (list MachineInstr))
  : list (list InstrId) :=
  match bs with
  | [] => []
  | blk :: rest =>
      seq next (length blk) :: numberBlocks (next + length blk) rest
  end.

Definition mkFunction (bs : list (list MachineInstr)) (nv : nat)
  : MachineFunction :=
  mkMF (numberBlocks 0 bs) (concat bs) [] (replicate nv OtherRegClass).

(** The instructions of each block of a function, in order. *)
Definition blockInstrs (MF : MachineFunction) : list (list MachineInstr) :=
  (fun blk : list InstrId => omap (fun id => Instrs MF !! id) blk)
    <$> Blocks MF.

(** Sample functions. *)

(** One block: [A := A + %0; A := A | A]. *)
Definition fnAddOr : MachineFunction :=
  mkFunction [[iADD8ar (v 0); iOR8ar rA]] 1.

(** One block holding only [A := A | A]. *)
Definition fnOr : MachineFunction := mkFunction [[iOR8ar rA]] 0.

Definition startState (MF : MachineFunction) : PassState := mkPS MF false [].

(** One block: an addition, a copy into [AF], a self-OR. *)
Definition fnAddCopyOr : MachineFunction :=
  mkFunction [[iADD8ar (v 0); iCOPY rAF (v 1); iOR8ar rA]] 2.

(** A load of the accumulator from an absolute address: the accumulator
    is an implicit definition, the flags are not written. *)
Definition iLoadAcc (addr : Z) : MachineInstr :=
  mk (OtherOpcode 0) [MO_Immediate addr; impDef rA] 16.

Definition fnAddLoadOr : MachineFunction :=
  mkFunction [[iADD8ar (v 0); iLoadAcc 4096; iOR8ar rA]] 1.

Definition runBlocks (STI : Z80Subtarget) (MF : MachineFunction)
  : option (list (list MachineInstr)) :=
  match runOnMachineFunction STI MF with
  | Ok st => Some (blockInstrs (Fn st))
  | Err _ => None
  end.

(** One block: an addition, then a copy of the accumulator into [%1]. *)
Definition fnAddCopyA : MachineFunction :=
  mkFunction [[iADD8ar (v 0); iCOPY (v 1) rA]] 2.

(** One block: [%1 := %0 + 1]. *)
Definition fnInc : MachineFunction := mkFunction [[iINC8r (v 1) (v 0)]] 2.

Definition runChanged (STI : Z80Subtarget) (MF : MachineFunction)
  : option bool :=
  match runOnMachineFunction STI MF with
  | Ok st => Some (Changed st)
  | Err _ => None
  end.

Definition runStaleReads (STI : Z80Subtarget) (MF : MachineFunction)
  : option (list InstrId * list InstrId) :=
  match runOnMachineFunction STI MF with
  | Ok st => Some (StaleReads st, Erased (Fn st))
  | Err _ => None
  end.

(** One block: a copy of [%0] into the 24-bit stack pointer. *)
Definition fnCopySPL : MachineFunction := mkFunction [[iCOPY rSPL (v 0)]] 1.

(** Two blocks: [%1 := lea %0, 0] in the first, [push %1] in the second. *)
Definition fnLeaPush : MachineFunction :=
  mkFunction [[iLEA24ro (v 1) (use (v 0)) 0]; [iPUSH24r (v 1)]] 2.

(** One block: [%1 := lea %0, 5; push %1]. *)
Definition fnLeaPush5 : MachineFunction :=
  mkFunction [[iLEA24ro (v 1) (use (v 0)) 5; iPUSH24r (v 1)]] 2.

(** Measures and invariants of the walk. *)

(** The mutations that leave a trace in the function: registers
    allocated and instructions erased. *)
Definition mutations (MF : MachineFunction) : nat :=
  (length (VRegs MF) + length (Erased MF))%nat.

(** The instruction store and the block lists agree: a linked id is
    stored and not erased, an erased id is stored, and no id is linked
    twice. *)
Definition wellFormed (MF : MachineFunction) : Prop :=
  (forall id, id ∈ concat (Blocks MF) ->
              (id < length (Instrs MF))%nat /\ id ∉ Erased MF) /\
  (forall id, id ∈ Erased MF -> (id < length (Instrs MF))%nat) /\
  NoDup (concat (Blocks MF)).

(** The opcodes whose rule can change the function. *)
Definition rewritable (o : Opcode) : bool :=
  match o with
  | COPY | PUSH16r | PUSH24r | OR8ar => true
  | _ => false
  end.

(** The opcodes that reach the [default] label of the switch. *)
Definition defaultCase (o : Opcode) : bool :=
  match o with
  | LEA16ro | LEA24ro | PEA16o | PEA24o | LD16sa | LD24sa | OtherOpcode _ => true
  | _ => false
  end.

(** An instruction the pass only looks at: it reaches the [default]
    label and its explicit definitions are register operands. *)
Definition inert (MI : MachineInstr) : Prop :=
  defaultCase (getOpcode MI) = true /\
  (NumDefs (Desc MI) <= length (Operands MI))%nat /\
  Forall (fun D => isReg D = true) (take (NumDefs (Desc MI)) (Operands MI)).

(** One block of instructions outside the switch: a jump-like
    instruction and an instruction writing [HL] and the flags. *)
Definition fnInert : MachineFunction :=
  mkFunction [[mk (OtherOpcode 1) [MO_Immediate 7] 20;
               mk (OtherOpcode 2) [use rHL; impDef rHL; impDef rF] 21]] 0.

(** Whether the definition [D] hits the register or the base of [L]. *)
Definition hits (STI : Z80Subtarget) (L : ValLoc) (D : MachineOperand) : bool :=
  match D with
  | MO_Register R _ _ =>
      (isValid (Reg L) && regsOverlap STI R (Reg L)) ||
      (isValid (Base L) && regsOverlap STI R (Base L))
  | _ => false
  end.

(** The rotate, shift, increment and decrement of a register. *)
Definition unaryRegForm (o : Opcode) : bool :=
  match o with
  | RLC8r | RRC8r | RL8r | RR8r | SLA8r | SRA8r | SRL8r | INC8r | DEC8r => true
  | _ => false
  end.

(** The flag-producing operations through a plain pointer. *)
Definition pointerForm (o : Opcode) : bool :=
  match o with
  | ADD8ap | ADC8ap | SUB8ap | SBC8ap | AND8ap | XOR8ap | OR8ap
  | RLC8p | RRC8p | RL8p | RR8p | SLA8p | SRA8p | SRL8p | INC8p | DEC8p => true
  | _ => false
  end.

(** [INC (HL)] with its implicit flags definition. *)
Definition iINC8p (P : Register) : MachineInstr :=
  mk INC8p [use P; impDef rF] 17.

(** One block: an addition, an increment through [HL], a self-OR. *)
Definition fnAddIncpOr : MachineFunction :=
  mkFunction [[iADD8ar (v 0); iINC8p rHL; iOR8ar rA]] 1.

(** The opcodes of the instructions the pass erases. *)
Definition erasable (o : Opcode) : bool :=
  match o with
  | OR8ar | LEA16ro | LEA24ro => true
  | _ => false
  end.

(** A [COPY] whose destination is one of the two stack pointers. *)
Definition needsLegal (STI : Z80Subtarget) (MI : MachineInstr) : bool :=
  match getOpcode MI with
  | COPY =>
      match Operands MI !! 0%nat with
      | Some (MO_Register R _ _) => (R =? Z80_SPS STI) || (R =? Z80_SPL STI)
      | _ => false
      end
  | _ => false
  end.

(** The ids linked into the blocks from block [b] on. *)
Definition later (MF : MachineFunction) (b : nat) : list InstrId :=
  concat (drop b (Blocks MF)).

(** Two blocks: a copy into [SPL] and a push fed by a
    load-effective-address in the first, a copy into [SPS] in the
    second. *)
Definition fnTwoCopies : MachineFunction :=
  mkFunction [[iCOPY rSPL (v 0); iLEA24ro (v 1) (use (v 0)) 5; iPUSH24r (v 1)];
              [iCOPY rSPS (v 2)]] 3.

(** The stored instruction [id], if any, is not a copy into a stack
    pointer. *)
Definition legalAt (STI : Z80Subtarget) (MF : MachineFunction) (id : InstrId)
  : Prop :=
  forall MI, getInstr MF id = Ok MI -> needsLegal STI MI = false.

(** The descriptor table answers each opcode with a descriptor of that
    opcode. *)
Definition coherent (STI : Z80Subtarget) : Prop :=
  forall o, DescOpcode (TII_get STI o) = o.

(** The state of the walk of block [b]: the function is well formed,
    and every linked instruction is legal, or still to be visited in
    this block, or linked into a later block. *)
Definition walkInv (STI : Z80Subtarget) (b : nat) (pending : list InstrId)
  (st : PassState) : Prop :=
  wellFormed (Fn st) /\
  forall j, j ∈ concat (Blocks (Fn st)) ->
            legalAt STI (Fn st) j \/ j ∈ pending \/ j ∈ later (Fn st) (S b).

(** The stores of a register through a plain pointer, and the loads of
    a register through a plain pointer. *)
Definition storePtrForm (o : Opcode) : bool :=
  match o with LD8pr | LD8pg => true | _ => false end.

Definition loadPtrForm (o : Opcode) : bool :=
  match o with LD8rp | LD8gp => true | _ => false end.

Definition iLD8pr (P S : Register) : MachineInstr := mk LD8pr [use P; use S] 18.
Definition iLD8rp (D P : Register) : MachineInstr := mk LD8rp [def D; use P] 19.

(** One block: an addition, a store of the accumulator through [HL], a
    load of [%1] through [HL]. *)
Definition fnAddStoreLoad : MachineFunction :=
  mkFunction [[iADD8ar (v 0); iLD8pr rHL rA; iLD8rp (v 1) rHL]] 2.

(** Accumulator arithmetic with a register or immediate operand: the
    cases that share [SZFlagLoc.setReg(Z80::A)] with [OR8ar]. *)
Definition accArith (o : Opcode) : bool :=
  match o with
  | ADD8ar | ADD8ai | ADC8ar | ADC8ai | SUB8ar | SUB8ai | SBC8ar | SBC8ai
  | AND8ar | AND8ai | XOR8ar | XOR8ai | OR8ai => true
  | _ => false
  end.

(** The instructions whose rule can put the tracker on the accumulator:
    the accumulator operations, and the rules that set the tracker to
    operand 0 when operand 0 is the accumulator. *)
Definition setsTrackerToA (STI : Z80Subtarget) (MI : MachineInstr) : bool :=
  match getOpcode MI with
  | OR8ar
  | ADD8ar | ADD8ai | ADC8ar | ADC8ai | SUB8ar | SUB8ai | SBC8ar | SBC8ai
  | AND8ar | AND8ai | XOR8ar | XOR8ai | OR8ai => true
  | COPY | LD8rp | LD8gp | LD8ro | LD8go
  | RLC8r | RRC8r | RL8r | RR8r | SLA8r | SRA8r | SRL8r | INC8r | DEC8r =>
      match Operands MI !! 0%nat with
      | Some (MO_Register R _ _) => R =? Z80_A STI
      | _ => false
      end
  | _ => false
  end.

(** Blocks from index [k] on are the blocks of [MF] without the
    instructions erased so far. *)
Definition filtered (MF : MachineFunction) (k : nat) (st : PassState) : Prop :=
  forall c, (k <= c)%nat ->
    Blocks (Fn st) !! c
    = (filter (fun j => j ∉ Erased (Fn st)) <$> (Blocks MF !! c)).

Definition isLEAin (MF : MachineFunction) (j : InstrId) : Prop :=
  exists MIj, getInstr MF j = Ok MIj /\
              (getOpcode MIj = LEA16ro \/ getOpcode MIj = LEA24ro).

(** The instructions of [G] have not been visited yet: they are stored
    as in [MF], only a load-effective-address among them can have been
    erased, and the ones not erased are linked where they were. *)
Definition guarded (MF : MachineFunction) (k : nat) (G : list InstrId)
  (st : PassState) : Prop :=
  (length (Instrs MF) <= length (Instrs (Fn st)))%nat /\
  filtered MF k st /\
  (forall j, j ∈ G -> getInstr (Fn st) j = getInstr MF j) /\
  (forall j, j ∈ G -> j ∈ Erased (Fn st) -> isLEAin MF j) /\
  (forall j c, j ∈ G -> j ∈ default [] (Blocks MF !! c) ->
               j ∉ Erased (Fn st) -> j ∈ default [] (Blocks (Fn st) !! c)).

(** The instruction [x] has been erased and is linked nowhere. *)
Definition unlinked (x : InstrId) (st : PassState) : Prop :=
  (x ∉ concat (Blocks (Fn st))) /\
  (x < length (Instrs (Fn st)))%nat /\
  (x ∈ Erased (Fn st)).

(** Two blocks: an addition in the first, a self-OR alone in the
    second. *)
Definition fnAddThenOr : MachineFunction :=
  mkFunction [[iADD8ar (v 0)]; [iOR8ar rA]] 1.

(** * Properties *)

(** ** Small facts about the error monad and the accessors *)

Lemma bind_Ok_inv {A B} (m : res A) (k : A -> res B) (r : B) :
  bind m k = Ok r -> exists a, m = Ok a /\ k a = Ok r.
Proof. destruct m as [a|f]; simpl; [eauto | discriminate]. Qed.

Lemma getOperand_lookup (MI : MachineInstr) (n : nat) (MO : MachineOperand) :
  Operands MI !! n = Some MO -> getOperand MI n = Ok MO.
Proof. unfold getOperand. intros ->. reflexivity. Qed.

Lemma getOperandReg_lookup (MI : MachineInstr) (n : nat) R d i :
  Operands MI !! n = Some (MO_Register R d i) -> getOperandReg MI n = Ok R.
Proof.
  intros H. unfold getOperandReg. rewrite (getOperand_lookup _ _ _ H).
  reflexivity.
Qed.

Lemma isValid_true (R : Register) : isValid R = true <-> R <> 0.
Proof.
  unfold isValid, NoRegister. rewrite negb_true_iff, Z.eqb_neq. tauto.
Qed.

Lemma matchesReg_init (R : Register) : matchesReg ValLoc_init R = false.
Proof.
  unfold matchesReg, isValid, ValLoc_init, NoRegister. cbn [Reg].
  destruct (Z.eqb_spec R 0), (Z.eqb_spec 0 R); simpl; congruence.
Qed.

Lemma matchesMem_invalid_base (L : ValLoc) (B : Register) (O : Z) :
  Base L = NoRegister -> matchesMem L B O = false.
Proof.
  intros HB. unfold matchesMem, isValid. rewrite HB.
  destruct (Z.eqb_spec B NoRegister), (Z.eqb_spec NoRegister B); simpl;
    congruence.
Qed.

(** ** The tracker *)

(** C4 (as the code has it): the tracker keeps a register fact and a
    memory fact side by side.  [setReg] replaces the register fact and
    leaves the memory fact as it was; [setMem] replaces the memory fact
    (base and 8-bit offset) and leaves the register fact as it was.  Only
    on a tracker holding nothing does [setMem] give a tracker matching no
    register and [setReg] one matching no memory location. *)
Theorem ValLoc_set_independent :
  forall (L : ValLoc) (R B : Register) (O : Z) (R' B' : Register) (O' : Z),
    matchesReg (setReg L R) R' = isValid R' && (R =? R') /\
    matchesMem (setReg L R) B' O' = matchesMem L B' O' /\
    matchesMem (setMem L B O) B' O'
      = isValid B' && (B =? B') && (to_int8 O =? to_int8 O') /\
    matchesReg (setMem L B O) R' = matchesReg L R' /\
    matchesReg (setMem ValLoc_init B O) R' = false /\
    matchesMem (setReg ValLoc_init R) B' O' = false.
Proof.
  intros. repeat split; try reflexivity.
  - apply matchesReg_init.
  - apply matchesMem_invalid_base. reflexivity.
Qed.

(** C4, refuted as stated: a tracker set to the accumulator and then to
    a memory location still matches the accumulator, and a tracker set
    to a memory location and then to a register still matches the memory
    location. *)
Lemma ValLoc_not_tristate :
  matchesReg (setMem (setReg ValLoc_init rA) rHL 0) rA = true /\
  matchesMem (setReg (setMem ValLoc_init rHL 0) rA) rHL 0 = true.
Proof. split; reflexivity. Qed.

Lemma index2StackSlot_valid (FI : Z) :
  0 <= FI < 2 ^ 31 -> isValid (index2StackSlot FI) = true.
Proof.
  intros H. apply isValid_true. unfold index2StackSlot, FirstStackSlot.
  rewrite Z.mod_small; lia.
Qed.

Lemma matchesMem_setMem_same (L : ValLoc) (B : Register) (O : Z) :
  isValid B = true -> matchesMem (setMem L B O) B O = true.
Proof.
  intros HB. unfold matchesMem, setMem. cbn [Base Off].
  rewrite HB, !Z.eqb_refl. reflexivity.
Qed.

(** C10: in an offset-form memory operand whose base is a frame index, a
    non-negative index is mapped to its stack-slot register id, which is
    valid, so a tracker set through such an operand matches every access
    through the same frame index with the same offset; a negative index
    gives the invalid register, so [matchesOff] on such an operand is
    false for every tracker, and a tracker set through it matches no
    memory location at all. *)
Theorem frame_index_base :
  forall (MI : MachineInstr) (OpNo : nat) (FI O : Z),
    Operands MI !! OpNo = Some (MO_FrameIndex FI) ->
    Operands MI !! (OpNo + 1)%nat = Some (MO_Immediate O) ->
    - 2 ^ 31 <= FI < 2 ^ 31 ->
    (0 <= FI ->
       getBaseReg MI OpNo = Ok (index2StackSlot FI) /\
       isValid (index2StackSlot FI) = true /\
       forall (L : ValLoc) (MI' : MachineInstr) (OpNo' : nat),
         Operands MI' !! OpNo' = Some (MO_FrameIndex FI) ->
         Operands MI' !! (OpNo' + 1)%nat = Some (MO_Immediate O) ->
         exists L1, setOff L MI OpNo = Ok L1 /\
                    matchesOff L1 MI' OpNo' = Ok true) /\
    (FI < 0 ->
       getBaseReg MI OpNo = Ok NoRegister /\
       forall L : ValLoc,
         matchesOff L MI OpNo = Ok false /\
         exists L1, setOff L MI OpNo = Ok L1 /\
                    forall (B : Register) (O' : Z), matchesMem L1 B O' = false).
Proof.
  intros MI OpNo FI O Hb Ho Hr.
  assert (Hbase : getBaseReg MI OpNo =
                  if 0 <=? FI then Ok (index2StackSlot FI) else Ok NoRegister).
  { unfold getBaseReg. rewrite (getOperand_lookup _ _ _ Hb). reflexivity. }
  split; intros Hs.
  - assert (Hle : (0 <=? FI) = true) by (apply Z.leb_le; lia).
    rewrite Hle in Hbase.
    assert (Hv : isValid (index2StackSlot FI) = true)
      by (apply index2StackSlot_valid; lia).
    repeat split; try assumption.
    intros L MI' OpNo' Hb' Ho'.
    exists (setMem L (index2StackSlot FI) O). split.
    + unfold setOff. rewrite Hbase. simpl.
      rewrite (getOperand_lookup _ _ _ Ho). reflexivity.
    + unfold matchesOff, getBaseReg.
      rewrite (getOperand_lookup _ _ _ Hb'). simpl. rewrite Hle. simpl.
      rewrite (getOperand_lookup _ _ _ Ho'). simpl.
      rewrite matchesMem_setMem_same by assumption. reflexivity.
  - assert (Hle : (0 <=? FI) = false) by (apply Z.leb_gt; lia).
    rewrite Hle in Hbase. split; [assumption|].
    intros L. split.
    + unfold matchesOff. rewrite Hbase. simpl.
      rewrite (getOperand_lookup _ _ _ Ho). reflexivity.
    + exists (setMem L NoRegister O). split.
      * unfold setOff. rewrite Hbase. simpl.
        rewrite (getOperand_lookup _ _ _ Ho). reflexivity.
      * intros B O'. apply matchesMem_invalid_base. reflexivity.
Qed.

(** The theorem at a load through frame index 3 with offset 5. *)
Lemma frame_index_base_witness :
  let MI := mk LD8ro [def (v 0); MO_FrameIndex 3; MO_Immediate 5] 0 in
  getBaseReg MI 1 = Ok (index2StackSlot 3) /\
  isValid (index2StackSlot 3) = true.
Proof.
  intros MI.
  destruct (frame_index_base MI 1 3 5) as [Hpos _];
    [reflexivity | reflexivity | lia |].
  destruct Hpos as (H1 & H2 & _); [lia|].
  split; assumption.
Defined.

(** ** The def-clobber check *)

Lemma clobberLoop_cases (STI : Z80Subtarget) (Ds : list MachineOperand)
  (L L' : ValLoc) :
  clobberLoop STI Ds L = Ok L' -> L' = L \/ L' = ValLoc_init.
Proof.
  induction Ds as [|D Ds IH]; simpl; intros H.
  - left. congruence.
  - apply bind_Ok_inv in H as (hit & _ & H).
    destruct hit; [right; unfold clear in H; congruence | auto].
Qed.

Lemma clobberLoop_unset (STI : Z80Subtarget) (Ds : list MachineOperand) :
  clobberLoop STI Ds ValLoc_init = Ok ValLoc_init.
Proof. induction Ds as [|D Ds IH]; simpl; [reflexivity | exact IH]. Qed.

(** A definition overlapping the tracked register or the tracked base
    makes the loop clear the tracker, whenever the loop returns. *)
Lemma clobberLoop_hit (STI : Z80Subtarget) (Ds : list MachineOperand)
  (L L' : ValLoc) (R : Register) (d i : bool) :
  MO_Register R d i ∈ Ds ->
  (isValid (Reg L) = true /\ regsOverlap STI R (Reg L) = true) \/
  (isValid (Base L) = true /\ regsOverlap STI R (Base L) = true) ->
  clobberLoop STI Ds L = Ok L' ->
  L' = ValLoc_init.
Proof.
  intros Hin Hov. induction Ds as [|D Ds IH]; simpl; intros H.
  - inversion Hin.
  - apply bind_Ok_inv in H as (hit & Hhit & H).
    destruct hit; [unfold clear in H; congruence|].
    apply elem_of_cons in Hin as [<-|Hin]; [|auto].
    exfalso. simpl in Hhit.
    destruct Hov as [[Hv Ho]|[Hv Ho]].
    + rewrite Hv in Hhit. simpl in Hhit. rewrite Ho in Hhit. discriminate.
    + rewrite Hv, Ho in Hhit.
      destruct (isValid (Reg L)); simpl in Hhit;
        [destruct (regsOverlap STI R (Reg L))|]; discriminate.
Qed.

(** With register operands as definitions the loop always returns. *)
Lemma clobberLoop_total (STI : Z80Subtarget) (Ds : list MachineOperand)
  (L : ValLoc) :
  Forall (fun D => isReg D = true) Ds ->
  exists L', clobberLoop STI Ds L = Ok L'.
Proof.
  induction 1 as [|D Ds HD _ IH]; simpl; [eauto|].
  destruct D as [R d i| |]; try discriminate. simpl.
  destruct (isValid (Reg L)); simpl;
    [destruct (regsOverlap STI R (Reg L)); simpl; [eauto|]|];
    (destruct (isValid (Base L)); simpl;
     [destruct (regsOverlap STI R (Base L)); simpl; eauto | eauto]).
Qed.

Lemma defs_no_explicit (MI : MachineInstr) :
  NumDefs (Desc MI) = 0%nat -> defs MI = Ok [].
Proof. unfold defs. intros ->. reflexivity. Qed.

Lemma clobberDefs_no_explicit (STI : Z80Subtarget) (L : ValLoc)
  (MI : MachineInstr) :
  NumDefs (Desc MI) = 0%nat -> clobberDefs STI L MI = Ok L.
Proof.
  intros H. unfold clobberDefs. rewrite (defs_no_explicit _ H). reflexivity.
Qed.

(** ** Erasing *)

Lemma eraseFromParent_unlinks (MF : MachineFunction) (id : InstrId)
  (blk : list InstrId) :
  blk ∈ Blocks (eraseFromParent MF id) -> id ∉ blk.
Proof.
  simpl. intros Hin Hid.
  apply list_elem_of_fmap in Hin as (blk0 & -> & _).
  apply list_elem_of_filter in Hid as [Hne _]. congruence.
Qed.

Lemma isErased_eraseFromParent (MF : MachineFunction) (id : InstrId) :
  isErased (eraseFromParent MF id) id = true.
Proof. unfold isErased. simpl. apply bool_decide_eq_true. left. Qed.

Lemma getInstr_eraseFromParent (MF : MachineFunction) (id j : InstrId) :
  getInstr (eraseFromParent MF id) j = getInstr MF j.
Proof. reflexivity. Qed.

(** ** Self-OR elimination *)

(** One loop iteration on a self-OR of the accumulator. *)
Lemma processInstr_self_or
  (STI : Z80Subtarget) (b : nat) (id : InstrId) (L : ValLoc)
  (st : PassState) (MI : MachineInstr) (d i : bool) :
    getInstr (Fn st) id = Ok MI ->
    isErased (Fn st) id = false ->
    getOpcode MI = OR8ar ->
    Operands MI !! 0%nat = Some (MO_Register (Z80_A STI) d i) ->
    NumDefs (Desc MI) = 0%nat ->
    (matchesReg L (Z80_A STI) = true ->
       processInstr STI b id L st
         = Ok (L, mkPS (eraseFromParent (Fn st) id) (Changed st)
                       (id :: StaleReads st)) /\
       forall blk, blk ∈ Blocks (eraseFromParent (Fn st) id) -> id ∉ blk) /\
    (matchesReg L (Z80_A STI) = false ->
       processInstr STI b id L st = Ok (setReg L (Z80_A STI), st)).
Proof.
  intros Hget Hlive Hopc Hop0 Hnd.
  assert (Hcomb : combine STI b id MI L st =
            if matchesReg L (Z80_A STI)
            then Ok (L, withFn st (eraseFromParent (Fn st) id))
            else Ok (setReg L (Z80_A STI), st)).
  { unfold combine. rewrite Hopc.
    rewrite (getOperandReg_lookup _ _ _ _ _ Hop0). simpl.
    rewrite Z.eqb_refl. reflexivity. }
  split; intros Hm; rewrite Hm in Hcomb.
  - split; [|apply eraseFromParent_unlinks].
    unfold processInstr. rewrite Hget. simpl. rewrite Hcomb. simpl.
    rewrite getInstr_eraseFromParent, Hget. simpl.
    rewrite (clobberDefs_no_explicit _ _ _ Hnd). simpl.
    rewrite isErased_eraseFromParent. reflexivity.
  - unfold processInstr. rewrite Hget. simpl. rewrite Hcomb. simpl.
    rewrite Hget. simpl.
    rewrite (clobberDefs_no_explicit _ _ _ Hnd). simpl.
    rewrite Hlive. destruct st; reflexivity.
Qed.

(** Accumulator arithmetic, here [ADD8ar], leaves the tracker on the
    accumulator, and every block is entered with an unset tracker, which
    does not match it. *)
Lemma processInstr_ADD8ar
  (STI : Z80Subtarget) (b : nat) (id : InstrId) (L : ValLoc)
  (st : PassState) (MI : MachineInstr) :
  getInstr (Fn st) id = Ok MI ->
  isErased (Fn st) id = false ->
  getOpcode MI = ADD8ar ->
  NumDefs (Desc MI) = 0%nat ->
  isValid (Z80_A STI) = true ->
  processInstr STI b id L st = Ok (setReg L (Z80_A STI), st) /\
  matchesReg (setReg L (Z80_A STI)) (Z80_A STI) = true /\
  matchesReg ValLoc_init (Z80_A STI) = false.
Proof.
  intros Hget Hlive Hopc Hnd Hv. split; [|split].
  - unfold processInstr. rewrite Hget. simpl.
    unfold combine. rewrite Hopc. simpl. rewrite Hget. simpl.
    rewrite (clobberDefs_no_explicit _ _ _ Hnd). simpl.
    rewrite Hlive. destruct st; reflexivity.
  - unfold matchesReg, setReg. cbn [Reg]. rewrite Hv, Z.eqb_refl. reflexivity.
  - apply matchesReg_init.
Qed.

(** The whole pass on the two sample blocks: after the addition the
    self-OR is gone; alone in its block it stays. *)
Example run_fnAddOr_blocks :
  (fun st => blockInstrs (Fn st)) <$>
    (match runOnMachineFunction (sampleSTI true) fnAddOr with
     | Ok st => Some st | Err _ => None end)
  = Some [[iADD8ar (v 0)]].
Proof. vm_compute. reflexivity. Qed.

Example run_fnOr_blocks :
  (fun st => blockInstrs (Fn st)) <$>
    (match runOnMachineFunction (sampleSTI true) fnOr with
     | Ok st => Some st | Err _ => None end)
  = Some [[iOR8ar rA]].
Proof. vm_compute. reflexivity. Qed.

(** ** Clobbering by definitions *)

(** Explicit definitions are examined.  The check after an
    instruction's rule walks the explicit definitions of the instruction,
    as the rule left it.  If one of them overlaps the tracked register or
    the tracked base, as the rule left them, the tracker is unset after
    the instruction, whichever rule ran.  Consequently, after an
    instruction with an explicit definition overlapping the accumulator
    the tracker does not match the accumulator, and a self-OR that
    follows is kept. *)
Theorem explicit_defs_clobber :
  forall (STI : Z80Subtarget) (b : nat) (id : InstrId) (L : ValLoc)
         (st : PassState) (MI : MachineInstr) (L1 : ValLoc) (st1 : PassState)
         (MI1 : MachineInstr) (Ds : list MachineOperand)
         (R : Register) (d i : bool),
    getInstr (Fn st) id = Ok MI ->
    combine STI b id MI L st = Ok (L1, st1) ->
    getInstr (Fn st1) id = Ok MI1 ->
    defs MI1 = Ok Ds ->
    Forall (fun D => isReg D = true) Ds ->
    MO_Register R d i ∈ Ds ->
    ((isValid (Reg L1) = true /\ regsOverlap STI R (Reg L1) = true) \/
     (isValid (Base L1) = true /\ regsOverlap STI R (Base L1) = true) ->
     exists st2, processInstr STI b id L st = Ok (ValLoc_init, st2)) /\
    (regsOverlap STI R (Z80_A STI) = true ->
     exists L2 st2,
       processInstr STI b id L st = Ok (L2, st2) /\
       matchesReg L2 (Z80_A STI) = false /\
       forall (b3 : nat) (id3 : InstrId) (MI3 : MachineInstr) (d3 i3 : bool),
         getInstr (Fn st2) id3 = Ok MI3 ->
         isErased (Fn st2) id3 = false ->
         getOpcode MI3 = OR8ar ->
         Operands MI3 !! 0%nat = Some (MO_Register (Z80_A STI) d3 i3) ->
         NumDefs (Desc MI3) = 0%nat ->
         processInstr STI b3 id3 L2 st2 = Ok (setReg L2 (Z80_A STI), st2)).
Proof.
  intros STI b id L st MI L1 st1 MI1 Ds R d i Hget Hcomb Hget1 Hdefs HF Hin.
  destruct (clobberLoop_total STI Ds L1 HF) as [L2 HL2].
  assert (Hrun : processInstr STI b id L st =
            Ok (L2, if isErased (Fn st1) id
                    then mkPS (Fn st1) (Changed st1) (id :: StaleReads st1)
                    else st1)).
  { unfold processInstr. rewrite Hget. simpl. rewrite Hcomb. simpl.
    rewrite Hget1. simpl. unfold clobberDefs. rewrite Hdefs. simpl.
    rewrite HL2. reflexivity. }
  split.
  - intros Hov. eexists. rewrite Hrun.
    rewrite (clobberLoop_hit STI Ds L1 L2 R d i Hin Hov HL2). reflexivity.
  - intros HovA. eexists L2, _. split; [exact Hrun|].
    assert (HnoA : matchesReg L2 (Z80_A STI) = false).
    { destruct (matchesReg L1 (Z80_A STI)) eqn:Hm.
      - unfold matchesReg in Hm. apply andb_true_iff in Hm as [Hv He].
        apply Z.eqb_eq in He.
        rewrite (clobberLoop_hit STI Ds L1 L2 R d i Hin) ;
          [apply matchesReg_init | | exact HL2].
        left. rewrite He. split; assumption.
      - destruct (clobberLoop_cases _ _ _ _ HL2) as [->| ->];
          [exact Hm | apply matchesReg_init]. }
    split; [exact HnoA|].
    intros b3 id3 MI3 d3 i3 Hg3 Hl3 Ho3 Hop3 Hn3.
    apply (processInstr_self_or STI b3 id3 L2 _ MI3 d3 i3); assumption.
Qed.

(** The theorem on the copy into [AF] of [fnAddCopyOr], met with the
    tracker on the accumulator. *)
Lemma explicit_defs_clobber_witness :
  exists st2,
    processInstr (sampleSTI true) 0%nat 1%nat (setReg ValLoc_init rA)
                 (startState fnAddCopyOr) = Ok (ValLoc_init, st2).
Proof.
  destruct (explicit_defs_clobber (sampleSTI true) 0%nat 1%nat
              (setReg ValLoc_init rA) (startState fnAddCopyOr)
              (iCOPY rAF (v 1)) (setReg ValLoc_init rA)
              (startState fnAddCopyOr) (iCOPY rAF (v 1)) [def rAF]
              rAF true false) as [H _].
  - reflexivity.
  - reflexivity.
  - reflexivity.
  - reflexivity.
  - repeat constructor.
  - apply elem_of_cons. left. reflexivity.
  - apply H. left. split; reflexivity.
Defined.

(** An instruction that reaches the [default] label, does not write the
    flags and has no explicit definition leaves the tracker as it is,
    whatever it defines implicitly. *)
Lemma default_case_keeps_tracker
  (STI : Z80Subtarget) (b : nat) (id : InstrId) (L : ValLoc)
  (st : PassState) (MI : MachineInstr) :
  getInstr (Fn st) id = Ok MI ->
  isErased (Fn st) id = false ->
  defaultCase (getOpcode MI) = true ->
  modifiesRegister STI MI (Z80_F STI) = false ->
  NumDefs (Desc MI) = 0%nat ->
  processInstr STI b id L st = Ok (L, st).
Proof.
  intros Hget Hlive Hdef HF Hnd.
  assert (Hc : combine STI b id MI L st = Ok (L, st)).
  { unfold combine. destruct (getOpcode MI); try discriminate;
      rewrite HF; reflexivity. }
  unfold processInstr. rewrite Hget. simpl. rewrite Hc. simpl.
  rewrite Hget. simpl. rewrite (clobberDefs_no_explicit _ _ _ Hnd). simpl.
  rewrite Hlive. destruct st; reflexivity.
Qed.

(** C3, on the code: in [fnAddLoadOr] the load defines the accumulator,
    which is the register the tracker holds and which overlaps itself,
    but defines it implicitly and leaves the flags alone.  The check
    walks the explicit definitions only, so the tracker still matches
    the accumulator after the load, and the self-OR behind it is
    eliminated. *)
Theorem implicit_def_keeps_tracker :
  impDef rA ∈ Operands (iLoadAcc 4096) /\
  defs (iLoadAcc 4096) = Ok [] /\
  modifiesRegister (sampleSTI true) (iLoadAcc 4096) rF = false /\
  regsOverlap (sampleSTI true) rA rA = true /\
  processInstr (sampleSTI true) 0%nat 1%nat (setReg ValLoc_init rA)
               (startState fnAddLoadOr)
    = Ok (setReg ValLoc_init rA, startState fnAddLoadOr) /\
  matchesReg (setReg ValLoc_init rA) rA = true /\
  blockInstrs fnAddLoadOr = [[iADD8ar (v 0); iLoadAcc 4096; iOR8ar rA]] /\
  runBlocks (sampleSTI true) fnAddLoadOr
    = Some [[iADD8ar (v 0); iLoadAcc 4096]].
Proof.
  split; [apply elem_of_cons; right; apply elem_of_cons; left; reflexivity|].
  repeat split; vm_compute; reflexivity.
Qed.

(** With an explicit definition of [AF] in between, the self-OR stays. *)
Example run_fnAddCopyOr :
  runBlocks (sampleSTI true) fnAddCopyOr
    = Some [[iADD8ar (v 0); iCOPY rAF (v 1); iOR8ar rA]].
Proof. vm_compute. reflexivity. Qed.

(** ** A rule's own destination and the def-clobber check *)

(** Whatever the target, a tracker holding the register that is the one
    explicit definition of an instruction is cleared by the check, as
    soon as the oracle lets a register overlap itself. *)
Lemma clobberDefs_own_destination (STI : Z80Subtarget) (L : ValLoc)
  (MI : MachineInstr) (R : Register) (d i : bool) (rest : list MachineOperand) :
  Operands MI = MO_Register R d i :: rest ->
  NumDefs (Desc MI) = 1%nat ->
  isValid R = true ->
  regsOverlap STI R R = true ->
  clobberDefs STI (setReg L R) MI = Ok ValLoc_init.
Proof.
  intros Hops Hnd Hv Ho. unfold clobberDefs, defs. rewrite Hops, Hnd.
  simpl. rewrite Hv. simpl. rewrite Ho. reflexivity.
Qed.

(** C2, on the code: the rule of the copy [%1 := A] moves the tracker
    from the accumulator to [%1], and the check that follows, finding
    [%1] among the definitions of the copy, clears it; the same happens
    to the increment [%1 := %0 + 1].  Only the accumulator set by an
    addition, an implicit definition, outlives the check. *)
Theorem own_destination_clobbered :
  combine (sampleSTI true) 0%nat 1%nat (iCOPY (v 1) rA)
          (setReg ValLoc_init rA) (startState fnAddCopyA)
    = Ok (setReg ValLoc_init (v 1), startState fnAddCopyA) /\
  processInstr (sampleSTI true) 0%nat 1%nat (setReg ValLoc_init rA)
               (startState fnAddCopyA)
    = Ok (ValLoc_init, startState fnAddCopyA) /\
  combine (sampleSTI true) 0%nat 0%nat (iINC8r (v 1) (v 0))
          ValLoc_init (startState fnInc)
    = Ok (setReg ValLoc_init (v 1), startState fnInc) /\
  processInstr (sampleSTI true) 0%nat 0%nat ValLoc_init (startState fnInc)
    = Ok (ValLoc_init, startState fnInc) /\
  processInstr (sampleSTI true) 0%nat 0%nat ValLoc_init (startState fnAddCopyA)
    = Ok (setReg ValLoc_init rA, startState fnAddCopyA).
Proof. repeat split; vm_compute; reflexivity. Qed.

(** ** The returned flag and reads after erasure *)

(** C5, on the code: on [fnAddOr] the pass removes the self-OR from the
    block and reports that nothing changed. *)
Theorem self_or_deletion_not_reported :
  blockInstrs fnAddOr = [[iADD8ar (v 0); iOR8ar rA]] /\
  runBlocks (sampleSTI true) fnAddOr = Some [[iADD8ar (v 0)]] /\
  runChanged (sampleSTI true) fnAddOr = Some false.
Proof. repeat split; vm_compute; reflexivity. Qed.

(** C8, on the code: on [fnAddOr] the self-OR (instruction 1) is erased
    by its rule, and the def-clobber check that ends the same loop
    iteration reads it afterwards. *)
Theorem erased_instruction_read :
  runStaleReads (sampleSTI true) fnAddOr = Some ([1%nat], [1%nat]).
Proof. vm_compute. reflexivity. Qed.

(** ** Copy legalization *)


Lemma getInstr_lt (MF : MachineFunction) (id : InstrId) (MI : MachineInstr) :
  getInstr MF id = Ok MI -> (id < length (Instrs MF))%nat.
Proof.
  unfold getInstr. destruct (Instrs MF !! id) eqn:H; [|discriminate].
  intros _. eapply lookup_lt_Some. exact H.
Qed.



Example run_fnCopySPL :
  runBlocks (sampleSTI true) fnCopySPL
    = Some [[mk COPY [def (v 1); use (v 0)] 12; mk LD24sa [use (v 1)] 12]].
Proof. vm_compute. reflexivity. Qed.

(** ** Push / effective-address fusion *)

Lemma addExplicit_all_implicit (Ops : list MachineOperand) (MO : MachineOperand) :
  forallb isImpReg Ops = true -> addExplicit Ops MO = MO :: Ops.
Proof. destruct Ops as [|Op rest]; simpl; [reflexivity|]. intros ->. reflexivity. Qed.

Lemma addOperand_explicit_pair (D : MCInstrDesc) (imps : list MachineOperand)
  (dl : nat) (BaseMO : MachineOperand) (NewOff : Z) :
  forallb isImpReg imps = true ->
  isImpReg BaseMO = false ->
  Operands (addOperand (addOperand (mkMI D imps dl) BaseMO)
                       (MO_Immediate NewOff))
  = BaseMO :: MO_Immediate NewOff :: imps.
Proof.
  intros Himps HB. unfold addOperand. simpl. rewrite HB.
  rewrite (addExplicit_all_implicit _ _ Himps). simpl. rewrite HB. simpl.
  rewrite (addExplicit_all_implicit _ _ Himps). reflexivity.
Qed.

(** C7: the rule of [PUSH16r] / [PUSH24r].  Nothing is rewritten when
    the target lacks the eZ80 opcodes, when the pushed register does not
    have exactly one use in the function, or when it has no definition
    or one that is not the load-effective-address of the same width.  In
    the remaining case the defining instruction is erased and the change
    recorded; the push of [lea(base, 0)] with a register base keeps its
    opcode and pushes the base register, and every other shape becomes
    the push-effective-address of the same width carrying the base
    operand and the offset of the erased instruction. *)
Theorem push_lea_fusion :
  forall (STI : Z80Subtarget) (IsPush24 : bool) (b : nat) (id : InstrId)
         (L : ValLoc) (st : PassState) (MI : MachineInstr)
         (SrcReg : Register) (d i : bool) (imps : list MachineOperand),
    getInstr (Fn st) id = Ok MI ->
    getOpcode MI = (if IsPush24 then PUSH24r else PUSH16r) ->
    Operands MI = MO_Register SrcReg d i :: imps ->
    (hasEZ80Ops STI = false \/
     hasOneUse (Fn st) SrcReg = false \/
     getVRegDef (Fn st) SrcReg = Ok None \/
     (exists sid SrcMI,
         getVRegDef (Fn st) SrcReg = Ok (Some sid) /\
         getInstr (Fn st) sid = Ok SrcMI /\
         getOpcode SrcMI <> (if IsPush24 then LEA24ro else LEA16ro)) ->
     combine STI b id MI L st = Ok (L, st)) /\
    (forall (sid : InstrId) (SrcMI : MachineInstr) (BaseMO : MachineOperand)
            (NewOff : Z),
        hasEZ80Ops STI = true ->
        hasOneUse (Fn st) SrcReg = true ->
        getVRegDef (Fn st) SrcReg = Ok (Some sid) ->
        getInstr (Fn st) sid = Ok SrcMI ->
        getOpcode SrcMI = (if IsPush24 then LEA24ro else LEA16ro) ->
        Operands SrcMI !! 1%nat = Some BaseMO ->
        Operands SrcMI !! 2%nat = Some (MO_Immediate NewOff) ->
        exists (MI' : MachineInstr) (st1 : PassState),
          combine STI b id MI L st = Ok (L, st1) /\
          st1 = markChanged st (eraseFromParent (setInstr (Fn st) id MI') sid) /\
          Changed st1 = true /\
          getInstr (Fn st1) id = Ok MI' /\
          isErased (Fn st1) sid = true /\
          (forall blk, blk ∈ Blocks (Fn st1) -> sid ∉ blk) /\
          (forall B bd bi,
              BaseMO = MO_Register B bd bi -> NewOff = 0 ->
              MI' = mkMI (Desc MI) (MO_Register B d i :: imps) (DebugLoc MI)) /\
          (isReg BaseMO = false \/ NewOff <> 0 ->
           Desc MI' = TII_get STI (if IsPush24 then PEA24o else PEA16o) /\
           DebugLoc MI' = DebugLoc MI /\
           Operands MI'
             = Operands (addOperand (addOperand (mkMI (Desc MI') imps 0) BaseMO)
                                    (MO_Immediate NewOff)) /\
           (forallb isImpReg imps = true -> isImpReg BaseMO = false ->
            Operands MI' = BaseMO :: MO_Immediate NewOff :: imps))).
Proof.
  intros STI IsPush24 b id L st MI SrcReg d i imps Hget Hopc Hops.
  assert (Hc : combine STI b id MI L st = combinePush STI IsPush24 id MI L st).
  { unfold combine. rewrite Hopc. destruct IsPush24; reflexivity. }
  assert (Hop0 : getOperandReg MI 0 = Ok SrcReg).
  { apply (getOperandReg_lookup _ _ _ d i). rewrite Hops. reflexivity. }
  pose proof (getInstr_lt _ _ _ Hget) as Hlt.
  rewrite Hc. unfold combinePush. split.
  - intros [H|[H|[H|(sid & SrcMI & Hd & Hg & Hne)]]].
    + rewrite H. reflexivity.
    + destruct (hasEZ80Ops STI); simpl; [|reflexivity].
      rewrite Hop0. simpl. rewrite H. reflexivity.
    + destruct (hasEZ80Ops STI); simpl; [|reflexivity].
      rewrite Hop0. simpl.
      destruct (hasOneUse (Fn st) SrcReg); simpl; [|reflexivity].
      rewrite H. reflexivity.
    + destruct (hasEZ80Ops STI); simpl; [|reflexivity].
      rewrite Hop0. simpl.
      destruct (hasOneUse (Fn st) SrcReg); simpl; [|reflexivity].
      rewrite Hd. simpl. rewrite Hg. simpl.
      rewrite bool_decide_eq_false_2 by assumption. reflexivity.
  - intros sid SrcMI BaseMO NewOff Hez Hone Hd Hg Hlea Hb Ho.
    rewrite Hez. simpl. rewrite Hop0. simpl. rewrite Hone. simpl.
    rewrite Hd. simpl. rewrite Hg. simpl.
    rewrite bool_decide_eq_true_2 by assumption. simpl.
    rewrite (getOperand_lookup _ _ _ Hb). simpl.
    rewrite (getOperand_lookup _ _ _ Ho). simpl.
    assert (Hlook : forall MI', getInstr
              (Fn (markChanged st
                     (eraseFromParent (setInstr (Fn st) id MI') sid))) id
              = Ok MI').
    { intros MI'. unfold getInstr. simpl.
      rewrite list_lookup_insert_eq by assumption. reflexivity. }
    destruct (negb (isReg BaseMO) || negb (NewOff =? 0)) eqn:Hshape.
    + unfold removeOperand. rewrite Hops. simpl.
      eexists. eexists. split; [reflexivity|].
      split; [reflexivity|]. split; [reflexivity|].
      split; [apply Hlook|]. split; [apply isErased_eraseFromParent|].
      split; [apply eraseFromParent_unlinks|]. split.
      * intros B bd bi -> ->. discriminate.
      * intros _. split; [reflexivity|]. split; [reflexivity|].
        split; [reflexivity|].
        intros Himps HB. apply addOperand_explicit_pair; assumption.
    + apply orb_false_iff in Hshape as [HisReg Hzero].
      apply negb_false_iff in HisReg. apply negb_false_iff in Hzero.
      apply Z.eqb_eq in Hzero. subst NewOff.
      destruct BaseMO as [B bd bi| |]; try discriminate. simpl.
      unfold setOperandReg, getOperand. rewrite Hops. simpl.
      eexists. eexists. split; [reflexivity|].
      split; [reflexivity|]. split; [reflexivity|].
      split; [apply Hlook|]. split; [apply isErased_eraseFromParent|].
      split; [apply eraseFromParent_unlinks|]. split.
      * intros B' bd' bi' [= <- <- <-] _. reflexivity.
      * intros [H|H]; [discriminate | congruence].
Qed.

(** The theorem on the push of [fnLeaPush], whose operand is defined by
    [lea %0, 0] in the other block. *)
Lemma push_lea_fusion_witness :
  exists (MI' : MachineInstr) (st1 : PassState),
    combine (sampleSTI true) 1%nat 1%nat (iPUSH24r (v 1)) ValLoc_init
            (startState fnLeaPush) = Ok (ValLoc_init, st1) /\
    getInstr (Fn st1) 1%nat = Ok MI' /\
    MI' = mk PUSH24r [use (v 0); impDef rSPL; impUse rSPL] 15.
Proof.
  destruct (push_lea_fusion (sampleSTI true) true 1%nat 1%nat ValLoc_init
              (startState fnLeaPush) (iPUSH24r (v 1)) (v 1) false false
              [impDef rSPL; impUse rSPL]) as [_ H].
  - reflexivity.
  - reflexivity.
  - reflexivity.
  - destruct (H 0%nat (iLEA24ro (v 1) (use (v 0)) 0) (use (v 0)) 0)
      as (MI' & st1 & Hc & _ & _ & Hg & _ & _ & Hreg & _).
    + reflexivity.
    + reflexivity.
    + reflexivity.
    + reflexivity.
    + reflexivity.
    + reflexivity.
    + reflexivity.
    + exists MI', st1. split; [exact Hc|]. split; [exact Hg|].
      apply (Hreg (v 0) false false); reflexivity.
Defined.

Example run_fnLeaPush5 :
  runBlocks (sampleSTI true) fnLeaPush5
    = Some [[mk PEA24o [use (v 0); MO_Immediate 5; impDef rSPL; impUse rSPL] 15]].
Proof. vm_compute. reflexivity. Qed.

Example run_fnLeaPush5_plain_Z80 :
  runBlocks (sampleSTI false) fnLeaPush5 = Some (blockInstrs fnLeaPush5).
Proof. vm_compute. reflexivity. Qed.

(** ** What one loop iteration may touch *)

Ltac inv_res :=
  repeat match goal with
    | H : bind _ _ = Ok _ |- _ =>
        let a := fresh "a" in
        let Ha := fresh "Ha" in
        apply bind_Ok_inv in H as (a & Ha & H)
    | H : Err _ = Ok _ |- _ => discriminate H
    | H : Ok _ = Ok _ |- _ => injection H as H
    | H : (_, _) = (_, _) |- _ => injection H as ? ?
    | H : (if ?c then _ else _) = Ok _ |- _ => destruct c eqn:?
    | H : match ?x with Some _ => _ | None => _ end = Ok _ |- _ =>
        destruct x eqn:?
    end.

Lemma combineCopy_effect (STI : Z80Subtarget) (b : nat) (id : InstrId)
  (MI : MachineInstr) (L L1 : ValLoc) (st st1 : PassState) :
  combineCopy STI b id MI L st = Ok (L1, st1) ->
  st1 = st \/
  exists RC New MI3,
    st1 = markChanged st
            (setInstr (insertInstr (snd (createVirtualRegister (Fn st) RC))
                                   b id New) id MI3).
Proof.
  unfold combineCopy. intros H.
  apply bind_Ok_inv in H as (m & _ & H).
  apply bind_Ok_inv in H as (L0 & _ & H).
  apply bind_Ok_inv in H as (DstReg & _ & H).
  destruct (negb (DstReg =? Z80_SPS STI) && negb (DstReg =? Z80_SPL STI)).
  - left. congruence.
  - right. simpl in H. inv_res. subst. eauto.
Qed.

Lemma combinePush_effect (STI : Z80Subtarget) (IsPush24 : bool) (id : InstrId)
  (MI : MachineInstr) (L L1 : ValLoc) (st st1 : PassState) :
  combinePush STI IsPush24 id MI L st = Ok (L1, st1) ->
  st1 = st \/
  exists SrcReg sid SrcMI MI',
    getOperandReg MI 0 = Ok SrcReg /\
    hasOneUse (Fn st) SrcReg = true /\
    getVRegDef (Fn st) SrcReg = Ok (Some sid) /\
    getInstr (Fn st) sid = Ok SrcMI /\
    getOpcode SrcMI = (if IsPush24 then LEA24ro else LEA16ro) /\
    st1 = markChanged st (eraseFromParent (setInstr (Fn st) id MI') sid).
Proof.
  unfold combinePush. intros H.
  destruct (negb (hasEZ80Ops STI)); [left; congruence|].
  apply bind_Ok_inv in H as (SrcReg & HSrc & H).
  destruct (hasOneUse (Fn st) SrcReg) eqn:Hone; simpl in H;
    [|left; congruence].
  apply bind_Ok_inv in H as (dd & Hd & H).
  destruct dd as [sid|]; [|left; congruence].
  apply bind_Ok_inv in H as (SrcMI & Hg & H).
  destruct (bool_decide
              (getOpcode SrcMI = (if IsPush24 then LEA24ro else LEA16ro)))
    eqn:Hlea; simpl in H; [|left; congruence].
  apply bool_decide_eq_true_1 in Hlea.
  apply bind_Ok_inv in H as (BaseMO & _ & H).
  apply bind_Ok_inv in H as (OffMO & _ & H).
  apply bind_Ok_inv in H as (NewOff & _ & H).
  apply bind_Ok_inv in H as (MI' & _ & H).
  right. exists SrcReg, sid, SrcMI, MI'.
  repeat split; try assumption. congruence.
Qed.

Lemma combine_effect (STI : Z80Subtarget) (b : nat) (id : InstrId)
  (MI : MachineInstr) (L L1 : ValLoc) (st st1 : PassState) :
  combine STI b id MI L st = Ok (L1, st1) ->
  st1 = st \/
  (getOpcode MI = OR8ar /\ st1 = withFn st (eraseFromParent (Fn st) id)) \/
  (getOpcode MI = COPY /\
   exists RC New MI3,
     st1 = markChanged st
             (setInstr (insertInstr (snd (createVirtualRegister (Fn st) RC))
                                    b id New) id MI3)) \/
  (exists IsPush24 SrcReg sid SrcMI MI',
     getOpcode MI = (if IsPush24 : bool then PUSH24r else PUSH16r) /\
     getOperandReg MI 0 = Ok SrcReg /\
     hasOneUse (Fn st) SrcReg = true /\
     getVRegDef (Fn st) SrcReg = Ok (Some sid) /\
     getInstr (Fn st) sid = Ok SrcMI /\
     getOpcode SrcMI = (if IsPush24 then LEA24ro else LEA16ro) /\
     st1 = markChanged st (eraseFromParent (setInstr (Fn st) id MI') sid)).
Proof.
  unfold combine. destruct (getOpcode MI) eqn:Hopc; intros H;
    try (left; inv_res; congruence).
  - apply combineCopy_effect in H as [H|H]; [left; exact H|].
    right. right. left. split; [reflexivity | exact H].
  - apply combinePush_effect in H as [H|(SrcReg & sid & SrcMI & MI' & H)];
      [left; exact H|].
    right. right. right. exists false, SrcReg, sid, SrcMI, MI'. tauto.
  - apply combinePush_effect in H as [H|(SrcReg & sid & SrcMI & MI' & H)];
      [left; exact H|].
    right. right. right. exists true, SrcReg, sid, SrcMI, MI'. tauto.
  - inv_res; [right; left; split; [reflexivity | congruence] | left; congruence].
Qed.

Lemma filter_ne_absent (id : InstrId) (blk : list InstrId) :
  id ∉ blk -> filter (fun j => j ≠ id) blk = blk.
Proof.
  induction blk as [|j blk IH]; [reflexivity|].
  intros Hn. apply not_elem_of_cons in Hn as [Hne Hn].
  rewrite filter_cons. destruct (decide (j ≠ id)) as [_|Heq].
  - rewrite IH by assumption. reflexivity.
  - exfalso. apply Heq. congruence.
Qed.

Lemma processInstr_inv (STI : Z80Subtarget) (b : nat) (id : InstrId)
  (L L' : ValLoc) (st st' : PassState) (MI : MachineInstr) :
  getInstr (Fn st) id = Ok MI ->
  processInstr STI b id L st = Ok (L', st') ->
  exists L1 st1,
    combine STI b id MI L st = Ok (L1, st1) /\
    Fn st' = Fn st1 /\ Changed st' = Changed st1.
Proof.
  intros Hget H. unfold processInstr in H. rewrite Hget in H. simpl in H.
  apply bind_Ok_inv in H as ([L1 st1] & Hc & H).
  apply bind_Ok_inv in H as (MI1 & _ & H).
  apply bind_Ok_inv in H as (L2 & _ & H).
  exists L1, st1. split; [exact Hc|].
  injection H as _ <-. destruct (isErased (Fn st1) id); split; reflexivity.
Qed.

(** C9 (as the code has it): one loop iteration on instruction [id] of
    block [b] leaves the stored contents of every other instruction as
    they were, and leaves every other block as it was, except that the
    push / effective-address fusion unlinks the instruction defining the
    pushed register from whichever block holds it. *)
Theorem walk_touches :
  forall (STI : Z80Subtarget) (b : nat) (id : InstrId) (L L' : ValLoc)
         (st st' : PassState) (MI : MachineInstr),
    getInstr (Fn st) id = Ok MI ->
    processInstr STI b id L st = Ok (L', st') ->
    (forall j : InstrId,
        j <> id -> (j < length (Instrs (Fn st)))%nat ->
        Instrs (Fn st') !! j = Instrs (Fn st) !! j) /\
    (forall (b' : nat) (blk : list InstrId),
        b' <> b -> Blocks (Fn st) !! b' = Some blk -> id ∉ blk ->
        Blocks (Fn st') !! b' = Some blk \/
        exists (IsPush24 : bool) (SrcReg : Register) (sid : InstrId)
               (SrcMI : MachineInstr),
          getOpcode MI = (if IsPush24 then PUSH24r else PUSH16r) /\
          getOperandReg MI 0 = Ok SrcReg /\
          getVRegDef (Fn st) SrcReg = Ok (Some sid) /\
          getInstr (Fn st) sid = Ok SrcMI /\
          getOpcode SrcMI = (if IsPush24 then LEA24ro else LEA16ro) /\
          Blocks (Fn st') !! b' = Some (filter (fun j => j ≠ sid) blk)).
Proof.
  intros STI b id L L' st st' MI Hget Hrun.
  destruct (processInstr_inv _ _ _ _ _ _ _ _ Hget Hrun)
    as (L1 & st1 & Hc & HFn & _).
  rewrite HFn. clear HFn Hrun.
  apply combine_effect in Hc
    as [->|[[_ ->]|[[_ (RC & New & MI3 & ->)]|
        (P & SrcReg & sid & SrcMI & MI' & Hop & HS & _ & Hd & Hg & Hl & ->)]]].
  - split; [reflexivity|]. intros b' blk _ Hb _. left. exact Hb.
  - split; [reflexivity|]. intros b' blk _ Hb Hn. left. simpl.
    rewrite list_lookup_fmap, Hb. simpl.
    rewrite filter_ne_absent by assumption. reflexivity.
  - split.
    + intros j Hne Hlt. simpl.
      rewrite list_lookup_insert_ne by congruence.
      apply lookup_app_l. exact Hlt.
    + intros b' blk Hne Hb _. left. simpl.
      rewrite list_lookup_alter_ne by congruence. exact Hb.
  - split.
    + intros j Hne Hlt. simpl.
      apply list_lookup_insert_ne. congruence.
    + intros b' blk _ Hb _. right. exists P, SrcReg, sid, SrcMI.
      repeat split; try assumption. simpl.
      rewrite list_lookup_fmap, Hb. reflexivity.
Qed.

(** The theorem on the push of [fnLeaPush], seen from the other block. *)
Lemma walk_touches_witness :
  let st' :=
    mkPS (eraseFromParent
            (setInstr fnLeaPush 1%nat
               (mk PUSH24r [use (v 0); impDef rSPL; impUse rSPL] 15)) 0%nat)
         true [] in
  processInstr (sampleSTI true) 1%nat 1%nat ValLoc_init
               (startState fnLeaPush) = Ok (ValLoc_init, st') /\
  Instrs (Fn st') !! 0%nat = Instrs fnLeaPush !! 0%nat.
Proof.
  intros st'.
  assert (Hrun : processInstr (sampleSTI true) 1%nat 1%nat ValLoc_init
                   (startState fnLeaPush) = Ok (ValLoc_init, st'))
    by (vm_compute; reflexivity).
  split; [exact Hrun|].
  destruct (walk_touches (sampleSTI true) 1%nat 1%nat ValLoc_init ValLoc_init
              (startState fnLeaPush) st' (iPUSH24r (v 1)) eq_refl Hrun)
    as [Hs _].
  apply Hs; [discriminate | simpl; lia].
Defined.

(** C9, refuted as stated: while the second block of [fnLeaPush] is
    walked, the fusion on its push erases the only instruction of the
    first block. *)
Lemma fusion_erases_in_other_block :
  Blocks fnLeaPush = [[0%nat]; [1%nat]] /\
  exists (L' : ValLoc) (st' : PassState),
    processInstr (sampleSTI true) 1%nat 1%nat ValLoc_init
                 (startState fnLeaPush) = Ok (L', st') /\
    Blocks (Fn st') = [[]; [1%nat]] /\
    Erased (Fn st') = [0%nat].
Proof.
  split; [reflexivity|].
  eexists. eexists. split; [vm_compute; reflexivity|].
  split; reflexivity.
Qed.

Example run_fnLeaPush :
  runBlocks (sampleSTI true) fnLeaPush
    = Some [[]; [mk PUSH24r [use (v 0); impDef rSPL; impUse rSPL] 15]].
Proof. vm_compute. reflexivity. Qed.

(** * Further properties of the pass *)

(** ** Induction over the walk *)

(** A property of the pass state kept by every loop iteration on a
    linked instruction is kept by the walk of a block, by the walk of
    all blocks, and so by the pass. *)
Section WalkInvariant.

Variable STI : Z80Subtarget.
Variable P : PassState -> Prop.
Hypothesis P_step :
  forall (b : nat) (id : InstrId) (L L' : ValLoc) (st st' : PassState)
         (MI : MachineInstr),
    P st ->
    getInstr (Fn st) id = Ok MI ->
    isErased (Fn st) id = false ->
    processInstr STI b id L st = Ok (L', st') ->
    P st'.

Lemma processInstr_getInstr (b : nat) (id : InstrId) (L L' : ValLoc)
  (st st' : PassState) :
  processInstr STI b id L st = Ok (L', st') ->
  exists MI, getInstr (Fn st) id = Ok MI.
Proof.
  unfold processInstr. intros H.
  apply bind_Ok_inv in H as (MI & Hget & _). eauto.
Qed.

Lemma walkBlock_invariant (b : nat) (pending : list InstrId) :
  forall (L : ValLoc) (st st' : PassState),
    P st -> walkBlock STI b pending L st = Ok st' -> P st'.
Proof.
  induction pending as [|id rest IH]; simpl; intros L st st' HP H.
  - congruence.
  - destruct (isErased (Fn st) id) eqn:Hlive; [eauto|].
    apply bind_Ok_inv in H as ([L1 st1] & Hstep & H).
    destruct (processInstr_getInstr _ _ _ _ _ _ Hstep) as [MI Hget].
    pose proof (P_step _ _ _ _ _ _ _ HP Hget Hlive Hstep) as HP1.
    destruct (nextLinked (Fn st) rest) as [j|];
      [destruct (isErased (Fn st1) j); [discriminate|]|]; eauto.
Qed.

Lemma walkBlocks_invariant (n : nat) :
  forall (b : nat) (st st' : PassState),
    P st -> walkBlocks STI b n st = Ok st' -> P st'.
Proof.
  induction n as [|n IH]; simpl; intros b st st' HP H.
  - congruence.
  - apply bind_Ok_inv in H as (st1 & Hw & H).
    eapply IH; [|exact H]. eapply walkBlock_invariant; eassumption.
Qed.

Lemma runOnMachineFunction_invariant (MF : MachineFunction) (st' : PassState) :
  P (mkPS MF false []) ->
  runOnMachineFunction STI MF = Ok st' ->
  P st'.
Proof. unfold runOnMachineFunction. apply walkBlocks_invariant. Qed.

End WalkInvariant.

(** The function and the flag after one loop iteration, by rule. *)
Lemma processInstr_effect (STI : Z80Subtarget) (b : nat) (id : InstrId)
  (L L' : ValLoc) (st st' : PassState) (MI : MachineInstr) :
  getInstr (Fn st) id = Ok MI ->
  processInstr STI b id L st = Ok (L', st') ->
  (Fn st' = Fn st /\ Changed st' = Changed st) \/
  (getOpcode MI = OR8ar /\
   Fn st' = eraseFromParent (Fn st) id /\ Changed st' = Changed st) \/
  (getOpcode MI = COPY /\ Changed st' = true /\
   exists RC New MI3,
     Fn st' = setInstr (insertInstr (snd (createVirtualRegister (Fn st) RC))
                                    b id New) id MI3) \/
  (Changed st' = true /\
   exists IsPush24 SrcReg sid SrcMI MI',
     getOpcode MI = (if IsPush24 : bool then PUSH24r else PUSH16r) /\
     getOperandReg MI 0 = Ok SrcReg /\
     getVRegDef (Fn st) SrcReg = Ok (Some sid) /\
     getInstr (Fn st) sid = Ok SrcMI /\
     getOpcode SrcMI = (if IsPush24 then LEA24ro else LEA16ro) /\
     Fn st' = eraseFromParent (setInstr (Fn st) id MI') sid).
Proof.
  intros Hget Hrun.
  destruct (processInstr_inv _ _ _ _ _ _ _ _ Hget Hrun)
    as (L1 & st1 & Hc & -> & ->).
  apply combine_effect in Hc
    as [->|[[Ho ->]|[[Ho (RC & New & MI3 & ->)]|
        (Q & SrcReg & sid & SrcMI & MI' & Hop & HS & _ & Hd & Hg & Hl & ->)]]].
  - left. split; reflexivity.
  - right. left. repeat split; assumption.
  - right. right. left. repeat split; [assumption|]. eauto.
  - right. right. right. split; [reflexivity|].
    exists Q, SrcReg, sid, SrcMI, MI'. repeat split; assumption.
Qed.

(** ** The block structure and the returned flag *)

(** X1: the pass keeps the number of blocks of the function: what it
    inserts and erases are instructions inside blocks. *)
Theorem pass_preserves_block_count :
  forall (STI : Z80Subtarget) (MF : MachineFunction) (st' : PassState),
    runOnMachineFunction STI MF = Ok st' ->
    length (Blocks (Fn st')) = length (Blocks MF).
Proof.
  intros STI MF st' Hrun.
  apply (runOnMachineFunction_invariant STI
           (fun st => length (Blocks (Fn st)) = length (Blocks MF)))
    with (MF := MF); [|reflexivity|exact Hrun].
  intros b id L L' st st1 MI HP Hget _ Hstep.
  destruct (processInstr_effect _ _ _ _ _ _ _ _ Hget Hstep)
    as [[-> _]|[(_ & -> & _)|[(_ & _ & RC & New & MI3 & ->)|
        (_ & Q & SrcReg & sid & SrcMI & MI' & _ & _ & _ & _ & _ & ->)]]];
    simpl; rewrite ?length_fmap, ?length_alter; exact HP.
Qed.

(** The theorem on [fnLeaPush], whose first block is emptied. *)
Lemma pass_preserves_block_count_witness :
  exists st',
    runOnMachineFunction (sampleSTI true) fnLeaPush = Ok st' /\
    length (Blocks (Fn st')) = 2%nat.
Proof.
  eexists. split; [vm_compute; reflexivity|].
  apply (pass_preserves_block_count (sampleSTI true) fnLeaPush).
  vm_compute. reflexivity.
Defined.

Lemma mutations_step (STI : Z80Subtarget) (b : nat) (id : InstrId)
  (L L' : ValLoc) (st st' : PassState) (MI : MachineInstr) :
  getInstr (Fn st) id = Ok MI ->
  processInstr STI b id L st = Ok (L', st') ->
  (mutations (Fn st) <= mutations (Fn st'))%nat /\
  (Changed st' = true ->
   Changed st = true \/ (mutations (Fn st) < mutations (Fn st'))%nat).
Proof.
  intros Hget Hstep.
  destruct (processInstr_effect _ _ _ _ _ _ _ _ Hget Hstep)
    as [[-> ->]|[(_ & -> & ->)|[(_ & _ & RC & New & MI3 & ->)|
        (_ & Q & SrcReg & sid & SrcMI & MI' & _ & _ & _ & _ & _ & ->)]]];
    unfold mutations; simpl; rewrite ?length_app; simpl;
    (split; [lia|]); intros Hc; try (left; exact Hc); right; lia.
Qed.

(** X2: the pass does not report a change it has not made.  When it
    returns [true], a virtual register was allocated or an instruction
    was erased during the run. *)
Theorem changed_implies_mutation :
  forall (STI : Z80Subtarget) (MF : MachineFunction) (st' : PassState),
    runOnMachineFunction STI MF = Ok st' ->
    Changed st' = true ->
    (mutations MF < mutations (Fn st'))%nat.
Proof.
  intros STI MF st' Hrun.
  apply (runOnMachineFunction_invariant STI
           (fun st => (mutations MF <= mutations (Fn st))%nat /\
                      (Changed st = true ->
                       (mutations MF < mutations (Fn st))%nat)))
    with (MF := MF); [| |exact Hrun].
  - intros b id L L' st st1 MI [Hle Hlt] Hget _ Hstep.
    destruct (mutations_step _ _ _ _ _ _ _ _ Hget Hstep) as [Hm Hc].
    split; [lia|]. intros Hch. destruct (Hc Hch) as [H|H]; [|lia].
    specialize (Hlt H). lia.
  - simpl. split; [lia | discriminate].
Qed.

(** The theorem on [fnCopySPL], where the run allocates a register. *)
Lemma changed_implies_mutation_witness :
  exists st',
    runOnMachineFunction (sampleSTI true) fnCopySPL = Ok st' /\
    (mutations fnCopySPL < mutations (Fn st'))%nat.
Proof.
  eexists. split; [vm_compute; reflexivity|].
  apply (changed_implies_mutation (sampleSTI true) fnCopySPL);
    vm_compute; reflexivity.
Defined.

(** ** Functions the pass leaves alone *)

Lemma nextLinked_live (MF : MachineFunction) (rest : list InstrId) (j : InstrId) :
  nextLinked MF rest = Some j -> isErased MF j = false.
Proof.
  unfold nextLinked.
  destruct (filter (fun j0 => isErased MF j0 = false) rest) as [|k l] eqn:Hf;
    simpl; [discriminate|].
  intros [= ->].
  assert (Hin : j ∈ filter (fun j0 => isErased MF j0 = false) rest)
    by (rewrite Hf; apply elem_of_cons; left; reflexivity).
  apply list_elem_of_filter in Hin as [Hj _]. exact Hj.
Qed.

Lemma processInstr_unrewritable (STI : Z80Subtarget) (b : nat) (id : InstrId)
  (L L' : ValLoc) (st st' : PassState) (MI : MachineInstr) :
  getInstr (Fn st) id = Ok MI ->
  rewritable (getOpcode MI) = false ->
  isErased (Fn st) id = false ->
  processInstr STI b id L st = Ok (L', st') ->
  st' = st.
Proof.
  intros Hget Hrw Hlive H. unfold processInstr in H.
  rewrite Hget in H. simpl in H.
  apply bind_Ok_inv in H as ([L1 st1] & Hc & H).
  apply bind_Ok_inv in H as (MI1 & _ & H).
  apply bind_Ok_inv in H as (L2 & _ & H).
  assert (Hst : st1 = st).
  { apply combine_effect in Hc
      as [->|[[Ho _]|[[Ho _]|(Q & S & sid & SrcMI & MI' & Ho & _)]]];
      [reflexivity| | |];
      rewrite Ho in Hrw; try destruct Q; discriminate. }
  subst st1. rewrite Hlive in H. congruence.
Qed.

Lemma walkBlock_unrewritable (STI : Z80Subtarget) (b : nat)
  (st0 : PassState) (pending : list InstrId) :
  (forall id MI, id ∈ pending -> getInstr (Fn st0) id = Ok MI ->
                 rewritable (getOpcode MI) = false) ->
  forall (L : ValLoc) (st' : PassState),
    walkBlock STI b pending L st0 = Ok st' -> st' = st0.
Proof.
  induction pending as [|id rest IH]; simpl; intros Hall L st' H.
  - congruence.
  - assert (Hrest : forall id0 MI, id0 ∈ rest ->
                      getInstr (Fn st0) id0 = Ok MI ->
                      rewritable (getOpcode MI) = false).
    { intros id0 MI Hin. apply Hall. apply elem_of_cons. right. exact Hin. }
    destruct (isErased (Fn st0) id) eqn:Hlive; [eauto|].
    apply bind_Ok_inv in H as ([L1 st1] & Hstep & H).
    destruct (processInstr_getInstr _ _ _ _ _ _ _ Hstep) as [MI Hget].
    assert (Hrw : rewritable (getOpcode MI) = false).
    { apply (Hall id MI); [apply elem_of_cons; left; reflexivity | exact Hget]. }
    pose proof (processInstr_unrewritable _ _ _ _ _ _ _ _ Hget Hrw Hlive Hstep).
    subst st1.
    destruct (nextLinked (Fn st0) rest) as [j|] eqn:Hn; [|eauto].
    rewrite (nextLinked_live _ _ _ Hn) in H. eauto.
Qed.

Lemma elem_of_concat_lookup (Bs : list (list InstrId)) (b : nat) (id : InstrId) :
  id ∈ default [] (Bs !! b) -> id ∈ concat Bs.
Proof.
  destruct (Bs !! b) as [blk|] eqn:Hb; simpl; [|intros H; inversion H].
  intros Hin. apply list_elem_of_In, in_concat. exists blk.
  split; apply list_elem_of_In; [|exact Hin].
  eapply list_elem_of_lookup_2. exact Hb.
Qed.

(** X3: what the pass never does.  On a function in which no linked
    instruction is a [COPY], a push or an [OR8ar], a run that returns
    gives back the function as it was, reports no change and has read no
    erased instruction. *)
Theorem pass_identity_without_rewritable :
  forall (STI : Z80Subtarget) (MF : MachineFunction) (st' : PassState),
    (forall id MI, id ∈ concat (Blocks MF) -> getInstr MF id = Ok MI ->
                   rewritable (getOpcode MI) = false) ->
    runOnMachineFunction STI MF = Ok st' ->
    st' = mkPS MF false [].
Proof.
  intros STI MF st' Hall. unfold runOnMachineFunction.
  generalize (length (Blocks MF)) 0%nat. intros n. revert st'.
  induction n as [|n IH]; simpl; intros st' b H.
  - congruence.
  - apply bind_Ok_inv in H as (st1 & Hw & H).
    apply walkBlock_unrewritable in Hw.
    + subst st1. eauto.
    + intros id MI Hin. apply Hall. simpl.
      apply (elem_of_concat_lookup _ b). exact Hin.
Qed.

(** The theorem on [fnInert]. *)
Lemma pass_identity_without_rewritable_witness :
  exists st',
    runOnMachineFunction (sampleSTI true) fnInert = Ok st' /\
    st' = mkPS fnInert false [].
Proof.
  eexists. split; [vm_compute; reflexivity|].
  apply (pass_identity_without_rewritable (sampleSTI true) fnInert).
  - intros id MI Hin Hget. simpl in Hin.
    apply elem_of_cons in Hin as [->|Hin];
      [|apply elem_of_cons in Hin as [->|Hin]; [|inversion Hin]];
      vm_compute in Hget; injection Hget as <-; reflexivity.
  - vm_compute. reflexivity.
Defined.

Lemma processInstr_inert (STI : Z80Subtarget) (b : nat) (id : InstrId)
  (L : ValLoc) (st : PassState) (MI : MachineInstr) :
  getInstr (Fn st) id = Ok MI ->
  inert MI ->
  isErased (Fn st) id = false ->
  exists L2, processInstr STI b id L st = Ok (L2, st).
Proof.
  intros Hget (Hdef & Hnd & HF) Hlive.
  assert (Hc : combine STI b id MI L st =
               Ok (if modifiesRegister STI MI (Z80_F STI) then clear L else L,
                   st)).
  { unfold combine. destruct (getOpcode MI); try discriminate;
      destruct (modifiesRegister STI MI (Z80_F STI)); reflexivity. }
  destruct (clobberLoop_total STI _
              (if modifiesRegister STI MI (Z80_F STI) then clear L else L) HF)
    as [L2 HL2].
  exists L2. unfold processInstr. rewrite Hget. simpl. rewrite Hc. simpl.
  rewrite Hget. simpl. unfold clobberDefs, defs.
  apply Nat.leb_le in Hnd. rewrite Hnd. simpl. rewrite HL2. simpl.
  rewrite Hlive. reflexivity.
Qed.

Lemma walkBlock_inert (STI : Z80Subtarget) (b : nat) (st0 : PassState)
  (pending : list InstrId) :
  (forall id, id ∈ pending ->
              exists MI, getInstr (Fn st0) id = Ok MI /\ inert MI) ->
  forall L : ValLoc, walkBlock STI b pending L st0 = Ok st0.
Proof.
  induction pending as [|id rest IH]; simpl; intros Hall L; [reflexivity|].
  assert (Hrest : forall id0, id0 ∈ rest ->
                    exists MI, getInstr (Fn st0) id0 = Ok MI /\ inert MI).
  { intros id0 Hin. apply Hall. apply elem_of_cons. right. exact Hin. }
  destruct (isErased (Fn st0) id) eqn:Hlive; [auto|].
  destruct (Hall id) as (MI & Hget & Hin);
    [apply elem_of_cons; left; reflexivity|].
  destruct (processInstr_inert STI b id L st0 MI Hget Hin Hlive) as [L2 ->].
  simpl.
  destruct (nextLinked (Fn st0) rest) as [j|] eqn:Hn; [|auto].
  rewrite (nextLinked_live _ _ _ Hn). auto.
Qed.

(** X4: on a function whose linked instructions all lie outside the
    switch, with register operands as explicit definitions, the pass
    returns, gives back the function as it was and reports no change. *)
Theorem pass_total_on_inert :
  forall (STI : Z80Subtarget) (MF : MachineFunction),
    (forall id, id ∈ concat (Blocks MF) ->
                exists MI, getInstr MF id = Ok MI /\ inert MI) ->
    runOnMachineFunction STI MF = Ok (mkPS MF false []).
Proof.
  intros STI MF Hall. unfold runOnMachineFunction.
  generalize 0%nat. generalize (length (Blocks MF)). intros n.
  induction n as [|n IH]; simpl; intros b; [reflexivity|].
  rewrite walkBlock_inert; [simpl; apply IH|].
  intros id Hin. apply Hall. simpl.
  apply (elem_of_concat_lookup _ b). exact Hin.
Qed.

(** The theorem on [fnInert]. *)
Lemma pass_total_on_inert_witness :
  runOnMachineFunction (sampleSTI true) fnInert = Ok (mkPS fnInert false []).
Proof.
  apply (pass_total_on_inert (sampleSTI true) fnInert).
  intros id Hin. simpl in Hin.
  apply elem_of_cons in Hin as [->|Hin];
    [|apply elem_of_cons in Hin as [->|Hin]; [|inversion Hin]];
    eexists; (split; [vm_compute; reflexivity|]);
    (split; [reflexivity|]); (split; [simpl; lia|]); constructor.
Defined.

(** ** Well-formedness of the function *)

Lemma concat_filter_blocks (id : InstrId) (Bs : list (list InstrId)) :
  concat (filter (fun j => j ≠ id) <$> Bs)
  = filter (fun j => j ≠ id) (concat Bs).
Proof.
  induction Bs as [|blk Bs IH]; [reflexivity|].
  rewrite fmap_cons. cbn [concat]. rewrite filter_app, IH. reflexivity.
Qed.

Lemma insertBefore_cases (pos new : InstrId) (l : list InstrId) :
  insertBefore pos new l = l \/ insertBefore pos new l ≡ₚ new :: l.
Proof.
  induction l as [|j l IH]; simpl; [left; reflexivity|].
  destruct (Nat.eqb j pos); [right; reflexivity|].
  destruct IH as [->|IH]; [left; reflexivity|].
  right. rewrite IH. apply Permutation_swap.
Qed.

Lemma concat_alter_insertBefore (pos new : InstrId) (Bs : list (list InstrId)) :
  forall b : nat,
    concat (alter (insertBefore pos new) b Bs) = concat Bs \/
    concat (alter (insertBefore pos new) b Bs) ≡ₚ new :: concat Bs.
Proof.
  induction Bs as [|blk Bs IH]; intros [|b]; simpl;
    try (left; reflexivity).
  - destruct (insertBefore_cases pos new blk) as [->|H];
      [left; reflexivity|].
    right. rewrite H. reflexivity.
  - destruct (IH b) as [H|H].
    + left. f_equal. exact H.
    + right. etransitivity; [apply Permutation_app_head; exact H|].
      symmetry. apply Permutation_middle.
Qed.

Lemma wellFormed_erase (MF : MachineFunction) (id : InstrId) :
  wellFormed MF ->
  (id < length (Instrs MF))%nat ->
  wellFormed (eraseFromParent MF id).
Proof.
  intros (HA & HB & HC) Hlt. unfold wellFormed. simpl.
  rewrite concat_filter_blocks. split; [|split].
  - intros j Hj. apply list_elem_of_filter in Hj as [Hne Hj].
    destruct (HA _ Hj) as [Hl Hn]. split; [exact Hl|].
    intros Hin. apply elem_of_cons in Hin as [->|Hin];
      [congruence | contradiction].
  - intros j Hin. apply elem_of_cons in Hin as [->|Hin]; [exact Hlt | auto].
  - apply NoDup_filter. exact HC.
Qed.

Lemma wellFormed_setInstr (MF : MachineFunction) (id : InstrId)
  (MI : MachineInstr) :
  wellFormed MF -> wellFormed (setInstr MF id MI).
Proof.
  intros (HA & HB & HC). unfold wellFormed. simpl.
  rewrite length_insert. split; [|split]; assumption.
Qed.

Lemma wellFormed_insertInstr (MF : MachineFunction) (b : nat) (pos : InstrId)
  (MI : MachineInstr) :
  wellFormed MF -> wellFormed (insertInstr MF b pos MI).
Proof.
  intros (HA & HB & HC). unfold wellFormed. simpl.
  rewrite length_app. simpl.
  assert (Hfresh : length (Instrs MF) ∉ concat (Blocks MF)).
  { intros Hin. destruct (HA _ Hin) as [Hlt _]. lia. }
  assert (Hmem : forall j,
             j ∈ concat (alter (insertBefore pos (length (Instrs MF))) b
                               (Blocks MF)) ->
             j = length (Instrs MF) \/ j ∈ concat (Blocks MF)).
  { intros j Hin.
    destruct (concat_alter_insertBefore pos (length (Instrs MF))
                (Blocks MF) b) as [H|H]; rewrite H in Hin.
    - right. exact Hin.
    - apply elem_of_cons in Hin. exact Hin. }
  split; [|split].
  - intros j Hin. destruct (Hmem j Hin) as [->|Hj].
    + split; [lia|]. intros He. specialize (HB _ He). lia.
    + destruct (HA _ Hj) as [Hlt Hn]. split; [lia | exact Hn].
  - intros j Hin. specialize (HB _ Hin). lia.
  - destruct (concat_alter_insertBefore pos (length (Instrs MF))
                (Blocks MF) b) as [H|H]; rewrite H; [exact HC|].
    apply NoDup_cons. split; assumption.
Qed.

Lemma wellFormed_createVirtualRegister (MF : MachineFunction) (RC : RegClass) :
  wellFormed MF -> wellFormed (snd (createVirtualRegister MF RC)).
Proof. intros H. exact H. Qed.

(** X5: the pass keeps the function well formed.  If, on entry, every
    linked instruction is stored and not erased, every erased one is
    stored, and no instruction is linked twice, the same holds of the
    function the pass returns. *)
Theorem pass_preserves_wellFormed :
  forall (STI : Z80Subtarget) (MF : MachineFunction) (st' : PassState),
    wellFormed MF ->
    runOnMachineFunction STI MF = Ok st' ->
    wellFormed (Fn st').
Proof.
  intros STI MF st' Hwf Hrun.
  apply (runOnMachineFunction_invariant STI (fun st => wellFormed (Fn st)))
    with (MF := MF); [|exact Hwf|exact Hrun].
  intros b id L L' st st1 MI HP Hget _ Hstep.
  pose proof (getInstr_lt _ _ _ Hget) as Hlt.
  destruct (processInstr_effect _ _ _ _ _ _ _ _ Hget Hstep)
    as [[-> _]|[(_ & -> & _)|[(_ & _ & RC & New & MI3 & ->)|
        (_ & Q & SrcReg & sid & SrcMI & MI' & _ & _ & _ & Hg & _ & ->)]]].
  - exact HP.
  - apply wellFormed_erase; assumption.
  - apply wellFormed_setInstr, wellFormed_insertInstr,
      wellFormed_createVirtualRegister. exact HP.
  - apply wellFormed_erase; [apply wellFormed_setInstr; exact HP|].
    simpl. rewrite length_insert. apply (getInstr_lt _ _ _ Hg).
Qed.

Lemma wellFormed_fnLeaPush : wellFormed fnLeaPush.
Proof.
  split; [|split].
  - intros id Hin. simpl in Hin.
    apply elem_of_cons in Hin as [->|Hin];
      [|apply elem_of_cons in Hin as [->|Hin]; [|inversion Hin]];
      (split; [simpl; lia | intros H; inversion H]).
  - intros id Hin. inversion Hin.
  - apply (bool_decide_unpack _). vm_compute. exact I.
Qed.

(** The theorem on [fnLeaPush], where the run erases an instruction. *)
Lemma pass_preserves_wellFormed_witness :
  exists st',
    runOnMachineFunction (sampleSTI true) fnLeaPush = Ok st' /\
    wellFormed (Fn st').
Proof.
  eexists. split; [vm_compute; reflexivity|].
  apply (pass_preserves_wellFormed (sampleSTI true) fnLeaPush).
  - exact wellFormed_fnLeaPush.
  - vm_compute. reflexivity.
Defined.

(** ** The def-clobber check, exactly *)

Lemma clobbersAny_hits (STI : Z80Subtarget) (L : ValLoc) (R : Register)
  (d i : bool) :
  clobbersAny STI (MO_Register R d i) [Reg L; Base L]
  = Ok (hits STI L (MO_Register R d i)).
Proof.
  simpl.
  destruct (isValid (Reg L)); simpl;
    [destruct (regsOverlap STI R (Reg L)); simpl; [reflexivity|]|];
    (destruct (isValid (Base L)); simpl;
     [destruct (regsOverlap STI R (Base L)); reflexivity | reflexivity]).
Qed.

Lemma clobberLoop_exact (STI : Z80Subtarget) (Ds : list MachineOperand)
  (L : ValLoc) :
  Forall (fun D => isReg D = true) Ds ->
  clobberLoop STI Ds L
  = Ok (if existsb (hits STI L) Ds then ValLoc_init else L).
Proof.
  induction 1 as [|D Ds HD _ IH]; [reflexivity|].
  destruct D as [R d i| |]; try discriminate.
  cbn [clobberLoop existsb]. rewrite clobbersAny_hits.
  destruct (hits STI L (MO_Register R d i)); simpl; [reflexivity | exact IH].
Qed.

(** X6: with register operands as explicit definitions, the check clears
    the tracker exactly when one of them overlaps the valid tracked
    register or the valid tracked base, and hands the tracker back as it
    was otherwise. *)
Theorem clobberDefs_exact :
  forall (STI : Z80Subtarget) (L : ValLoc) (MI : MachineInstr),
    (NumDefs (Desc MI) <= length (Operands MI))%nat ->
    Forall (fun D => isReg D = true) (take (NumDefs (Desc MI)) (Operands MI)) ->
    clobberDefs STI L MI
    = Ok (if existsb (hits STI L) (take (NumDefs (Desc MI)) (Operands MI))
          then ValLoc_init else L).
Proof.
  intros STI L MI Hnd HF. unfold clobberDefs, defs.
  apply Nat.leb_le in Hnd. rewrite Hnd. simpl.
  apply clobberLoop_exact. exact HF.
Qed.

(** The theorem on the copy into [AF], with the tracker on [A] (cleared)
    and on [L] (kept). *)
Lemma clobberDefs_exact_witness :
  clobberDefs (sampleSTI true) (setReg ValLoc_init rA) (iCOPY rAF (v 1))
    = Ok ValLoc_init /\
  clobberDefs (sampleSTI true) (setReg ValLoc_init rL) (iCOPY rAF (v 1))
    = Ok (setReg ValLoc_init rL).
Proof.
  split.
  - rewrite (clobberDefs_exact (sampleSTI true) (setReg ValLoc_init rA)
               (iCOPY rAF (v 1)));
      [reflexivity | simpl; lia | repeat constructor].
  - rewrite (clobberDefs_exact (sampleSTI true) (setReg ValLoc_init rL)
               (iCOPY rAF (v 1)));
      [reflexivity | simpl; lia | repeat constructor].
Defined.

Lemma clobberLoop_no_valid (STI : Z80Subtarget) (Ds : list MachineOperand)
  (L : ValLoc) :
  isValid (Reg L) = false -> isValid (Base L) = false ->
  clobberLoop STI Ds L = Ok L.
Proof.
  intros HR HB. induction Ds as [|D Ds IH]; simpl; [reflexivity|].
  rewrite HR, HB. simpl. exact IH.
Qed.

(** X7: on a tracker holding neither a valid register nor a valid base
    (an unset tracker, or one set through a negative frame index) the
    check reads no definition: it returns the tracker as it is, even
    when a definition operand is not a register. *)
Theorem clobberDefs_nothing_tracked :
  forall (STI : Z80Subtarget) (L : ValLoc) (MI : MachineInstr),
    (NumDefs (Desc MI) <= length (Operands MI))%nat ->
    isValid (Reg L) = false ->
    isValid (Base L) = false ->
    clobberDefs STI L MI = Ok L.
Proof.
  intros STI L MI Hnd HR HB. unfold clobberDefs, defs.
  apply Nat.leb_le in Hnd. rewrite Hnd. simpl.
  apply clobberLoop_no_valid; assumption.
Qed.

(** The theorem on an instruction whose one definition is a frame index,
    and the same instruction met with a tracker on [A]. *)
Lemma clobberDefs_nothing_tracked_witness :
  let MI := mkMI (mkDesc (OtherOpcode 3) 1) [MO_FrameIndex 2] 0 in
  clobberDefs (sampleSTI true) (setMem ValLoc_init NoRegister 9) MI
    = Ok (setMem ValLoc_init NoRegister 9) /\
  clobberDefs (sampleSTI true) (setReg ValLoc_init rA) MI
    = Err AssertionFailure.
Proof.
  intros MI. split; [|reflexivity].
  apply (clobberDefs_nothing_tracked (sampleSTI true)); [simpl; lia | | ];
    reflexivity.
Defined.

(** ** Offsets and bases of memory facts *)

Lemma to_int8_range (z : Z) : -128 <= to_int8 z <= 127.
Proof.
  unfold to_int8. pose proof (Z.mod_pos_bound (z + 128) 256). lia.
Qed.

Lemma to_int8_small (z : Z) : -128 <= z <= 127 -> to_int8 z = z.
Proof. intros H. unfold to_int8. rewrite Z.mod_small; lia. Qed.

Lemma to_int8_eq_iff (a c : Z) :
  to_int8 a = to_int8 c <-> (a - c) mod 256 = 0.
Proof.
  unfold to_int8. rewrite <- Z.cong_iff_0.
  split; intros H.
  - assert (H' : (a + 128) mod 256 = (c + 128) mod 256) by lia.
    apply Z.cong_iff_0 in H'. apply Z.cong_iff_0.
    replace (a - c) with (a + 128 - (c + 128)) by lia. exact H'.
  - assert (H' : (a + 128) mod 256 = (c + 128) mod 256).
    { apply Z.cong_iff_0. apply Z.cong_iff_0 in H.
      replace (a + 128 - (c + 128)) with (a - c) by lia. exact H. }
    lia.
Qed.

(** X8: a memory fact keeps its offset as an 8-bit signed value.  The
    stored offset lies in [-128, 127] and is the given one when that is
    in range; a query through the same valid base matches exactly when
    its offset differs from the one set by a multiple of 256. *)
Theorem memory_offset_is_8bit :
  forall (L : ValLoc) (B : Register) (O O' : Z),
    isValid B = true ->
    -128 <= Off (setMem L B O) <= 127 /\
    (-128 <= O <= 127 -> Off (setMem L B O) = O) /\
    (matchesMem (setMem L B O) B O' = true <-> (O - O') mod 256 = 0).
Proof.
  intros L B O O' HB. cbn [setMem Off]. split; [apply to_int8_range|].
  split; [apply to_int8_small|].
  unfold matchesMem. cbn [Base Off]. rewrite HB, Z.eqb_refl. simpl.
  rewrite Z.eqb_eq. apply to_int8_eq_iff.
Qed.

(** The theorem at base [HL]: offset 5 is matched by 5 and by 261, not
    by 6. *)
Lemma memory_offset_is_8bit_witness :
  matchesMem (setMem ValLoc_init rHL 5) rHL 261 = true /\
  matchesMem (setMem ValLoc_init rHL 5) rHL 6 = false.
Proof.
  split; [|reflexivity].
  apply (memory_offset_is_8bit ValLoc_init rHL 5 261); reflexivity.
Defined.

Lemma index2StackSlot_small (FI : Z) :
  0 <= FI < 2 ^ 31 -> index2StackSlot FI = FI + 2 ^ 30.
Proof.
  intros H. unfold index2StackSlot, FirstStackSlot.
  apply Z.mod_small. lia.
Qed.

Lemma matchesMem_other_base (L : ValLoc) (B B' : Register) (O O' : Z) :
  B <> B' -> matchesMem (setMem L B O) B' O' = false.
Proof.
  intros Hne. unfold matchesMem. cbn [setMem Base].
  destruct (Z.eqb_spec B B'); [contradiction|].
  rewrite andb_false_r. reflexivity.
Qed.

(** X9: a base given as a frame index is kept apart from every other
    base.  A tracker set through frame index [FI] (below 2^30) does not
    match an access through a different frame index, nor an access whose
    base is a physical or virtual register, whatever the offsets. *)
Theorem frame_index_base_is_distinct :
  forall (L : ValLoc) (MI : MachineInstr) (OpNo : nat) (FI O : Z),
    Operands MI !! OpNo = Some (MO_FrameIndex FI) ->
    Operands MI !! (OpNo + 1)%nat = Some (MO_Immediate O) ->
    0 <= FI < 2 ^ 30 ->
    exists L1,
      setOff L MI OpNo = Ok L1 /\
      (forall (MI' : MachineInstr) (OpNo' : nat) (FI' O' : Z),
          Operands MI' !! OpNo' = Some (MO_FrameIndex FI') ->
          Operands MI' !! (OpNo' + 1)%nat = Some (MO_Immediate O') ->
          0 <= FI' < 2 ^ 31 -> FI' <> FI ->
          matchesOff L1 MI' OpNo' = Ok false) /\
      (forall (MI' : MachineInstr) (OpNo' : nat) (R : Register) (d i : bool)
              (O' : Z),
          Operands MI' !! OpNo' = Some (MO_Register R d i) ->
          Operands MI' !! (OpNo' + 1)%nat = Some (MO_Immediate O') ->
          isPhysical R = true \/ isVirtual R = true ->
          matchesOff L1 MI' OpNo' = Ok false /\
          matchesPtr L1 MI' OpNo' = Ok false).
Proof.
  intros L MI OpNo FI O Hb Ho Hr.
  assert (Hle : (0 <=? FI) = true) by (apply Z.leb_le; lia).
  assert (Hslot : index2StackSlot FI = FI + 2 ^ 30)
    by (apply index2StackSlot_small; lia).
  exists (setMem L (index2StackSlot FI) O). split; [|split].
  - unfold setOff, getBaseReg. rewrite (getOperand_lookup _ _ _ Hb). simpl.
    rewrite Hle. simpl. rewrite (getOperand_lookup _ _ _ Ho). reflexivity.
  - intros MI' OpNo' FI' O' Hb' Ho' Hr' Hne.
    unfold matchesOff, getBaseReg. rewrite (getOperand_lookup _ _ _ Hb').
    simpl. replace (0 <=? FI') with true by (symmetry; apply Z.leb_le; lia).
    simpl. rewrite (getOperand_lookup _ _ _ Ho'). simpl.
    rewrite matchesMem_other_base; [reflexivity|].
    rewrite Hslot, (index2StackSlot_small FI') by lia. lia.
  - intros MI' OpNo' R d i O' Hb' Ho' HR.
    assert (Hne : index2StackSlot FI <> R).
    { rewrite Hslot. unfold isPhysical, isVirtual, FirstStackSlot,
        VirtualRegFlag in HR.
      destruct HR as [HR|HR]; apply andb_true_iff in HR as [H1 H2].
      - apply Z.ltb_lt in H2. lia.
      - apply Z.leb_le in H1. lia. }
    split.
    + unfold matchesOff, getBaseReg. rewrite (getOperand_lookup _ _ _ Hb').
      simpl. rewrite (getOperand_lookup _ _ _ Ho'). simpl.
      rewrite matchesMem_other_base by exact Hne. reflexivity.
    + unfold matchesPtr. rewrite (getOperandReg_lookup _ _ _ _ _ Hb'). simpl.
      rewrite matchesMem_other_base by exact Hne. reflexivity.
Qed.

(** The theorem on a store through frame index 3 followed by a load
    through frame index 4. *)
Lemma frame_index_base_is_distinct_witness :
  let St := mk LD8or [MO_FrameIndex 3; MO_Immediate 5; use (v 0)] 0 in
  let Ld := mk LD8ro [def (v 1); MO_FrameIndex 4; MO_Immediate 5] 0 in
  exists L1, setOff ValLoc_init St 0 = Ok L1 /\
             matchesOff L1 Ld 1 = Ok false.
Proof.
  intros St Ld.
  destruct (frame_index_base_is_distinct ValLoc_init St 0 3 5)
    as (L1 & Hs & Hfi & _); [reflexivity | reflexivity | lia |].
  exists L1. split; [exact Hs|].
  apply (Hfi Ld 1%nat 4 5); [reflexivity | reflexivity | lia | lia].
Defined.

(** ** Rules followed by the def-clobber check *)

(** X10: a plain [COPY] (destination not a stack pointer) whose source
    the tracker matches leaves the tracker unset, on any target whose
    oracle lets a register overlap itself: the rule moves the tracker to
    the destination, the one explicit definition of the copy, and the
    check clears it.  The function is not touched. *)
Theorem matched_copy_leaves_tracker_unset :
  forall (STI : Z80Subtarget) (b : nat) (id : InstrId) (L : ValLoc)
         (st : PassState) (MI : MachineInstr) (Dst Src : Register)
         (d i sd si : bool),
    getInstr (Fn st) id = Ok MI ->
    isErased (Fn st) id = false ->
    getOpcode MI = COPY ->
    Operands MI = [MO_Register Dst d i; MO_Register Src sd si] ->
    NumDefs (Desc MI) = 1%nat ->
    Dst <> Z80_SPS STI -> Dst <> Z80_SPL STI ->
    isValid Dst = true ->
    regsOverlap STI Dst Dst = true ->
    matchesReg L Src = true ->
    combine STI b id MI L st = Ok (setReg L Dst, st) /\
    processInstr STI b id L st = Ok (ValLoc_init, st).
Proof.
  intros STI b id L st MI Dst Src d i sd si Hget Hlive Hopc Hops Hnd
         HnS HnL Hv Ho Hm.
  assert (Hc : combine STI b id MI L st = Ok (setReg L Dst, st)).
  { unfold combine. rewrite Hopc. unfold combineCopy, matchesRegMI, setRegMI,
      getOperandReg, getOperand. rewrite Hops. simpl. rewrite Hm. simpl.
    apply Z.eqb_neq in HnS. apply Z.eqb_neq in HnL.
    rewrite HnS, HnL. reflexivity. }
  split; [exact Hc|].
  unfold processInstr. rewrite Hget. simpl. rewrite Hc. simpl.
  rewrite Hget. simpl.
  rewrite (clobberDefs_own_destination STI L MI Dst d i _ Hops Hnd Hv Ho).
  simpl. rewrite Hlive. reflexivity.
Qed.

(** The theorem on the copy of [fnAddCopyA], met with the tracker on the
    accumulator. *)
Lemma matched_copy_leaves_tracker_unset_witness :
  processInstr (sampleSTI true) 0%nat 1%nat (setReg ValLoc_init rA)
               (startState fnAddCopyA)
    = Ok (ValLoc_init, startState fnAddCopyA).
Proof.
  apply (matched_copy_leaves_tracker_unset (sampleSTI true) 0%nat 1%nat
           (setReg ValLoc_init rA) (startState fnAddCopyA)
           (iCOPY (v 1) rA) (v 1) rA true false false false);
    try reflexivity; discriminate.
Defined.

(** X11: a rotate, shift, increment or decrement of a register whose
    operand 0 is its one explicit definition leaves the tracker unset
    as well, whatever the tracker held before. *)
Theorem unary_reg_form_leaves_tracker_unset :
  forall (STI : Z80Subtarget) (b : nat) (id : InstrId) (L : ValLoc)
         (st : PassState) (MI : MachineInstr) (Dst : Register)
         (d i : bool) (rest : list MachineOperand),
    getInstr (Fn st) id = Ok MI ->
    isErased (Fn st) id = false ->
    unaryRegForm (getOpcode MI) = true ->
    Operands MI = MO_Register Dst d i :: rest ->
    NumDefs (Desc MI) = 1%nat ->
    isValid Dst = true ->
    regsOverlap STI Dst Dst = true ->
    combine STI b id MI L st = Ok (setReg L Dst, st) /\
    processInstr STI b id L st = Ok (ValLoc_init, st).
Proof.
  intros STI b id L st MI Dst d i rest Hget Hlive Hopc Hops Hnd Hv Ho.
  assert (Hc : combine STI b id MI L st = Ok (setReg L Dst, st)).
  { unfold combine. destruct (getOpcode MI); try discriminate;
      unfold setRegMI, getOperandReg, getOperand; rewrite Hops; reflexivity. }
  split; [exact Hc|].
  unfold processInstr. rewrite Hget. simpl. rewrite Hc. simpl.
  rewrite Hget. simpl.
  rewrite (clobberDefs_own_destination STI L MI Dst d i _ Hops Hnd Hv Ho).
  simpl. rewrite Hlive. reflexivity.
Qed.

(** The theorem on the increment of [fnInc]. *)
Lemma unary_reg_form_leaves_tracker_unset_witness :
  processInstr (sampleSTI true) 0%nat 0%nat ValLoc_init (startState fnInc)
    = Ok (ValLoc_init, startState fnInc).
Proof.
  apply (unary_reg_form_leaves_tracker_unset (sampleSTI true) 0%nat 0%nat
           ValLoc_init (startState fnInc) (iINC8r (v 1) (v 0)) (v 1)
           true false [use (v 0); impDef rF]);
    reflexivity.
Defined.

(** X12: a flag-producing operation through a plain pointer, without
    explicit definitions, sets the memory fact to (pointer, 0) and keeps
    the register fact the tracker held: registers are matched after it
    as they were before it. *)
Theorem pointer_form_keeps_register_fact :
  forall (STI : Z80Subtarget) (b : nat) (id : InstrId) (L : ValLoc)
         (st : PassState) (MI : MachineInstr) (P : Register) (d i : bool),
    getInstr (Fn st) id = Ok MI ->
    isErased (Fn st) id = false ->
    pointerForm (getOpcode MI) = true ->
    Operands MI !! 0%nat = Some (MO_Register P d i) ->
    NumDefs (Desc MI) = 0%nat ->
    processInstr STI b id L st = Ok (setMem L P 0, st) /\
    (forall R, matchesReg (setMem L P 0) R = matchesReg L R) /\
    matchesMem (setMem L P 0) P 0 = isValid P.
Proof.
  intros STI b id L st MI P d i Hget Hlive Hopc Hop0 Hnd.
  assert (Hc : combine STI b id MI L st = Ok (setMem L P 0, st)).
  { unfold combine. destruct (getOpcode MI); try discriminate;
      unfold setPtr; rewrite (getOperandReg_lookup _ _ _ _ _ Hop0);
      reflexivity. }
  split; [|split].
  - unfold processInstr. rewrite Hget. simpl. rewrite Hc. simpl.
    rewrite Hget. simpl. rewrite (clobberDefs_no_explicit _ _ _ Hnd). simpl.
    rewrite Hlive. destruct st; reflexivity.
  - reflexivity.
  - unfold matchesMem, setMem. cbn [Base Off]. rewrite !Z.eqb_refl.
    destruct (isValid P); reflexivity.
Qed.

(** The theorem on the increment through [HL] of [fnAddIncpOr], met with
    the tracker on the accumulator: the accumulator is still matched. *)
Lemma pointer_form_keeps_register_fact_witness :
  processInstr (sampleSTI true) 0%nat 1%nat (setReg ValLoc_init rA)
               (startState fnAddIncpOr)
    = Ok (setMem (setReg ValLoc_init rA) rHL 0, startState fnAddIncpOr) /\
  matchesReg (setMem (setReg ValLoc_init rA) rHL 0) rA = true.
Proof.
  destruct (pointer_form_keeps_register_fact (sampleSTI true) 0%nat 1%nat
              (setReg ValLoc_init rA) (startState fnAddIncpOr)
              (iINC8p rHL) rHL false false) as (H1 & H2 & _);
    try reflexivity.
  split; [exact H1|]. rewrite H2. reflexivity.
Defined.

Example run_fnAddIncpOr :
  runBlocks (sampleSTI true) fnAddIncpOr = Some [[iADD8ar (v 0); iINC8p rHL]].
Proof. vm_compute. reflexivity. Qed.

(** ** Reads after erasure *)

(** X13: within one loop iteration on a linked instruction, the check
    after the switch reads an erased instruction only on the self-OR
    deletion path: the log of such reads grows only when the instruction
    is an [OR8ar] that its own rule erased, and then by that instruction.
    The fusion rule erases a different instruction than the one the
    check reads. *)
Theorem stale_read_only_after_self_or :
  forall (STI : Z80Subtarget) (b : nat) (id : InstrId) (L L' : ValLoc)
         (st st' : PassState) (MI : MachineInstr),
    getInstr (Fn st) id = Ok MI ->
    isErased (Fn st) id = false ->
    processInstr STI b id L st = Ok (L', st') ->
    StaleReads st' = StaleReads st \/
    (getOpcode MI = OR8ar /\
     Fn st' = eraseFromParent (Fn st) id /\
     StaleReads st' = id :: StaleReads st).
Proof.
  intros STI b id L L' st st' MI Hget Hlive H.
  unfold processInstr in H. rewrite Hget in H. simpl in H.
  apply bind_Ok_inv in H as ([L1 st1] & Hc & H).
  apply bind_Ok_inv in H as (MI1 & _ & H).
  apply bind_Ok_inv in H as (L2 & _ & H).
  injection H as _ <-.
  apply combine_effect in Hc
    as [->|[[Ho ->]|[[Ho (RC & New & MI3 & ->)]|
        (Q & SrcReg & sid & SrcMI & MI' & Hop & _ & _ & _ & Hg & Hl & ->)]]].
  - left. rewrite Hlive. reflexivity.
  - right. simpl. rewrite isErased_eraseFromParent. simpl. auto.
  - left. unfold isErased in *. simpl. rewrite Hlive. reflexivity.
  - left.
    assert (Hne : id <> sid).
    { intros ->. rewrite Hget in Hg. injection Hg as <-.
      rewrite Hop in Hl. destruct Q; discriminate. }
    unfold isErased in *. simpl.
    rewrite bool_decide_eq_false in Hlive.
    rewrite bool_decide_eq_false_2; [reflexivity|].
    intros Hin. apply elem_of_cons in Hin as [?|?]; [congruence | contradiction].
Qed.

(** The theorem on the push of [fnLeaPush5], whose rule erases the
    instruction before it. *)
Lemma stale_read_only_after_self_or_witness :
  exists L' st',
    processInstr (sampleSTI true) 0%nat 1%nat ValLoc_init
                 (startState fnLeaPush5) = Ok (L', st') /\
    (StaleReads st' = [] \/
     (getOpcode (iPUSH24r (v 1)) = OR8ar /\
      Fn st' = eraseFromParent fnLeaPush5 1%nat /\
      StaleReads st' = [1%nat])).
Proof.
  eexists. eexists. split; [vm_compute; reflexivity|].
  eapply (stale_read_only_after_self_or (sampleSTI true) 0%nat 1%nat
            ValLoc_init _ (startState fnLeaPush5) _ (iPUSH24r (v 1)));
    [reflexivity | reflexivity | vm_compute; reflexivity].
Defined.

(** ** What the pass erases *)

Lemma getInstr_Some (MF : MachineFunction) (id : InstrId) (MI : MachineInstr) :
  getInstr MF id = Ok MI <-> Instrs MF !! id = Some MI.
Proof.
  unfold getInstr. destruct (Instrs MF !! id); split; congruence.
Qed.

Lemma push_def_distinct (MF : MachineFunction) (id sid : InstrId)
  (MI SrcMI : MachineInstr) (Q : bool) :
  getInstr MF id = Ok MI ->
  getInstr MF sid = Ok SrcMI ->
  getOpcode MI = (if Q then PUSH24r else PUSH16r) ->
  getOpcode SrcMI = (if Q then LEA24ro else LEA16ro) ->
  id <> sid.
Proof.
  intros Hget Hg Hop Hl ->. rewrite Hget in Hg. injection Hg as <-.
  rewrite Hop in Hl. destruct Q; discriminate.
Qed.

(** X14: the pass erases nothing but self-ORs and load-effective-address
    instructions: every instruction in the erase log of the result was
    there on entry or is stored with opcode [OR8ar], [LEA16ro] or
    [LEA24ro]. *)
Theorem only_self_or_and_lea_erased :
  forall (STI : Z80Subtarget) (MF : MachineFunction) (st' : PassState),
    runOnMachineFunction STI MF = Ok st' ->
    forall id, id ∈ Erased (Fn st') ->
      id ∈ Erased MF \/
      exists MI, Instrs (Fn st') !! id = Some MI /\
                 erasable (getOpcode MI) = true.
Proof.
  intros STI MF st' Hrun.
  apply (runOnMachineFunction_invariant STI
           (fun st => forall j, j ∈ Erased (Fn st) ->
              j ∈ Erased MF \/
              exists MI, Instrs (Fn st) !! j = Some MI /\
                         erasable (getOpcode MI) = true))
    with (MF := MF); [|tauto|exact Hrun].
  intros b id L L' st st1 MI HP Hget Hlive Hstep.
  unfold isErased in Hlive. rewrite bool_decide_eq_false in Hlive.
  pose proof (getInstr_lt _ _ _ Hget) as Hlt.
  assert (Hkeep : forall (Is : list MachineInstr) j,
             (forall k MIk, k <> id -> Instrs (Fn st) !! k = Some MIk ->
                            Is !! k = Some MIk) ->
             j ∈ Erased (Fn st) ->
             j ∈ Erased MF \/
             exists MIj, Is !! j = Some MIj /\ erasable (getOpcode MIj) = true).
  { intros Is j HIs Hj. destruct (HP j Hj) as [H|(MIj & Hl & He)];
      [left; exact H|]. right. exists MIj. split; [|exact He].
    apply HIs; [congruence | exact Hl]. }
  destruct (processInstr_effect _ _ _ _ _ _ _ _ Hget Hstep)
    as [[-> _]|[(Ho & -> & _)|[(_ & _ & RC & New & MI3 & ->)|
        (_ & Q & SrcReg & sid & SrcMI & MI' & Hop & _ & _ & Hg & Hl & ->)]]].
  - exact HP.
  - intros j Hj. simpl in Hj. apply elem_of_cons in Hj as [->|Hj].
    + right. exists MI. split; [apply getInstr_Some; exact Hget|].
      rewrite Ho. reflexivity.
    + apply (HP j Hj).
  - intros j Hj. simpl in Hj |- *. apply Hkeep; [|exact Hj].
    intros k MIk Hne Hk. rewrite list_lookup_insert_ne by congruence.
    apply lookup_app_l_Some. exact Hk.
  - pose proof (push_def_distinct _ _ _ _ _ _ Hget Hg Hop Hl) as Hne.
    assert (HIs : forall k MIk, k <> id -> Instrs (Fn st) !! k = Some MIk ->
                    <[id:=MI']> (Instrs (Fn st)) !! k = Some MIk).
    { intros k MIk Hk Hl'. rewrite list_lookup_insert_ne by congruence.
      exact Hl'. }
    intros j Hj. simpl in Hj |- *. apply elem_of_cons in Hj as [->|Hj].
    + right. exists SrcMI. split.
      * apply HIs; [congruence | apply getInstr_Some; exact Hg].
      * rewrite Hl. destruct Q; reflexivity.
    + apply Hkeep; assumption.
Qed.

(** The theorem on [fnLeaPush5], where the run erases the
    load-effective-address instruction 0. *)
Lemma only_self_or_and_lea_erased_witness :
  exists st',
    runOnMachineFunction (sampleSTI true) fnLeaPush5 = Ok st' /\
    (0%nat ∈ Erased fnLeaPush5 \/
     exists MI, Instrs (Fn st') !! 0%nat = Some MI /\
                erasable (getOpcode MI) = true).
Proof.
  eexists. split; [vm_compute; reflexivity|].
  eapply (only_self_or_and_lea_erased (sampleSTI true) fnLeaPush5);
    [vm_compute; reflexivity|].
  apply elem_of_cons. left. reflexivity.
Defined.

(** ** Copies into the stack pointers *)

Lemma index2VirtReg_ge (n : nat) : 2 ^ 31 <= index2VirtReg n.
Proof.
  unfold index2VirtReg, VirtualRegFlag.
  assert (H0 : 0 <= Z.lor (Z.of_nat n) (2 ^ 31)) by (apply Z.lor_nonneg; lia).
  destruct (Z.lt_ge_cases (Z.lor (Z.of_nat n) (2 ^ 31)) (2 ^ 31))
    as [Hlt|]; [|assumption].
  exfalso.
  assert (Hb : Z.testbit (Z.lor (Z.of_nat n) (2 ^ 31)) 31 = true).
  { rewrite Z.lor_spec, (Z.pow2_bits_true 31) by lia. apply orb_true_r. }
  assert (Hf : Z.testbit (Z.lor (Z.of_nat n) (2 ^ 31)) 31 = false).
  { destruct (Z.eq_dec (Z.lor (Z.of_nat n) (2 ^ 31)) 0) as [->|Hne];
      [apply Z.bits_0|].
    apply Z.bits_above_log2; [assumption|]. apply Z.log2_lt_pow2; lia. }
  congruence.
Qed.

Lemma index2VirtReg_not_physical (n : nat) (R : Register) :
  isPhysical R = true -> (index2VirtReg n =? R) = false.
Proof.
  intros HR. unfold isPhysical, FirstStackSlot in HR.
  apply andb_true_iff in HR as [_ H]. apply Z.ltb_lt in H.
  pose proof (index2VirtReg_ge n). apply Z.eqb_neq. lia.
Qed.

Lemma getOperandReg_inv (MI : MachineInstr) (n : nat) (R : Register) :
  getOperandReg MI n = Ok R ->
  exists d i, Operands MI !! n = Some (MO_Register R d i).
Proof.
  unfold getOperandReg, getOperand.
  destruct (Operands MI !! n) as [[R' d i| |]|]; simpl; try discriminate.
  intros [= ->]. eauto.
Qed.

Lemma needsLegal_other_opcode (STI : Z80Subtarget) (MI : MachineInstr) :
  getOpcode MI <> COPY -> needsLegal STI MI = false.
Proof.
  intros H. unfold needsLegal. destruct (getOpcode MI); congruence.
Qed.

Lemma combineCopy_precise (STI : Z80Subtarget) (b : nat) (id : InstrId)
  (MI : MachineInstr) (L L1 : ValLoc) (st st1 : PassState) :
  coherent STI ->
  isPhysical (Z80_SPS STI) = true ->
  isPhysical (Z80_SPL STI) = true ->
  getOpcode MI = COPY ->
  combineCopy STI b id MI L st = Ok (L1, st1) ->
  (st1 = st /\ needsLegal STI MI = false) \/
  exists RC New MI3,
    needsLegal STI New = false /\ needsLegal STI MI3 = false /\
    st1 = markChanged st
            (setInstr (insertInstr (snd (createVirtualRegister (Fn st) RC))
                                   b id New) id MI3).
Proof.
  intros Hcoh HS HL Hopc H. unfold combineCopy in H.
  apply bind_Ok_inv in H as (m & _ & H).
  apply bind_Ok_inv in H as (L0 & _ & H).
  apply bind_Ok_inv in H as (DstReg & HDst & H).
  destruct (negb (DstReg =? Z80_SPS STI) && negb (DstReg =? Z80_SPL STI))
    eqn:Hsp.
  - left. split; [congruence|].
    apply getOperandReg_inv in HDst as (d & i & Hop0).
    unfold needsLegal. rewrite Hopc, Hop0.
    apply andb_true_iff in Hsp as [H1 H2].
    apply negb_true_iff in H1. apply negb_true_iff in H2.
    rewrite H1, H2. reflexivity.
  - right. simpl in H.
    apply bind_Ok_inv in H as (Src & _ & H).
    apply bind_Ok_inv in H as (MI2 & H2 & H).
    apply bind_Ok_inv in H as (MI3 & H3 & H).
    injection H as _ <-.
    eexists _, _, MI3. split; [|split; [|reflexivity]].
    + unfold needsLegal, getOpcode, addOperand. cbn [Desc Operands].
      rewrite Hcoh.
      destruct (isImpReg Src);
        cbn [app addExplicit forallb isImpReg andb lookup list_lookup];
        rewrite !index2VirtReg_not_physical by assumption; reflexivity.
    + apply needsLegal_other_opcode. unfold getOpcode.
      unfold removeOperand in H2.
      destruct (0 <? length (Operands (setDesc MI _)))%nat; [|discriminate].
      injection H2 as <-.
      unfold setOperandReg in H3.
      apply bind_Ok_inv in H3 as (MO & _ & H3).
      apply bind_Ok_inv in H3 as (MO' & _ & H3).
      injection H3 as <-. cbn [Desc setDesc]. rewrite Hcoh.
      destruct (DstReg =? Z80_SPL STI); discriminate.
Qed.

Lemma combinePush_precise (STI : Z80Subtarget) (Q : bool) (id : InstrId)
  (MI : MachineInstr) (L L1 : ValLoc) (st st1 : PassState) :
  coherent STI ->
  getOpcode MI = (if Q then PUSH24r else PUSH16r) ->
  combinePush STI Q id MI L st = Ok (L1, st1) ->
  st1 = st \/
  exists sid SrcMI MI',
    needsLegal STI MI' = false /\
    getInstr (Fn st) sid = Ok SrcMI /\
    getOpcode SrcMI = (if Q then LEA24ro else LEA16ro) /\
    st1 = markChanged st (eraseFromParent (setInstr (Fn st) id MI') sid).
Proof.
  intros Hcoh Hopc H. unfold combinePush in H.
  destruct (negb (hasEZ80Ops STI)); [left; congruence|].
  apply bind_Ok_inv in H as (SrcReg & HSrc & H).
  destruct (hasOneUse (Fn st) SrcReg); simpl in H; [|left; congruence].
  apply bind_Ok_inv in H as (dd & Hd & H).
  destruct dd as [sid|]; [|left; congruence].
  apply bind_Ok_inv in H as (SrcMI & Hg & H).
  destruct (bool_decide (getOpcode SrcMI = (if Q then LEA24ro else LEA16ro)))
    eqn:Hlea; simpl in H; [|left; congruence].
  apply bool_decide_eq_true_1 in Hlea.
  apply bind_Ok_inv in H as (BaseMO & _ & H).
  apply bind_Ok_inv in H as (OffMO & _ & H).
  apply bind_Ok_inv in H as (NewOff & _ & H).
  apply bind_Ok_inv in H as (MI' & HMI' & H).
  injection H as _ <-.
  right. exists sid, SrcMI, MI'. repeat split; try assumption.
  apply needsLegal_other_opcode. unfold getOpcode.
  destruct (negb (isReg BaseMO) || negb (NewOff =? 0)).
  - apply bind_Ok_inv in HMI' as (MI1 & H1 & HMI').
    injection HMI' as <-. cbn [addOperand Desc setDesc]. rewrite Hcoh.
    destruct Q; discriminate.
  - apply bind_Ok_inv in HMI' as (B & _ & HMI').
    unfold setOperandReg in HMI'.
    apply bind_Ok_inv in HMI' as (MO & _ & HMI').
    apply bind_Ok_inv in HMI' as (MO' & _ & HMI').
    injection HMI' as <-. cbn [Desc].
    unfold getOpcode in Hopc. rewrite Hopc. destruct Q; discriminate.
Qed.

Lemma combine_precise (STI : Z80Subtarget) (b : nat) (id : InstrId)
  (MI : MachineInstr) (L L1 : ValLoc) (st st1 : PassState) :
  coherent STI ->
  isPhysical (Z80_SPS STI) = true ->
  isPhysical (Z80_SPL STI) = true ->
  combine STI b id MI L st = Ok (L1, st1) ->
  (st1 = st /\ needsLegal STI MI = false) \/
  (getOpcode MI = OR8ar /\ st1 = withFn st (eraseFromParent (Fn st) id)) \/
  (exists RC New MI3,
      needsLegal STI New = false /\ needsLegal STI MI3 = false /\
      st1 = markChanged st
              (setInstr (insertInstr (snd (createVirtualRegister (Fn st) RC))
                                     b id New) id MI3)) \/
  (exists Q sid SrcMI MI',
      needsLegal STI MI' = false /\
      getOpcode MI = (if Q : bool then PUSH24r else PUSH16r) /\
      getInstr (Fn st) sid = Ok SrcMI /\
      getOpcode SrcMI = (if Q then LEA24ro else LEA16ro) /\
      st1 = markChanged st (eraseFromParent (setInstr (Fn st) id MI') sid)).
Proof.
  intros Hcoh HS HL. unfold combine.
  destruct (getOpcode MI) eqn:Hopc; intros H;
    try (left; split;
         [inv_res; congruence
         | apply needsLegal_other_opcode; rewrite Hopc; discriminate]).
  - apply combineCopy_precise in H as [H|H]; try assumption;
      [left; exact H | right; right; left; exact H].
  - apply (combinePush_precise STI false) in H
      as [->|(sid & SrcMI & MI' & H)]; try assumption.
    + left. split; [reflexivity|].
      apply needsLegal_other_opcode. rewrite Hopc. discriminate.
    + right. right. right. exists false, sid, SrcMI, MI'. tauto.
  - apply (combinePush_precise STI true) in H
      as [->|(sid & SrcMI & MI' & H)]; try assumption.
    + left. split; [reflexivity|].
      apply needsLegal_other_opcode. rewrite Hopc. discriminate.
    + right. right. right. exists true, sid, SrcMI, MI'. tauto.
  - inv_res.
    + right. left. split; [reflexivity | congruence].
    + left. split; [congruence|].
      apply needsLegal_other_opcode. rewrite Hopc. discriminate.
Qed.

Lemma later_split (MF : MachineFunction) (b : nat) :
  later MF b = default [] (Blocks MF !! b) ++ later MF (S b).
Proof.
  unfold later. destruct (Blocks MF !! b) as [blk|] eqn:Hb.
  - rewrite (drop_S _ _ _ Hb). reflexivity.
  - apply lookup_ge_None in Hb. rewrite !drop_ge by lia. reflexivity.
Qed.

Lemma later_erase (MF : MachineFunction) (x : InstrId) (b : nat) (j : InstrId) :
  j ∈ later MF b -> j <> x -> j ∈ later (eraseFromParent MF x) b.
Proof.
  unfold later. simpl. intros Hin Hne.
  rewrite <- fmap_drop, concat_filter_blocks.
  apply list_elem_of_filter. split; assumption.
Qed.

Lemma linked_erase (MF : MachineFunction) (x j : InstrId) :
  j ∈ concat (Blocks (eraseFromParent MF x)) ->
  j <> x /\ j ∈ concat (Blocks MF).
Proof.
  simpl. rewrite concat_filter_blocks. intros H.
  apply list_elem_of_filter in H. exact H.
Qed.

Lemma legalAt_same (STI : Z80Subtarget) (MF MF' : MachineFunction)
  (j : InstrId) :
  getInstr MF' j = getInstr MF j -> legalAt STI MF j -> legalAt STI MF' j.
Proof. unfold legalAt. intros ->. auto. Qed.

Lemma legalAt_stored (STI : Z80Subtarget) (MF : MachineFunction)
  (j : InstrId) (MI : MachineInstr) :
  getInstr MF j = Ok MI -> needsLegal STI MI = false -> legalAt STI MF j.
Proof. unfold legalAt. intros -> H MI' [= <-]. exact H. Qed.

Lemma walkInv_step (STI : Z80Subtarget) (b : nat) (id : InstrId)
  (rest : list InstrId) (L L' : ValLoc) (st st' : PassState) :
  coherent STI ->
  isPhysical (Z80_SPS STI) = true ->
  isPhysical (Z80_SPL STI) = true ->
  walkInv STI b (id :: rest) st ->
  processInstr STI b id L st = Ok (L', st') ->
  walkInv STI b rest st'.
Proof.
  intros Hcoh HS HL [Hwf HQ] Hstep.
  destruct (processInstr_getInstr _ _ _ _ _ _ _ Hstep) as [MI Hget].
  pose proof (getInstr_lt _ _ _ Hget) as Hlt.
  pose proof Hstep as H. unfold processInstr in H.
  rewrite Hget in H. simpl in H.
  apply bind_Ok_inv in H as ([L1 st1] & Hc & H).
  apply bind_Ok_inv in H as (MI1 & _ & H).
  apply bind_Ok_inv in H as (L2 & _ & H).
  assert (HFn : Fn st' = Fn st1).
  { injection H as _ <-. destruct (isErased (Fn st1) id); reflexivity. }
  unfold walkInv. rewrite HFn. clear H HFn Hstep.
  assert (Hold : forall j, j ∈ concat (Blocks (Fn st)) -> j <> id ->
                   legalAt STI (Fn st) j \/ j ∈ rest \/
                   j ∈ later (Fn st) (S b)).
  { intros j Hj Hne. destruct (HQ j Hj) as [H|[H|H]]; [tauto| |tauto].
    apply elem_of_cons in H as [->|H]; [congruence | tauto]. }
  apply combine_precise in Hc
    as [[-> Hleg]|[[Ho ->]|[(RC & New & MI3 & HN & H3 & ->)|
        (Q & sid & SrcMI & MI' & HM & Hop & Hg & Hl & ->)]]];
    try assumption.
  - split; [exact Hwf|]. intros j Hj.
    destruct (Nat.eq_dec j id) as [->|Hne]; [|auto].
    left. apply (legalAt_stored _ _ _ MI); assumption.
  - split; [apply wellFormed_erase; assumption|]. intros j Hj.
    apply linked_erase in Hj as [Hne Hj].
    destruct (Hold j Hj Hne) as [H|[H|H]]; [left; exact H | tauto |].
    right. right. apply later_erase; assumption.
  - split.
    { apply wellFormed_setInstr, wellFormed_insertInstr,
        wellFormed_createVirtualRegister. exact Hwf. }
    intros j Hj. simpl in Hj.
    assert (Hlook : forall k, k <> id ->
              getInstr (setInstr (insertInstr
                          (snd (createVirtualRegister (Fn st) RC)) b id New)
                          id MI3) k
              = getInstr (mkMF [] (Instrs (Fn st) ++ [New]) [] []) k).
    { intros k Hk. unfold getInstr. simpl.
      rewrite list_lookup_insert_ne by congruence. reflexivity. }
    destruct (Nat.eq_dec j id) as [->|Hne].
    { left. apply (legalAt_stored _ _ _ MI3); [|exact H3].
      unfold getInstr. simpl. rewrite list_lookup_insert_eq; [reflexivity|].
      rewrite length_app. simpl. lia. }
    destruct (concat_alter_insertBefore id (length (Instrs (Fn st)))
                (Blocks (Fn st)) b) as [He|He]; rewrite He in Hj.
    + destruct (Hold j Hj Hne) as [H|[H|H]]; [left | tauto |].
      * destruct Hwf as (HA & _). destruct (HA j Hj) as [Hjlt _].
        eapply legalAt_same; [|exact H]. rewrite Hlook by exact Hne.
        unfold getInstr. simpl. rewrite lookup_app_l by exact Hjlt.
        reflexivity.
      * right. right. unfold later in *. simpl.
        rewrite drop_alter_lt by lia. exact H.
    + apply elem_of_cons in Hj as [->|Hj].
      * left. apply (legalAt_stored _ _ _ New); [|exact HN].
        rewrite Hlook by lia. unfold getInstr. simpl.
        rewrite list_lookup_middle by reflexivity. reflexivity.
      * destruct (Hold j Hj Hne) as [H|[H|H]]; [left | tauto |].
        -- destruct Hwf as (HA & _). destruct (HA j Hj) as [Hjlt _].
           eapply legalAt_same; [|exact H]. rewrite Hlook by exact Hne.
           unfold getInstr. simpl. rewrite lookup_app_l by exact Hjlt.
           reflexivity.
        -- right. right. unfold later in *. simpl.
           rewrite drop_alter_lt by lia. exact H.
  - assert (Hwf1 : wellFormed (setInstr (Fn st) id MI'))
      by (apply wellFormed_setInstr; exact Hwf).
    split.
    { apply wellFormed_erase; [exact Hwf1|]. simpl. rewrite length_insert.
      apply (getInstr_lt _ _ _ Hg). }
    intros j Hj. apply linked_erase in Hj as [Hnes Hj]. simpl in Hj.
    destruct (Nat.eq_dec j id) as [->|Hne].
    { left. apply (legalAt_stored _ _ _ MI'); [|exact HM].
      unfold getInstr. simpl. rewrite list_lookup_insert_eq by exact Hlt.
      reflexivity. }
    destruct (Hold j Hj Hne) as [H|[H|H]]; [left | tauto |].
    + eapply legalAt_same; [|exact H]. unfold getInstr. simpl.
      rewrite list_lookup_insert_ne by congruence. reflexivity.
    + right. right.
      apply (later_erase (setInstr (Fn st) id MI') sid (S b) j);
        [exact H | exact Hnes].
Qed.

Lemma walkBlock_walkInv (STI : Z80Subtarget) (b : nat) :
  coherent STI ->
  isPhysical (Z80_SPS STI) = true ->
  isPhysical (Z80_SPL STI) = true ->
  forall (pending : list InstrId) (L : ValLoc) (st st' : PassState),
    walkInv STI b pending st ->
    walkBlock STI b pending L st = Ok st' ->
    walkInv STI b [] st'.
Proof.
  intros Hcoh HS HL.
  induction pending as [|id rest IH]; simpl; intros L st st' HI H.
  - congruence.
  - destruct (isErased (Fn st) id) eqn:Hlive.
    + apply (IH L st st'); [|exact H].
      destruct HI as [Hwf HQ]. split; [exact Hwf|]. intros j Hj.
      destruct (HQ j Hj) as [Hl|[Hp|Hl]]; [tauto| |tauto].
      apply elem_of_cons in Hp as [->|Hp]; [|tauto].
      exfalso. destruct Hwf as (HA & _). destruct (HA _ Hj) as [_ Hn].
      unfold isErased in Hlive. apply bool_decide_eq_true_1 in Hlive.
      contradiction.
    + apply bind_Ok_inv in H as ([L1 st1] & Hstep & H).
      pose proof (walkInv_step STI b id rest L L1 st st1 Hcoh HS HL HI Hstep)
        as HI1.
      destruct (nextLinked (Fn st) rest) as [j|];
        [destruct (isErased (Fn st1) j); [discriminate|]|]; eauto.
Qed.

Lemma walkBlocks_legal (STI : Z80Subtarget) :
  coherent STI ->
  isPhysical (Z80_SPS STI) = true ->
  isPhysical (Z80_SPL STI) = true ->
  forall (n b : nat) (st st' : PassState),
    wellFormed (Fn st) ->
    (forall j, j ∈ concat (Blocks (Fn st)) ->
               legalAt STI (Fn st) j \/ j ∈ later (Fn st) b) ->
    walkBlocks STI b n st = Ok st' ->
    wellFormed (Fn st') /\
    (forall j, j ∈ concat (Blocks (Fn st')) ->
               legalAt STI (Fn st') j \/ j ∈ later (Fn st') (b + n)).
Proof.
  intros Hcoh HS HL.
  induction n as [|n IH]; simpl; intros b st st' Hwf HQ H.
  - injection H as <-. rewrite Nat.add_0_r. split; assumption.
  - apply bind_Ok_inv in H as (st1 & Hw & H).
    apply (walkBlock_walkInv STI b Hcoh HS HL) in Hw.
    + destruct Hw as [Hwf1 HQ1].
      replace (b + S n)%nat with (S b + n)%nat by lia.
      apply (IH (S b) st1 st'); [exact Hwf1| |exact H].
      intros j Hj. destruct (HQ1 j Hj) as [Hl|[Hp|Hl]];
        [tauto | inversion Hp | tauto].
    + split; [exact Hwf|]. intros j Hj.
      destruct (HQ j Hj) as [Hl|Hl]; [tauto|].
      rewrite later_split in Hl. apply elem_of_app in Hl. tauto.
Qed.

Lemma processInstr_block_count (STI : Z80Subtarget) (b : nat) (id : InstrId)
  (L L' : ValLoc) (st st' : PassState) (MI : MachineInstr) :
  getInstr (Fn st) id = Ok MI ->
  processInstr STI b id L st = Ok (L', st') ->
  length (Blocks (Fn st')) = length (Blocks (Fn st)).
Proof.
  intros Hget Hstep.
  destruct (processInstr_effect _ _ _ _ _ _ _ _ Hget Hstep)
    as [[-> _]|[(_ & -> & _)|[(_ & _ & RC & New & MI3 & ->)|
        (_ & Q & SrcReg & sid & SrcMI & MI' & _ & _ & _ & _ & _ & ->)]]];
    simpl; rewrite ?length_fmap, ?length_alter; reflexivity.
Qed.

Lemma runOnMachineFunction_block_count (STI : Z80Subtarget)
  (MF : MachineFunction) (st' : PassState) :
  runOnMachineFunction STI MF = Ok st' ->
  length (Blocks (Fn st')) = length (Blocks MF).
Proof.
  intros Hrun.
  apply (runOnMachineFunction_invariant STI
           (fun st => length (Blocks (Fn st)) = length (Blocks MF)))
    with (MF := MF); [|reflexivity|exact Hrun].
  intros b id L L' st st1 MI HP Hget _ Hstep.
  rewrite (processInstr_block_count _ _ _ _ _ _ _ _ Hget Hstep). exact HP.
Qed.

(** X15: what copy legalization achieves.  On a well-formed function,
    with a descriptor table that answers each opcode with a descriptor
    of that opcode and with physical stack-pointer registers, no
    instruction linked into the function the pass returns is a [COPY]
    whose destination is [SPS] or [SPL]. *)
Theorem no_stack_pointer_copy_after_pass :
  forall (STI : Z80Subtarget) (MF : MachineFunction) (st' : PassState),
    coherent STI ->
    isPhysical (Z80_SPS STI) = true ->
    isPhysical (Z80_SPL STI) = true ->
    wellFormed MF ->
    runOnMachineFunction STI MF = Ok st' ->
    forall (id : InstrId) (MI : MachineInstr),
      id ∈ concat (Blocks (Fn st')) ->
      getInstr (Fn st') id = Ok MI ->
      needsLegal STI MI = false.
Proof.
  intros STI MF st' Hcoh HS HL Hwf Hrun id MI Hin Hget.
  pose proof (runOnMachineFunction_block_count _ _ _ Hrun) as Hlen.
  unfold runOnMachineFunction in Hrun.
  apply (walkBlocks_legal STI Hcoh HS HL) in Hrun as [_ HQ].
  - destruct (HQ id Hin) as [Hl|Hl]; [exact (Hl MI Hget)|].
    unfold later in Hl. rewrite drop_ge in Hl by (simpl; lia).
    inversion Hl.
  - exact Hwf.
  - intros j Hj. right. unfold later. simpl. exact Hj.
Qed.

Lemma concat_numberBlocks (bs : list (list MachineInstr)) :
  forall n : nat,
    concat (numberBlocks n bs) = seq n (length (concat bs)).
Proof.
  induction bs as [|blk bs IH]; intros n; [reflexivity|].
  cbn [numberBlocks concat]. rewrite IH, length_app, seq_app. reflexivity.
Qed.

Lemma wellFormed_mkFunction (bs : list (list MachineInstr)) (nv : nat) :
  wellFormed (mkFunction bs nv).
Proof.
  unfold wellFormed, mkFunction. cbn [Blocks Instrs Erased].
  rewrite concat_numberBlocks. split; [|split].
  - intros id Hin. apply elem_of_seq in Hin.
    split; [lia | intros H; inversion H].
  - intros id Hin. inversion Hin.
  - apply NoDup_seq.
Qed.

(** The theorem on [fnTwoCopies], whose two copies into the stack
    pointers are rewritten. *)
Lemma no_stack_pointer_copy_after_pass_witness :
  exists st',
    runOnMachineFunction (sampleSTI true) fnTwoCopies = Ok st' /\
    forall (id : InstrId) (MI : MachineInstr),
      id ∈ concat (Blocks (Fn st')) ->
      getInstr (Fn st') id = Ok MI ->
      needsLegal (sampleSTI true) MI = false.
Proof.
  eexists. split; [vm_compute; reflexivity|].
  apply (no_stack_pointer_copy_after_pass (sampleSTI true) fnTwoCopies).
  - intros o. reflexivity.
  - reflexivity.
  - reflexivity.
  - apply wellFormed_mkFunction.
  - vm_compute. reflexivity.
Defined.

Example run_fnTwoCopies :
  runBlocks (sampleSTI true) fnTwoCopies
    = Some [[mk COPY [def (v 3); use (v 0)] 12; mk LD24sa [use (v 3)] 12;
             mk PEA24o [use (v 0); MO_Immediate 5; impDef rSPL; impUse rSPL] 15];
            [mk COPY [def (v 4); use (v 2)] 12; mk LD16sa [use (v 4)] 12]].
Proof. vm_compute. reflexivity. Qed.

(** ** What a run that reports no change can have done *)

(** X16: when the pass returns [false], it has rewritten no stored
    instruction and allocated no register; every linked instruction was
    linked on entry, and every instruction erased during the run is a
    stored [OR8ar].  So the only thing an unreported run can have done
    is to unlink self-ORs. *)
Theorem unreported_run_only_unlinks_self_or :
  forall (STI : Z80Subtarget) (MF : MachineFunction) (st' : PassState),
    runOnMachineFunction STI MF = Ok st' ->
    Changed st' = false ->
    Instrs (Fn st') = Instrs MF /\
    VRegs (Fn st') = VRegs MF /\
    (forall j, j ∈ concat (Blocks (Fn st')) -> j ∈ concat (Blocks MF)) /\
    (forall j, j ∈ Erased (Fn st') ->
               j ∈ Erased MF \/
               exists MI, Instrs MF !! j = Some MI /\ getOpcode MI = OR8ar).
Proof.
  intros STI MF st' Hrun.
  apply (runOnMachineFunction_invariant STI
           (fun st =>
              Changed st = false ->
              Instrs (Fn st) = Instrs MF /\
              VRegs (Fn st) = VRegs MF /\
              (forall j, j ∈ concat (Blocks (Fn st)) ->
                         j ∈ concat (Blocks MF)) /\
              (forall j, j ∈ Erased (Fn st) ->
                         j ∈ Erased MF \/
                         exists MI, Instrs MF !! j = Some MI /\
                                    getOpcode MI = OR8ar)))
    with (MF := MF); [| |exact Hrun].
  - intros b id L L' st st1 MI HP Hget _ Hstep Hch.
    destruct (processInstr_effect _ _ _ _ _ _ _ _ Hget Hstep)
      as [[HFn HC]|[(Ho & HFn & HC)|[(_ & HC & _)|(HC & _)]]];
      try congruence.
    + rewrite HFn. apply HP. congruence.
    + rewrite HC in Hch. destruct (HP Hch) as (HI & HV & HB & HE).
      rewrite HFn. simpl. repeat split; try assumption.
      * intros j Hj. apply HB.
        apply (linked_erase (Fn st) id j) in Hj as [_ Hj]. exact Hj.
      * intros j Hj. apply elem_of_cons in Hj as [->|Hj]; [|auto].
        right. exists MI. split; [|exact Ho].
        rewrite <- HI. apply getInstr_Some. exact Hget.
  - intros _. simpl. tauto.
Qed.

(** The theorem on [fnAddOr], where the run unlinks the self-OR and
    returns [false]. *)
Lemma unreported_run_only_unlinks_self_or_witness :
  exists st',
    runOnMachineFunction (sampleSTI true) fnAddOr = Ok st' /\
    Instrs (Fn st') = Instrs fnAddOr /\
    VRegs (Fn st') = VRegs fnAddOr.
Proof.
  eexists. split; [vm_compute; reflexivity|].
  destruct (unreported_run_only_unlinks_self_or (sampleSTI true) fnAddOr
              _ eq_refl eq_refl) as (HI & HV & _).
  split; assumption.
Defined.

(** ** Stores and loads through a pointer *)

(** X17: a store of a register through a plain pointer, without explicit
    definitions, never touches the function.  When the tracker matches
    the stored register it gains the memory fact (pointer, 0) and keeps
    matching the register; when it does not, it is left as it was. *)
Theorem store_through_pointer :
  forall (STI : Z80Subtarget) (b : nat) (id : InstrId) (L : ValLoc)
         (st : PassState) (MI : MachineInstr) (P Src : Register)
         (pd pi sd si : bool),
    getInstr (Fn st) id = Ok MI ->
    isErased (Fn st) id = false ->
    storePtrForm (getOpcode MI) = true ->
    Operands MI !! 0%nat = Some (MO_Register P pd pi) ->
    Operands MI !! 1%nat = Some (MO_Register Src sd si) ->
    NumDefs (Desc MI) = 0%nat ->
    processInstr STI b id L st
      = Ok (if matchesReg L Src then setMem L P 0 else L, st) /\
    (matchesReg L Src = true ->
     matchesReg (setMem L P 0) Src = true /\
     matchesMem (setMem L P 0) P 0 = isValid P).
Proof.
  intros STI b id L st MI P Src pd pi sd si Hget Hlive Hopc Hp Hs Hnd.
  assert (Hc : combine STI b id MI L st
               = Ok (if matchesReg L Src then setMem L P 0 else L, st)).
  { unfold combine. destruct (getOpcode MI); try discriminate;
      unfold matchesRegMI, setPtr;
      rewrite (getOperandReg_lookup _ _ _ _ _ Hs); simpl;
      destruct (matchesReg L Src); simpl;
      rewrite ?(getOperandReg_lookup _ _ _ _ _ Hp); reflexivity. }
  split.
  - unfold processInstr. rewrite Hget. simpl. rewrite Hc. simpl.
    rewrite Hget. simpl. rewrite (clobberDefs_no_explicit _ _ _ Hnd). simpl.
    rewrite Hlive. destruct st; reflexivity.
  - intros Hm. split; [exact Hm|].
    unfold matchesMem, setMem. cbn [Base Off]. rewrite !Z.eqb_refl.
    destruct (isValid P); reflexivity.
Qed.

(** The theorem on the store of [fnAddStoreLoad], met with the tracker
    on the accumulator. *)
Lemma store_through_pointer_witness :
  processInstr (sampleSTI true) 0%nat 1%nat (setReg ValLoc_init rA)
               (startState fnAddStoreLoad)
    = Ok (setMem (setReg ValLoc_init rA) rHL 0, startState fnAddStoreLoad).
Proof.
  exact (proj1 (store_through_pointer (sampleSTI true) 0%nat 1%nat
                  (setReg ValLoc_init rA) (startState fnAddStoreLoad)
                  (iLD8pr rHL rA) rHL rA false false false false
                  eq_refl eq_refl eq_refl eq_refl eq_refl eq_refl)).
Defined.

(** X18: a load of a register through a plain pointer whose address the
    tracker matches leaves the tracker unset, on any target whose oracle
    lets a register overlap itself: the rule moves the tracker to the
    loaded register, the one explicit definition of the load, and the
    check clears it.  The function is not touched. *)
Theorem matched_load_leaves_tracker_unset :
  forall (STI : Z80Subtarget) (b : nat) (id : InstrId) (L : ValLoc)
         (st : PassState) (MI : MachineInstr) (Dst P : Register)
         (d i pd pi : bool),
    getInstr (Fn st) id = Ok MI ->
    isErased (Fn st) id = false ->
    loadPtrForm (getOpcode MI) = true ->
    Operands MI = [MO_Register Dst d i; MO_Register P pd pi] ->
    NumDefs (Desc MI) = 1%nat ->
    isValid Dst = true ->
    regsOverlap STI Dst Dst = true ->
    matchesMem L P 0 = true ->
    combine STI b id MI L st = Ok (setReg L Dst, st) /\
    processInstr STI b id L st = Ok (ValLoc_init, st).
Proof.
  intros STI b id L st MI Dst P d i pd pi Hget Hlive Hopc Hops Hnd Hv Ho Hm.
  assert (Hc : combine STI b id MI L st = Ok (setReg L Dst, st)).
  { unfold combine. destruct (getOpcode MI); try discriminate;
      unfold matchesPtr, setRegMI, getOperandReg, getOperand;
      rewrite Hops; simpl; rewrite Hm; reflexivity. }
  split; [exact Hc|].
  unfold processInstr. rewrite Hget. simpl. rewrite Hc. simpl.
  rewrite Hget. simpl.
  rewrite (clobberDefs_own_destination STI L MI Dst d i _ Hops Hnd Hv Ho).
  simpl. rewrite Hlive. reflexivity.
Qed.

(** The theorem on the load of [fnAddStoreLoad], met with the tracker as
    the store before it leaves it. *)
Lemma matched_load_leaves_tracker_unset_witness :
  processInstr (sampleSTI true) 0%nat 2%nat
               (setMem (setReg ValLoc_init rA) rHL 0)
               (startState fnAddStoreLoad)
    = Ok (ValLoc_init, startState fnAddStoreLoad).
Proof.
  apply (matched_load_leaves_tracker_unset (sampleSTI true) 0%nat 2%nat
           (setMem (setReg ValLoc_init rA) rHL 0) (startState fnAddStoreLoad)
           (iLD8rp (v 1) rHL) (v 1) rHL true false false false);
    reflexivity.
Defined.

(** * Self-OR elimination over the whole pass *)

(** ** The tracker across one loop iteration *)

Lemma matchesReg_same_Reg (L L' : ValLoc) (R : Register) :
  Reg L' = Reg L -> matchesReg L' R = matchesReg L R.
Proof. unfold matchesReg. intros ->. reflexivity. Qed.

Lemma setRegMI_nonsetting (A : Register) (L L0 : ValLoc) (MI : MachineInstr) :
  setRegMI L MI 0 = Ok L0 ->
  match Operands MI !! 0%nat with
  | Some (MO_Register R _ _) => R =? A
  | _ => false
  end = false ->
  matchesReg L0 A = false.
Proof.
  unfold setRegMI. intros H Hns.
  apply bind_Ok_inv in H as (R & HR & H). injection H as <-.
  apply getOperandReg_inv in HR as (d & i & Hop). rewrite Hop in Hns.
  unfold matchesReg, setReg. cbn [Reg]. rewrite Hns. apply andb_false_r.
Qed.

Lemma retarget_reg_nonsetting (A : Register) (m : bool) (L L0 : ValLoc)
  (MI : MachineInstr) :
  (if m then setRegMI L MI 0 else Ok L) = Ok L0 ->
  match Operands MI !! 0%nat with
  | Some (MO_Register R _ _) => R =? A
  | _ => false
  end = false ->
  matchesReg L A = false ->
  matchesReg L0 A = false.
Proof.
  destruct m; intros H Hns HL.
  - eapply setRegMI_nonsetting; eassumption.
  - congruence.
Qed.

Lemma setPtr_Reg (L L0 : ValLoc) (MI : MachineInstr) (n : nat) :
  setPtr L MI n = Ok L0 -> Reg L0 = Reg L.
Proof.
  unfold setPtr. intros H. apply bind_Ok_inv in H as (B & _ & H).
  injection H as <-. reflexivity.
Qed.

Lemma setOff_Reg (L L0 : ValLoc) (MI : MachineInstr) (n : nat) :
  setOff L MI n = Ok L0 -> Reg L0 = Reg L.
Proof.
  unfold setOff. intros H. apply bind_Ok_inv in H as (B & _ & H).
  apply bind_Ok_inv in H as (MO & _ & H).
  apply bind_Ok_inv in H as (O & _ & H).
  injection H as <-. reflexivity.
Qed.

Lemma retarget_mem_Reg (m : bool) (L L0 : ValLoc) (r : res ValLoc) :
  (forall L', r = Ok L' -> Reg L' = Reg L) ->
  (if m then r else Ok L) = Ok L0 -> Reg L0 = Reg L.
Proof. destruct m; intros Hr H; [auto | congruence]. Qed.

Lemma combinePush_tracker (STI : Z80Subtarget) (Q : bool) (id : InstrId)
  (MI : MachineInstr) (L L1 : ValLoc) (st st1 : PassState) :
  combinePush STI Q id MI L st = Ok (L1, st1) -> L1 = L.
Proof.
  unfold combinePush. intros H.
  destruct (negb (hasEZ80Ops STI)); [congruence|].
  apply bind_Ok_inv in H as (SrcReg & _ & H).
  destruct (negb (hasOneUse (Fn st) SrcReg)); [congruence|].
  apply bind_Ok_inv in H as (dd & _ & H).
  destruct dd as [sid|]; [|congruence].
  apply bind_Ok_inv in H as (SrcMI & _ & H).
  destruct (negb (bool_decide
                    (getOpcode SrcMI = (if Q then LEA24ro else LEA16ro))));
    [congruence|].
  apply bind_Ok_inv in H as (BaseMO & _ & H).
  apply bind_Ok_inv in H as (OffMO & _ & H).
  apply bind_Ok_inv in H as (NewOff & _ & H).
  apply bind_Ok_inv in H as (MI' & _ & H).
  congruence.
Qed.

(** A rule that does not put the tracker on the accumulator leaves a
    tracker that did not match the accumulator not matching it. *)
Lemma combine_nonsetting (STI : Z80Subtarget) (b : nat) (id : InstrId)
  (MI : MachineInstr) (L L1 : ValLoc) (st st1 : PassState) :
  combine STI b id MI L st = Ok (L1, st1) ->
  setsTrackerToA STI MI = false ->
  matchesReg L (Z80_A STI) = false ->
  matchesReg L1 (Z80_A STI) = false.
Proof.
  unfold combine, setsTrackerToA.
  destruct (getOpcode MI) eqn:Hopc; intros H Hns HL; try discriminate;
    try (injection H as <- _; exact HL);
    try (apply bind_Ok_inv in H as (L0 & H0 & H); injection H as <- _;
         first [ rewrite (matchesReg_same_Reg L _ _ (setPtr_Reg _ _ _ _ H0))
               | rewrite (matchesReg_same_Reg L _ _ (setOff_Reg _ _ _ _ H0))
               | eapply setRegMI_nonsetting; eassumption ];
         exact HL);
    try (apply bind_Ok_inv in H as (m & _ & H);
         apply bind_Ok_inv in H as (L0 & H0 & H); injection H as <- _;
         first [ eapply retarget_reg_nonsetting; eassumption
               | rewrite (matchesReg_same_Reg L);
                 [exact HL
                 | eapply retarget_mem_Reg; [|exact H0]; intros L';
                   first [apply setPtr_Reg | apply setOff_Reg]] ]).
  - unfold combineCopy in H.
    apply bind_Ok_inv in H as (m & _ & H).
    apply bind_Ok_inv in H as (L0 & H0 & H).
    apply bind_Ok_inv in H as (DstReg & _ & H).
    assert (HL0 : matchesReg L0 (Z80_A STI) = false)
      by (eapply retarget_reg_nonsetting; eassumption).
    destruct (negb (DstReg =? Z80_SPS STI) && negb (DstReg =? Z80_SPL STI)).
    + injection H as <- _. exact HL0.
    + simpl in H.
      apply bind_Ok_inv in H as (Src & _ & H).
      apply bind_Ok_inv in H as (MI2 & _ & H).
      apply bind_Ok_inv in H as (MI3 & _ & H).
      injection H as <- _. exact HL0.
  - apply combinePush_tracker in H. subst. exact HL.
  - apply combinePush_tracker in H. subst. exact HL.
  - destruct (modifiesRegister STI MI (Z80_F STI)); injection H as <- _;
      [apply matchesReg_init | exact HL].
  - destruct (modifiesRegister STI MI (Z80_F STI)); injection H as <- _;
      [apply matchesReg_init | exact HL].
  - destruct (modifiesRegister STI MI (Z80_F STI)); injection H as <- _;
      [apply matchesReg_init | exact HL].
  - destruct (modifiesRegister STI MI (Z80_F STI)); injection H as <- _;
      [apply matchesReg_init | exact HL].
  - destruct (modifiesRegister STI MI (Z80_F STI)); injection H as <- _;
      [apply matchesReg_init | exact HL].
  - destruct (modifiesRegister STI MI (Z80_F STI)); injection H as <- _;
      [apply matchesReg_init | exact HL].
  - destruct (modifiesRegister STI MI (Z80_F STI)); injection H as <- _;
      [apply matchesReg_init | exact HL].
Qed.

Lemma processInstr_nonsetting (STI : Z80Subtarget) (b : nat) (id : InstrId)
  (L L' : ValLoc) (st st' : PassState) (MI : MachineInstr) :
  getInstr (Fn st) id = Ok MI ->
  setsTrackerToA STI MI = false ->
  matchesReg L (Z80_A STI) = false ->
  processInstr STI b id L st = Ok (L', st') ->
  matchesReg L' (Z80_A STI) = false.
Proof.
  intros Hget Hns HL H. unfold processInstr in H.
  rewrite Hget in H. simpl in H.
  apply bind_Ok_inv in H as ([L1 st1] & Hc & H).
  apply bind_Ok_inv in H as (MI1 & _ & H).
  apply bind_Ok_inv in H as (L2 & H2 & H).
  injection H as <- _.
  pose proof (combine_nonsetting _ _ _ _ _ _ _ _ Hc Hns HL) as HL1.
  unfold clobberDefs in H2. apply bind_Ok_inv in H2 as (Ds & _ & H2).
  destruct (clobberLoop_cases _ _ _ _ H2) as [->| ->];
    [exact HL1 | apply matchesReg_init].
Qed.

(** Accumulator arithmetic without explicit definitions puts the
    tracker on the accumulator and leaves the function alone. *)
Lemma processInstr_accArith (STI : Z80Subtarget) (b : nat) (id : InstrId)
  (L : ValLoc) (st : PassState) (MI : MachineInstr) :
  getInstr (Fn st) id = Ok MI ->
  isErased (Fn st) id = false ->
  accArith (getOpcode MI) = true ->
  NumDefs (Desc MI) = 0%nat ->
  processInstr STI b id L st = Ok (setReg L (Z80_A STI), st).
Proof.
  intros Hget Hlive Hopc Hnd.
  assert (Hc : combine STI b id MI L st = Ok (setReg L (Z80_A STI), st)).
  { unfold combine. destruct (getOpcode MI); try discriminate; reflexivity. }
  unfold processInstr. rewrite Hget. simpl. rewrite Hc. simpl.
  rewrite Hget. simpl. rewrite (clobberDefs_no_explicit _ _ _ Hnd). simpl.
  rewrite Hlive. destruct st; reflexivity.
Qed.

(** ** Instructions that wait for their visit *)

Lemma filter_erase_cons (x : InstrId) (E l : list InstrId) :
  filter (fun j => j ≠ x) (filter (fun j => j ∉ E) l)
  = filter (fun j => j ∉ x :: E) l.
Proof.
  induction l as [|j l IH]; [reflexivity|].
  rewrite (filter_cons (fun j => j ∉ E)), (filter_cons (fun j => j ∉ x :: E)).
  destruct (decide (j ∉ E)) as [HE|HE].
  - rewrite filter_cons. destruct (decide (j ≠ x)) as [Hx|Hx];
      destruct (decide (j ∉ x :: E)) as [HxE|HxE].
    + rewrite IH. reflexivity.
    + exfalso. apply HxE. intros Hin.
      apply elem_of_cons in Hin as [?|?]; contradiction.
    + exfalso. apply HxE. apply elem_of_cons. left.
      destruct (Nat.eq_dec j x); [assumption | contradiction].
    + exact IH.
  - destruct (decide (j ∉ x :: E)) as [HxE|HxE]; [|exact IH].
    exfalso. apply HE. intros Hin. apply HxE. apply elem_of_cons. right.
    exact Hin.
Qed.

Lemma filter_all_in (P : InstrId -> Prop) `{!forall j, Decision (P j)}
  (l : list InstrId) :
  (forall j, j ∈ l -> P j) -> filter P l = l.
Proof.
  induction l as [|j l IH]; intros Hall; [reflexivity|].
  rewrite filter_cons. destruct (decide (P j)) as [_|Hn].
  - rewrite IH; [reflexivity|]. intros k Hk. apply Hall.
    apply elem_of_cons. right. exact Hk.
  - exfalso. apply Hn, Hall. apply elem_of_cons. left. reflexivity.
Qed.

Lemma elem_default_filter (P : InstrId -> Prop) `{!forall j, Decision (P j)}
  (o : option (list InstrId)) (j : InstrId) :
  j ∈ default [] (filter P <$> o) <-> P j /\ j ∈ default [] o.
Proof.
  destruct o as [l|]; simpl.
  - apply list_elem_of_filter.
  - split; [intros Hin; inversion Hin | intros [_ Hin]; inversion Hin].
Qed.

Lemma insertBefore_elem (pos new j : InstrId) (l : list InstrId) :
  j ∈ l -> j ∈ insertBefore pos new l.
Proof.
  induction l as [|k l IH]; simpl; intros H; [exact H|].
  destruct (Nat.eqb k pos).
  - apply elem_of_cons. right. exact H.
  - apply elem_of_cons in H as [->|H]; apply elem_of_cons; [left|right]; auto.
Qed.

Lemma filtered_erase (MF : MachineFunction) (k : nat) (st : PassState)
  (MFn : MachineFunction) (x : InstrId) :
  filtered MF k st ->
  Blocks MFn = Blocks (Fn st) -> Erased MFn = Erased (Fn st) ->
  forall st', Fn st' = eraseFromParent MFn x -> filtered MF k st'.
Proof.
  intros HF HB HE st' HFn c Hc. rewrite HFn. simpl.
  rewrite list_lookup_fmap, HB, HE, (HF c Hc).
  destruct (Blocks MF !! c) as [l|]; simpl; [|reflexivity].
  rewrite filter_erase_cons. reflexivity.
Qed.

Lemma guarded_weaken (MF : MachineFunction) (k k' : nat)
  (G G' : list InstrId) (st : PassState) :
  guarded MF k G st ->
  (k <= k')%nat ->
  (forall j, j ∈ G' -> j ∈ G) ->
  guarded MF k' G' st.
Proof.
  intros (HL & HF & HU & HE & HK) Hk HG.
  split; [exact HL|]. split; [intros c Hc; apply HF; lia|].
  split; [auto|]. split; auto.
Qed.

Lemma guarded_step (STI : Z80Subtarget) (MF : MachineFunction) (k kb : nat)
  (G : list InstrId) (id : InstrId) (L L' : ValLoc) (st st' : PassState) :
  guarded MF k G st ->
  (forall j, j ∈ G -> (j < length (Instrs MF))%nat) ->
  id ∉ G ->
  (kb < k)%nat ->
  processInstr STI kb id L st = Ok (L', st') ->
  guarded MF k G st'.
Proof.
  intros (HL & HF & HU & HE & HK) HG Hid Hkb Hstep.
  destruct (processInstr_getInstr _ _ _ _ _ _ _ Hstep) as [MI Hget].
  pose proof (getInstr_lt _ _ _ Hget) as Hlt.
  assert (Hne : forall j, j ∈ G -> j <> id) by (intros j Hj ->; contradiction).
  destruct (processInstr_effect _ _ _ _ _ _ _ _ Hget Hstep)
    as [[HFn _]|[(Ho & HFn & _)|[(_ & _ & RC & New & MI3 & HFn)|
        (_ & Q & SrcReg & sid & SrcMI & MI' & Hop & _ & _ & Hg & Hl & HFn)]]].
  - unfold guarded, filtered. rewrite HFn. repeat split; assumption.
  - split; [rewrite HFn; exact HL|].
    split; [apply (filtered_erase MF k st (Fn st) id HF eq_refl eq_refl _ HFn)|].
    rewrite HFn. split; [exact HU|]. split.
    + intros j Hj Hin. simpl in Hin.
      apply elem_of_cons in Hin as [->|Hin]; [contradiction | auto].
    + intros j c Hj Hc Hn. simpl in Hn |- *.
      rewrite list_lookup_fmap. apply elem_default_filter.
      split; [apply Hne; exact Hj|]. apply HK; [assumption..|].
      intros Hin. apply Hn. apply elem_of_cons. right. exact Hin.
  - split; [rewrite HFn; simpl; rewrite length_insert, length_app; lia|].
    split.
    { intros c Hc. rewrite HFn. simpl.
      rewrite list_lookup_alter_ne by lia. apply HF. exact Hc. }
    rewrite HFn. split; [|split].
    + intros j Hj. unfold getInstr. simpl.
      rewrite list_lookup_insert_ne by (apply not_eq_sym, Hne; exact Hj).
      rewrite lookup_app_l; [apply HU; exact Hj|].
      specialize (HG j Hj). lia.
    + exact HE.
    + intros j c Hj Hc Hn. simpl in Hn |- *.
      specialize (HK j c Hj Hc Hn).
      destruct (Nat.eq_dec kb c) as [->|Hcb].
      * rewrite list_lookup_alter_eq.
        destruct (Blocks (Fn st) !! c) as [l|]; simpl in *;
          [apply insertBefore_elem; exact HK | exact HK].
      * rewrite list_lookup_alter_ne by exact Hcb. exact HK.
  - split; [rewrite HFn; simpl; rewrite length_insert; exact HL|].
    split.
    { apply (filtered_erase MF k st (setInstr (Fn st) id MI') sid HF
               eq_refl eq_refl _ HFn). }
    rewrite HFn. split; [|split].
    + intros j Hj. unfold getInstr. simpl.
      rewrite list_lookup_insert_ne by (apply not_eq_sym, Hne; exact Hj).
      apply HU. exact Hj.
    + intros j Hj Hin. simpl in Hin.
      apply elem_of_cons in Hin as [->|Hin]; [|auto].
      exists SrcMI. split; [rewrite <- (HU sid Hj); exact Hg|].
      rewrite Hl. destruct Q; auto.
    + intros j c Hj Hc Hn. simpl in Hn |- *.
      rewrite list_lookup_fmap. apply elem_default_filter.
      split.
      * intros ->. apply Hn. apply elem_of_cons. left. reflexivity.
      * apply HK; [assumption..|].
        intros Hin. apply Hn. apply elem_of_cons. right. exact Hin.
Qed.

Lemma walk_guarded_prefix (STI : Z80Subtarget) (MF : MachineFunction)
  (k kb : nat) (G : list InstrId) :
  (forall j, j ∈ G -> (j < length (Instrs MF))%nat) ->
  (kb < k)%nat ->
  forall (p1 rest : list InstrId) (L : ValLoc) (st st' : PassState),
    (forall id, id ∈ p1 -> id ∉ G) ->
    guarded MF k G st ->
    walkBlock STI kb (p1 ++ rest) L st = Ok st' ->
    exists L1 st1,
      guarded MF k G st1 /\ walkBlock STI kb rest L1 st1 = Ok st'.
Proof.
  intros HG Hkb.
  induction p1 as [|id p1 IH]; intros rest L st st' Hp HI H.
  - exists L, st. split; assumption.
  - assert (Hp1 : forall j, j ∈ p1 -> j ∉ G)
      by (intros j Hj; apply Hp; apply elem_of_cons; right; exact Hj).
    cbn [app walkBlock] in H.
    destruct (isErased (Fn st) id); [eapply IH; eassumption|].
    apply bind_Ok_inv in H as ([L1 st1] & Hstep & H).
    assert (HI1 : guarded MF k G st1).
    { eapply guarded_step; try eassumption.
      apply Hp. apply elem_of_cons. left. reflexivity. }
    destruct (nextLinked (Fn st) (p1 ++ rest)) as [j|];
      [destruct (isErased (Fn st1) j); [discriminate|]|];
      eapply IH; eassumption.
Qed.

Lemma walkBlock_guarded (STI : Z80Subtarget) (MF : MachineFunction)
  (k kb : nat) (G : list InstrId) (pending : list InstrId) (L : ValLoc)
  (st st' : PassState) :
  (forall j, j ∈ G -> (j < length (Instrs MF))%nat) ->
  (kb < k)%nat ->
  (forall id, id ∈ pending -> id ∉ G) ->
  guarded MF k G st ->
  walkBlock STI kb pending L st = Ok st' ->
  guarded MF k G st'.
Proof.
  intros HG Hkb Hp HI H.
  destruct (walk_guarded_prefix STI MF k kb G HG Hkb pending [] L st st')
    as (L1 & st1 & HI1 & H1); try assumption.
  - rewrite app_nil_r. exact H.
  - simpl in H1. injection H1 as <-. exact HI1.
Qed.

Lemma walkBlocks_guarded (STI : Z80Subtarget) (MF : MachineFunction)
  (G : list InstrId) :
  (forall j, j ∈ G -> (j < length (Instrs MF))%nat) ->
  forall (n k : nat) (st st' : PassState),
    (forall c j, (k <= c < k + n)%nat ->
                 j ∈ default [] (Blocks MF !! c) -> j ∉ G) ->
    guarded MF k G st ->
    walkBlocks STI k n st = Ok st' ->
    guarded MF (k + n) G st'.
Proof.
  intros HG. induction n as [|n IH]; intros k st st' Hd HI H.
  - simpl in H. injection H as <-. rewrite Nat.add_0_r. exact HI.
  - cbn [walkBlocks] in H. apply bind_Ok_inv in H as (st1 & Hw & H).
    replace (k + S n)%nat with (S k + n)%nat by lia.
    apply (IH (S k) st1 st'); [intros c j Hc; apply Hd; lia| |exact H].
    apply (walkBlock_guarded STI MF (S k) k G _ _ _ _ HG) in Hw;
      [exact Hw | lia | | eapply guarded_weaken; [exact HI | lia | auto]].
    intros id Hin. destruct HI as (_ & HF & _).
    rewrite (HF k (Nat.le_refl k)) in Hin.
    apply elem_default_filter in Hin as [_ Hin].
    apply (Hd k id); [lia | exact Hin].
Qed.

Lemma walkBlocks_app (STI : Z80Subtarget) (n1 n2 : nat) :
  forall (k : nat) (st : PassState),
    walkBlocks STI k (n1 + n2) st
    = bind (walkBlocks STI k n1 st) (walkBlocks STI (k + n1) n2).
Proof.
  induction n1 as [|n1 IH]; intros k st.
  - simpl. rewrite Nat.add_0_r. reflexivity.
  - cbn [Nat.add walkBlocks].
    destruct (walkBlock STI k (default [] (Blocks (Fn st) !! k))
                ValLoc_init st) as [st1|f]; simpl; [|reflexivity].
    rewrite IH. replace (S k + n1)%nat with (k + S n1)%nat by lia.
    reflexivity.
Qed.

Lemma guarded_init (MF : MachineFunction) (G : list InstrId) :
  wellFormed MF ->
  (forall j, j ∈ G -> j ∈ concat (Blocks MF)) ->
  guarded MF 0 G (mkPS MF false []).
Proof.
  intros (HA & HB & HC) HG. unfold guarded, filtered. cbn [Fn].
  split; [lia|]. split; [|split; [|split]].
  - intros c _. destruct (Blocks MF !! c) as [l|] eqn:Hc; simpl; [|reflexivity].
    rewrite filter_all_in; [reflexivity|].
    intros j Hj. apply HA. apply (elem_of_concat_lookup _ c).
    rewrite Hc. exact Hj.
  - reflexivity.
  - intros j Hj Hin. destruct (HA j (HG j Hj)) as [_ Hn]. contradiction.
  - intros j c _ Hc _. exact Hc.
Qed.

Lemma unlinked_step (STI : Z80Subtarget) (x : InstrId) (b : nat)
  (id : InstrId) (L L' : ValLoc) (st st' : PassState) (MI : MachineInstr) :
  unlinked x st ->
  getInstr (Fn st) id = Ok MI ->
  processInstr STI b id L st = Ok (L', st') ->
  unlinked x st'.
Proof.
  intros (Hn & Hlt & He) Hget Hstep. unfold unlinked.
  destruct (processInstr_effect _ _ _ _ _ _ _ _ Hget Hstep)
    as [[-> _]|[(_ & -> & _)|[(_ & _ & RC & New & MI3 & ->)|
        (_ & Q & SrcReg & sid & SrcMI & MI' & _ & _ & _ & _ & _ & ->)]]].
  - repeat split; assumption.
  - split; [|split].
    + intros Hin. apply linked_erase in Hin as [_ Hin]. contradiction.
    + exact Hlt.
    + simpl. apply elem_of_cons. right. exact He.
  - simpl. rewrite length_insert, length_app. split; [|split; [lia|exact He]].
    intros Hin.
    destruct (concat_alter_insertBefore id (length (Instrs (Fn st)))
                (Blocks (Fn st)) b) as [H|H]; rewrite H in Hin.
    + contradiction.
    + apply elem_of_cons in Hin as [->|Hin]; [lia | contradiction].
  - split; [|split].
    + intros Hin. apply linked_erase in Hin as [_ Hin]. contradiction.
    + simpl. rewrite length_insert. exact Hlt.
    + simpl. apply elem_of_cons. right. exact He.
Qed.

Lemma walkBlock_cons_inv (STI : Z80Subtarget) (b : nat) (id : InstrId)
  (rest : list InstrId) (L : ValLoc) (st st' : PassState) :
  isErased (Fn st) id = false ->
  walkBlock STI b (id :: rest) L st = Ok st' ->
  exists L1 st1,
    processInstr STI b id L st = Ok (L1, st1) /\
    walkBlock STI b rest L1 st1 = Ok st'.
Proof.
  intros Hl H. cbn [walkBlock] in H. rewrite Hl in H.
  apply bind_Ok_inv in H as ([L1 st1] & Hstep & H).
  exists L1, st1. split; [exact Hstep|].
  destruct (nextLinked (Fn st) rest) as [j|];
    [destruct (isErased (Fn st1) j); [discriminate|]|]; exact H.
Qed.

Lemma blocks_disjoint (Bs : list (list InstrId)) :
  NoDup (concat Bs) ->
  forall (c b : nat) (l1 l2 : list InstrId) (j : InstrId),
    Bs !! c = Some l1 -> Bs !! b = Some l2 -> c <> b ->
    j ∈ l1 -> j ∉ l2.
Proof.
  induction Bs as [|blk Bs IH]; intros HN c b l1 l2 j Hc Hb Hne Hj1 Hj2.
  - discriminate.
  - cbn [concat] in HN. apply NoDup_app in HN as (_ & Hdis & HN').
    destruct c as [|c], b as [|b]; simpl in Hc, Hb.
    + congruence.
    + injection Hc as <-. apply (Hdis j Hj1).
      apply (elem_of_concat_lookup _ b). rewrite Hb. exact Hj2.
    + injection Hb as <-. apply (Hdis j Hj2).
      apply (elem_of_concat_lookup _ c). rewrite Hc. exact Hj1.
    + apply (IH HN' c b l1 l2 j); try assumption. congruence.
Qed.

Lemma block_NoDup (Bs : list (list InstrId)) :
  NoDup (concat Bs) ->
  forall (b : nat) (l : list InstrId), Bs !! b = Some l -> NoDup l.
Proof.
  induction Bs as [|blk Bs IH]; intros HN b l Hb; [discriminate|].
  cbn [concat] in HN. apply NoDup_app in HN as (HN1 & _ & HN').
  destruct b as [|b]; simpl in Hb; [congruence | eauto].
Qed.

Lemma guarded_not_erased (MF : MachineFunction) (k : nat) (G : list InstrId)
  (st : PassState) (x : InstrId) (MIx : MachineInstr) :
  guarded MF k G st ->
  x ∈ G ->
  getInstr MF x = Ok MIx ->
  getOpcode MIx <> LEA16ro -> getOpcode MIx <> LEA24ro ->
  (x ∉ Erased (Fn st)) /\ isErased (Fn st) x = false /\
  getInstr (Fn st) x = Ok MIx.
Proof.
  intros (_ & _ & HU & HE & _) Hx Hget H16 H24.
  assert (Hn : x ∉ Erased (Fn st)).
  { intros Hin. destruct (HE x Hx Hin) as (MI & Hg & [Ho|Ho]);
      rewrite Hget in Hg; injection Hg as <-; contradiction. }
  split; [exact Hn|]. split.
  - unfold isErased. apply bool_decide_eq_false_2. exact Hn.
  - rewrite (HU x Hx). exact Hget.
Qed.

(** Walking a run of instructions that do not put the tracker on the
    accumulator, up to a guarded instruction [x]. *)
Lemma walk_nonsetting_prefix (STI : Z80Subtarget) (MF : MachineFunction)
  (b : nat) (x : InstrId) (p2 : list InstrId) :
  forall (p1 : list InstrId) (L : ValLoc) (st st' : PassState),
    NoDup (p1 ++ [x]) ->
    (forall j, j ∈ p1 ++ [x] -> (j < length (Instrs MF))%nat) ->
    (forall j MIj, j ∈ p1 -> getInstr MF j = Ok MIj ->
                   setsTrackerToA STI MIj = false) ->
    guarded MF (S b) (p1 ++ [x]) st ->
    matchesReg L (Z80_A STI) = false ->
    walkBlock STI b (p1 ++ x :: p2) L st = Ok st' ->
    exists L1 st1,
      guarded MF (S b) [x] st1 /\
      matchesReg L1 (Z80_A STI) = false /\
      walkBlock STI b (x :: p2) L1 st1 = Ok st'.
Proof.
  induction p1 as [|j p1 IH]; intros L st st' HN Hlt Hns HI HL H.
  - exists L, st. split; [exact HI|]. split; assumption.
  - cbn [app] in HN. apply NoDup_cons in HN as [Hj HN].
    assert (Hlt1 : forall k, k ∈ p1 ++ [x] -> (k < length (Instrs MF))%nat)
      by (intros k Hk; apply Hlt; apply elem_of_cons; right; exact Hk).
    assert (Hns1 : forall k MIk, k ∈ p1 -> getInstr MF k = Ok MIk ->
                     setsTrackerToA STI MIk = false)
      by (intros k MIk Hk; apply Hns; apply elem_of_cons; right; exact Hk).
    assert (HI1 : guarded MF (S b) (p1 ++ [x]) st).
    { apply (guarded_weaken MF (S b) (S b) (j :: p1 ++ [x]));
        [exact HI | apply Nat.le_refl |].
      intros k Hk. apply elem_of_cons. right. exact Hk. }
    cbn [app walkBlock] in H.
    destruct (isErased (Fn st) j); [eapply IH; eassumption|].
    apply bind_Ok_inv in H as ([L1 st1] & Hstep & H).
    destruct (processInstr_getInstr _ _ _ _ _ _ _ Hstep) as [MI Hget].
    assert (HMF : getInstr MF j = Ok MI).
    { destruct HI as (_ & _ & HU & _). rewrite <- HU; [exact Hget|].
      apply elem_of_cons. left. reflexivity. }
    assert (HL1 : matchesReg L1 (Z80_A STI) = false).
    { eapply processInstr_nonsetting; [exact Hget| |exact HL|exact Hstep].
      apply (Hns j MI); [apply elem_of_cons; left; reflexivity | exact HMF]. }
    assert (HI2 : guarded MF (S b) (p1 ++ [x]) st1).
    { apply (guarded_step STI MF (S b) b (p1 ++ [x]) j L L1 st st1 HI1 Hlt1
               Hj (Nat.lt_succ_diag_r b) Hstep). }
    destruct (nextLinked (Fn st) (p1 ++ x :: p2)) as [k|];
      [destruct (isErased (Fn st1) k); [discriminate|]|];
      eapply IH; eassumption.
Qed.

(** ** The walk up to, and after, one block *)

Lemma run_split (STI : Z80Subtarget) (MF : MachineFunction) (b : nat)
  (blk : list InstrId) (st' : PassState) :
  Blocks MF !! b = Some blk ->
  runOnMachineFunction STI MF = Ok st' ->
  exists stb stb',
    walkBlocks STI 0 b (mkPS MF false []) = Ok stb /\
    walkBlock STI b (default [] (Blocks (Fn stb) !! b)) ValLoc_init stb
      = Ok stb' /\
    walkBlocks STI (S b) (length (Blocks MF) - S b) stb' = Ok st'.
Proof.
  intros Hb Hrun. apply lookup_lt_Some in Hb.
  unfold runOnMachineFunction in Hrun.
  replace (length (Blocks MF))
    with (b + S (length (Blocks MF) - S b))%nat in Hrun at 1 by lia.
  rewrite walkBlocks_app in Hrun.
  apply bind_Ok_inv in Hrun as (stb & H1 & H2).
  cbn [walkBlocks Nat.add] in H2.
  apply bind_Ok_inv in H2 as (stb' & H2 & H3).
  exists stb, stb'. repeat split; assumption.
Qed.

Lemma guarded_before_block (STI : Z80Subtarget) (MF : MachineFunction)
  (b : nat) (blk G : list InstrId) (stb : PassState) :
  wellFormed MF ->
  Blocks MF !! b = Some blk ->
  (forall j, j ∈ G -> j ∈ blk) ->
  walkBlocks STI 0 b (mkPS MF false []) = Ok stb ->
  (forall j, j ∈ G -> (j < length (Instrs MF))%nat) /\
  guarded MF b G stb.
Proof.
  intros Hwf Hb HG Hw.
  assert (Hlinked : forall j, j ∈ G -> j ∈ concat (Blocks MF)).
  { intros j Hj. apply (elem_of_concat_lookup _ b). rewrite Hb. simpl. auto. }
  assert (Hlt : forall j, j ∈ G -> (j < length (Instrs MF))%nat).
  { intros j Hj. destruct Hwf as (HA & _). apply HA. auto. }
  split; [exact Hlt|].
  apply (walkBlocks_guarded STI MF G Hlt b 0 _ stb) in Hw;
    [exact Hw | | apply guarded_init; assumption].
  intros c j Hc Hj HjG.
  destruct (Blocks MF !! c) as [l|] eqn:Hl; simpl in Hj; [|inversion Hj].
  destruct Hwf as (_ & _ & HN).
  apply (blocks_disjoint _ HN c b l blk j Hl Hb); [lia | exact Hj | auto].
Qed.

Lemma guarded_after_block (STI : Z80Subtarget) (MF : MachineFunction)
  (b m : nat) (blk G : list InstrId) (stb' st' : PassState) :
  wellFormed MF ->
  Blocks MF !! b = Some blk ->
  (forall j, j ∈ G -> j ∈ blk) ->
  guarded MF (S b) G stb' ->
  walkBlocks STI (S b) m stb' = Ok st' ->
  guarded MF (S b + m) G st'.
Proof.
  intros Hwf Hb HG HI Hw.
  assert (Hlt : forall j, j ∈ G -> (j < length (Instrs MF))%nat).
  { intros j Hj. destruct Hwf as (HA & _). apply HA.
    apply (elem_of_concat_lookup _ b). rewrite Hb. simpl. auto. }
  apply (walkBlocks_guarded STI MF G Hlt m (S b) stb' st'); try assumption.
  intros c j Hc Hj HjG.
  destruct (Blocks MF !! c) as [l|] eqn:Hl; simpl in Hj; [|inversion Hj].
  destruct Hwf as (_ & _ & HN).
  apply (blocks_disjoint _ HN c b l blk j Hl Hb); [lia | exact Hj | auto].
Qed.

Lemma guarded_snapshot (MF : MachineFunction) (b : nat) (G blk : list InstrId)
  (st : PassState) :
  guarded MF b G st ->
  Blocks MF !! b = Some blk ->
  default [] (Blocks (Fn st) !! b)
  = filter (fun j => j ∉ Erased (Fn st)) blk.
Proof.
  intros (_ & HF & _) Hb. rewrite (HF b (Nat.le_refl b)), Hb. reflexivity.
Qed.

Lemma filter_keep_cons (E : list InstrId) (x : InstrId) (l : list InstrId) :
  x ∉ E ->
  filter (fun j => j ∉ E) (x :: l) = x :: filter (fun j => j ∉ E) l.
Proof.
  intros Hx. rewrite filter_cons. destruct (decide (x ∉ E)); [reflexivity|].
  contradiction.
Qed.

(** ** The self-OR in its block *)

Lemma self_or_kept (STI : Z80Subtarget) (MF : MachineFunction) (b : nat)
  (pre post : list InstrId) (idOr : InstrId) (MIor : MachineInstr)
  (d i : bool) (st' : PassState) :
  wellFormed MF ->
  Blocks MF !! b = Some (pre ++ idOr :: post) ->
  getInstr MF idOr = Ok MIor ->
  getOpcode MIor = OR8ar ->
  Operands MIor !! 0%nat = Some (MO_Register (Z80_A STI) d i) ->
  NumDefs (Desc MIor) = 0%nat ->
  (forall j MIj, j ∈ pre -> getInstr MF j = Ok MIj ->
                 setsTrackerToA STI MIj = false) ->
  runOnMachineFunction STI MF = Ok st' ->
  idOr ∈ default [] (Blocks (Fn st') !! b) /\
  (idOr ∉ Erased (Fn st')) /\
  getInstr (Fn st') idOr = Ok MIor.
Proof.
  intros Hwf Hb Hget Hopc Hop0 Hnd Hns Hrun.
  destruct (run_split STI MF b _ st' Hb Hrun) as (stb & stb' & H1 & H2 & H3).
  assert (HN : NoDup (pre ++ idOr :: post)).
  { destruct Hwf as (_ & _ & HN). exact (block_NoDup _ HN b _ Hb). }
  apply NoDup_app in HN as (HNpre & Hdis & HNpost).
  apply NoDup_cons in HNpost as [Hpost _].
  assert (Hpre : idOr ∉ pre).
  { intros Hin. apply (Hdis idOr Hin). apply elem_of_cons. left. reflexivity. }
  assert (H16 : getOpcode MIor <> LEA16ro) by (rewrite Hopc; discriminate).
  assert (H24 : getOpcode MIor <> LEA24ro) by (rewrite Hopc; discriminate).
  assert (HG : forall j, j ∈ pre ++ [idOr] -> j ∈ pre ++ idOr :: post).
  { intros j Hj. apply elem_of_app in Hj as [Hj|Hj]; apply elem_of_app;
      [left; exact Hj|]. right. apply list_elem_of_singleton in Hj as ->.
    apply elem_of_cons. left. reflexivity. }
  destruct (guarded_before_block STI MF b _ (pre ++ [idOr]) stb Hwf Hb HG H1)
    as [Hlt HIb].
  assert (HxG : idOr ∈ pre ++ [idOr]).
  { apply elem_of_app. right. apply list_elem_of_singleton. reflexivity. }
  destruct (guarded_not_erased MF b _ stb idOr MIor HIb HxG Hget H16 H24)
    as (Hnb & _ & _).
  rewrite (guarded_snapshot MF b _ _ stb HIb Hb), filter_app,
    (filter_keep_cons _ _ _ Hnb) in H2.
  set (P := fun j : InstrId => j ∉ Erased (Fn stb)) in *.
  assert (Hsub : forall j, j ∈ filter P pre ++ [idOr] -> j ∈ pre ++ [idOr]).
  { intros j Hj. apply elem_of_app in Hj as [Hj|Hj]; apply elem_of_app;
      [left | right; exact Hj].
    apply list_elem_of_filter in Hj as [_ Hj]. exact Hj. }
  destruct (walk_nonsetting_prefix STI MF b idOr (filter P post)
              (filter P pre) ValLoc_init stb stb')
    as (L1 & st1 & HI1 & HL1 & Hw).
  - apply NoDup_app. split; [apply NoDup_filter; exact HNpre|].
    split; [|apply NoDup_singleton].
    intros j Hj Hx. apply list_elem_of_singleton in Hx as ->.
    apply list_elem_of_filter in Hj as [_ Hj]. contradiction.
  - intros j Hj. apply Hlt, Hsub, Hj.
  - intros j MIj Hj. apply list_elem_of_filter in Hj as [_ Hj].
    apply Hns. exact Hj.
  - apply (guarded_weaken MF b (S b) (pre ++ [idOr])); [exact HIb | lia|].
    exact Hsub.
  - apply matchesReg_init.
  - exact H2.
  - assert (Hx1 : idOr ∈ [idOr]) by (apply list_elem_of_singleton; reflexivity).
    destruct (guarded_not_erased MF (S b) _ st1 idOr MIor HI1 Hx1 Hget H16 H24)
      as (_ & Hl1 & Hg1).
    destruct (walkBlock_cons_inv STI b idOr _ L1 st1 stb' Hl1 Hw)
      as (L2 & st2 & Hstep & Hw2).
    destruct (processInstr_self_or STI b idOr L1 st1 MIor d i Hg1 Hl1 Hopc
                Hop0 Hnd) as [_ Hkeep].
    rewrite (Hkeep HL1) in Hstep. injection Hstep as <- <-.
    assert (Hlt1 : forall j, j ∈ [idOr] -> (j < length (Instrs MF))%nat).
    { intros j Hj. apply list_elem_of_singleton in Hj as ->.
      apply Hlt. exact HxG. }
    assert (HIb' : guarded MF (S b) [idOr] stb').
    { apply (walkBlock_guarded STI MF (S b) b [idOr] _ _ _ _ Hlt1
               (Nat.lt_succ_diag_r b)) in Hw2; [exact Hw2| |exact HI1].
      intros j Hj Hx. apply list_elem_of_singleton in Hx as ->.
      apply list_elem_of_filter in Hj as [_ Hj]. contradiction. }
    assert (HGx : forall j, j ∈ [idOr] -> j ∈ pre ++ idOr :: post).
    { intros j Hj. apply HG. apply list_elem_of_singleton in Hj as ->.
      exact HxG. }
    pose proof (guarded_after_block STI MF b _ _ [idOr] stb' st' Hwf Hb HGx
                  HIb' H3) as HIe.
    destruct (guarded_not_erased MF _ _ st' idOr MIor HIe Hx1 Hget H16 H24)
      as (Hne & _ & Hge).
    split; [|split; assumption].
    destruct HIe as (_ & _ & _ & _ & HK).
    apply HK; [exact Hx1| |exact Hne].
    rewrite Hb. simpl. apply elem_of_app. right. apply elem_of_cons. left.
    reflexivity.
Qed.

Lemma self_or_deleted (STI : Z80Subtarget) (MF : MachineFunction) (b : nat)
  (pre' post : list InstrId) (idAdd idOr : InstrId)
  (MIadd MIor : MachineInstr) (d i : bool) (st' : PassState) :
  wellFormed MF ->
  Blocks MF !! b = Some ((pre' ++ [idAdd]) ++ idOr :: post) ->
  getInstr MF idOr = Ok MIor ->
  getOpcode MIor = OR8ar ->
  Operands MIor !! 0%nat = Some (MO_Register (Z80_A STI) d i) ->
  NumDefs (Desc MIor) = 0%nat ->
  getInstr MF idAdd = Ok MIadd ->
  accArith (getOpcode MIadd) = true ->
  NumDefs (Desc MIadd) = 0%nat ->
  isValid (Z80_A STI) = true ->
  runOnMachineFunction STI MF = Ok st' ->
  unlinked idOr st'.
Proof.
  intros Hwf Hb Hget Hopc Hop0 Hnd HgetA HopA HndA HvA Hrun.
  destruct (run_split STI MF b _ st' Hb Hrun) as (stb & stb' & H1 & H2 & H3).
  assert (HN : NoDup ((pre' ++ [idAdd]) ++ idOr :: post)).
  { destruct Hwf as (_ & _ & HN). exact (block_NoDup _ HN b _ Hb). }
  rewrite <- app_assoc in HN. cbn [app] in HN.
  apply NoDup_app in HN as (_ & Hdis & _).
  assert (H16 : getOpcode MIor <> LEA16ro) by (rewrite Hopc; discriminate).
  assert (H24 : getOpcode MIor <> LEA24ro) by (rewrite Hopc; discriminate).
  assert (HA16 : getOpcode MIadd <> LEA16ro)
    by (intros He; rewrite He in HopA; discriminate).
  assert (HA24 : getOpcode MIadd <> LEA24ro)
    by (intros He; rewrite He in HopA; discriminate).
  assert (HG : forall j, j ∈ [idAdd; idOr] ->
                         j ∈ (pre' ++ [idAdd]) ++ idOr :: post).
  { intros j Hj. rewrite <- app_assoc. cbn [app].
    apply elem_of_app. right.
    apply elem_of_cons in Hj as [->|Hj]; [apply elem_of_cons; left; reflexivity|].
    apply list_elem_of_singleton in Hj as ->.
    apply elem_of_cons. right. apply elem_of_cons. left. reflexivity. }
  destruct (guarded_before_block STI MF b _ [idAdd; idOr] stb Hwf Hb HG H1)
    as [Hlt HIb].
  assert (HaG : idAdd ∈ [idAdd; idOr]) by (apply elem_of_cons; left; reflexivity).
  assert (HxG : idOr ∈ [idAdd; idOr]).
  { apply elem_of_cons. right. apply list_elem_of_singleton. reflexivity. }
  destruct (guarded_not_erased MF b _ stb idOr MIor HIb HxG Hget H16 H24)
    as (Hnb & _ & _).
  destruct (guarded_not_erased MF b _ stb idAdd MIadd HIb HaG HgetA HA16 HA24)
    as (Hna & _ & _).
  rewrite (guarded_snapshot MF b _ _ stb HIb Hb) in H2.
  rewrite <- app_assoc in H2. cbn [app] in H2.
  rewrite filter_app, (filter_keep_cons _ _ _ Hna),
    (filter_keep_cons _ _ _ Hnb) in H2.
  set (P := fun j : InstrId => j ∉ Erased (Fn stb)) in *.
  destruct (walk_guarded_prefix STI MF (S b) b [idAdd; idOr] Hlt
              (Nat.lt_succ_diag_r b) (filter P pre')
              (idAdd :: idOr :: filter P post) ValLoc_init stb stb')
    as (L1 & st1 & HI1 & Hw).
  - intros j Hj HjG. apply list_elem_of_filter in Hj as [_ Hj].
    apply (Hdis j Hj).
    apply elem_of_cons in HjG as [->|HjG]; [apply elem_of_cons; left; reflexivity|].
    apply list_elem_of_singleton in HjG as ->.
    apply elem_of_cons. right. apply elem_of_cons. left. reflexivity.
  - apply (guarded_weaken MF b (S b) [idAdd; idOr]); [exact HIb | lia | auto].
  - exact H2.
  - destruct (guarded_not_erased MF _ _ st1 idAdd MIadd HI1 HaG HgetA HA16 HA24)
      as (_ & Hla & Hga).
    destruct (guarded_not_erased MF _ _ st1 idOr MIor HI1 HxG Hget H16 H24)
      as (_ & Hlo & Hgo).
    destruct (walkBlock_cons_inv STI b idAdd _ L1 st1 stb' Hla Hw)
      as (L2 & st2 & Hstep & Hw2).
    rewrite (processInstr_accArith STI b idAdd L1 st1 MIadd Hga Hla HopA HndA)
      in Hstep.
    injection Hstep as <- <-.
    destruct (walkBlock_cons_inv STI b idOr _ _ st1 stb' Hlo Hw2)
      as (L3 & st3 & Hstep3 & Hw3).
    destruct (processInstr_self_or STI b idOr (setReg L1 (Z80_A STI)) st1
                MIor d i Hgo Hlo Hopc Hop0 Hnd) as [Hdel _].
    destruct Hdel as [Hrun3 Hunl].
    { unfold matchesReg, setReg. cbn [Reg]. rewrite HvA, Z.eqb_refl.
      reflexivity. }
    rewrite Hrun3 in Hstep3. injection Hstep3 as <- <-.
    assert (HU3 : unlinked idOr
                    (mkPS (eraseFromParent (Fn st1) idOr) (Changed st1)
                          (idOr :: StaleReads st1))).
    { split; [|split].
      - cbn [Fn]. intros Hin. apply list_elem_of_In, in_concat in Hin
          as (blk & Hblk & Hin).
        apply (Hunl blk); apply list_elem_of_In; assumption.
      - cbn [Fn]. simpl. apply (getInstr_lt _ _ _ Hgo).
      - cbn [Fn]. simpl. apply elem_of_cons. left. reflexivity. }
    assert (Hstepinv : forall (b0 : nat) (id : InstrId) (L L' : ValLoc)
                              (st st0 : PassState) (MI : MachineInstr),
               unlinked idOr st -> getInstr (Fn st) id = Ok MI ->
               isErased (Fn st) id = false ->
               processInstr STI b0 id L st = Ok (L', st0) ->
               unlinked idOr st0).
    { intros b0 id L L' st st0 MI HU Hg _ Hs.
      exact (unlinked_step STI idOr b0 id L L' st st0 MI HU Hg Hs). }
    pose proof (walkBlock_invariant STI (unlinked idOr) Hstepinv b _ _ _ _
                  HU3 Hw3) as HUb.
    exact (walkBlocks_invariant STI (unlinked idOr) Hstepinv _ _ _ _ HUb H3).
Qed.

(** C1: over the whole pass, for an [OR8ar] of the accumulator linked
    into a block of a well-formed function.  When the instruction right
    before it in the block is accumulator arithmetic (which leaves the
    tracker on the accumulator), the self-OR is erased and no longer
    linked in the function the pass returns.  When no instruction before
    it in the block puts the tracker on the accumulator, the self-OR is
    still linked in its block, not erased and stored as it was: every
    block is entered with an unset tracker, whatever the blocks before
    it did. *)
Theorem self_or_elimination :
  forall (STI : Z80Subtarget) (MF : MachineFunction) (b : nat)
         (pre post : list InstrId) (idOr : InstrId) (MIor : MachineInstr)
         (d i : bool) (st' : PassState),
    wellFormed MF ->
    Blocks MF !! b = Some (pre ++ idOr :: post) ->
    getInstr MF idOr = Ok MIor ->
    getOpcode MIor = OR8ar ->
    Operands MIor !! 0%nat = Some (MO_Register (Z80_A STI) d i) ->
    NumDefs (Desc MIor) = 0%nat ->
    runOnMachineFunction STI MF = Ok st' ->
    (forall (pre' : list InstrId) (idAdd : InstrId) (MIadd : MachineInstr),
        pre = pre' ++ [idAdd] ->
        getInstr MF idAdd = Ok MIadd ->
        accArith (getOpcode MIadd) = true ->
        NumDefs (Desc MIadd) = 0%nat ->
        isValid (Z80_A STI) = true ->
        (idOr ∉ concat (Blocks (Fn st'))) /\ idOr ∈ Erased (Fn st')) /\
    ((forall (j : InstrId) (MIj : MachineInstr),
         j ∈ pre -> getInstr MF j = Ok MIj ->
         setsTrackerToA STI MIj = false) ->
     idOr ∈ default [] (Blocks (Fn st') !! b) /\
     (idOr ∉ Erased (Fn st')) /\
     getInstr (Fn st') idOr = Ok MIor).
Proof.
  intros STI MF b pre post idOr MIor d i st' Hwf Hb Hget Hopc Hop0 Hnd Hrun.
  split.
  - intros pre' idAdd MIadd -> HgetA HopA HndA HvA.
    destruct (self_or_deleted STI MF b pre' post idAdd idOr MIadd MIor d i st'
                Hwf Hb Hget Hopc Hop0 Hnd HgetA HopA HndA HvA Hrun)
      as (Hn & _ & He).
    split; assumption.
  - intros Hns.
    exact (self_or_kept STI MF b pre post idOr MIor d i st' Hwf Hb Hget Hopc
             Hop0 Hnd Hns Hrun).
Qed.

(** The theorem on [fnAddOr], where the self-OR follows the addition in
    its block and is erased, and on [fnAddThenOr], where the addition
    ends the block before and the self-OR is kept. *)
Lemma self_or_elimination_witness :
  (exists st',
      runOnMachineFunction (sampleSTI true) fnAddOr = Ok st' /\
      (1%nat ∉ concat (Blocks (Fn st'))) /\
      1%nat ∈ Erased (Fn st')) /\
  (exists st',
      runOnMachineFunction (sampleSTI true) fnAddThenOr = Ok st' /\
      1%nat ∈ default [] (Blocks (Fn st') !! 1%nat) /\
      (1%nat ∉ Erased (Fn st')) /\
      getInstr (Fn st') 1%nat = Ok (iOR8ar rA)).
Proof.
  split.
  - destruct (runOnMachineFunction (sampleSTI true) fnAddOr) as [st'|f]
      eqn:Hrun; [|vm_compute in Hrun; discriminate].
    exists st'. split; [reflexivity|].
    destruct (self_or_elimination (sampleSTI true) fnAddOr 0%nat [0%nat] []
                1%nat (iOR8ar rA) false false st'
                (wellFormed_mkFunction _ _) eq_refl eq_refl eq_refl eq_refl
                eq_refl Hrun) as [Hdel _].
    apply (Hdel [] 0%nat (iADD8ar (v 0))); reflexivity.
  - destruct (runOnMachineFunction (sampleSTI true) fnAddThenOr) as [st'|f]
      eqn:Hrun; [|vm_compute in Hrun; discriminate].
    exists st'. split; [reflexivity|].
    destruct (self_or_elimination (sampleSTI true) fnAddThenOr 1%nat [] []
                1%nat (iOR8ar rA) false false st'
                (wellFormed_mkFunction _ _) eq_refl eq_refl eq_refl eq_refl
                eq_refl Hrun) as [_ Hkeep].
    apply Hkeep. intros j MIj Hj. inversion Hj.
Defined.

Example run_fnAddThenOr :
  runBlocks (sampleSTI true) fnAddThenOr
    = Some [[iADD8ar (v 0)]; [iOR8ar rA]].
Proof. vm_compute. reflexivity. Qed.
